(** * The assignment pipeline: queue, matcher, scorer, justifier, processor
      and health checker, embedded from the TypeScript sources.

    Conventions of the embedding
    - a JS [string] is a [string], one character for one code unit, so that
      its [length] is [String.length]; the message texts of the source are
      written as they stand and are only ever searched for ASCII keywords;
    - a JS [number] that the pipeline only compares and adds (scores, indices,
      counters, delays) is an integer ([Z] or [nat]);
    - a [Set<string>] is a [gset string], a [Map<string, string>] a
      [gmap string string], an array a [list];
    - a call on an external collaborator (the session store, the language
      model, the timers of the event loop) is either an input of the function
      (what the collaborator answered) or an entry in the list of calls the
      function made. *)

From stdpp Require Import base gmap sets list strings pretty.
From Stdlib Require Import ZArith Lia Ascii.

Set Warnings "-clear-no-such-hyp,-register-all".

Open Scope Z_scope.

(* ===================================================================== *)
(** * Definitions *)
(* ===================================================================== *)

(** ** src/lib/services/AssignmentQueue.ts *)

Module AssignmentQueue.

Record QueueItem := mkQueueItem {
  teamId : string;
  completedAt : Z;
  retryCount : nat;
  addedToQueueAt : Z
}.

Record QueueStats := mkQueueStats {
  processing : nat;
  waiting : nat;
  totalProcessed : nat;
  totalFailed : nat
}.

(** The two private fields and the statistics of the class, together with
    the part of the event loop the queue has work parked in: the pipelines
    whose [triggerAutoAssignment] promise is not settled yet ([running], in
    start order) and the [setTimeout] callbacks armed by [retryTeam]
    ([timers], with their delay in milliseconds). *)
Record t := mk {
  processingPool : gset string;
  waitingQueue : list QueueItem;
  stats : QueueStats;
  running : list QueueItem;
  timers : list (Z * QueueItem)
}.

Definition MAX_CONCURRENT : nat := 3.
Definition MAX_RETRIES : nat := 3.
Definition RETRY_DELAY_BASE : Z := 5000.
Definition RETRY_DELAY_MULTIPLIER : Z := 2.

(** [new AssignmentQueue()] *)
Definition empty : t :=
  mk ∅ [] (mkQueueStats 0 0 0 0) [] [].

Definition updateStats (q : t) : t :=
  mk (processingPool q) (waitingQueue q)
     (mkQueueStats (size (processingPool q)) (length (waitingQueue q))
                   (totalProcessed (stats q)) (totalFailed (stats q)))
     (running q) (timers q).

Definition bumpProcessed (q : t) : t :=
  mk (processingPool q) (waitingQueue q)
     (mkQueueStats (processing (stats q)) (waiting (stats q))
                   (S (totalProcessed (stats q))) (totalFailed (stats q)))
     (running q) (timers q).

Definition bumpFailed (q : t) : t :=
  mk (processingPool q) (waitingQueue q)
     (mkQueueStats (processing (stats q)) (waiting (stats q))
                   (totalProcessed (stats q)) (S (totalFailed (stats q))))
     (running q) (timers q).

(** [startProcessing]: the team enters the pool and its pipeline is handed
    to the event loop; the two continuations run at [settle] below. *)
Definition startProcessing (queueItem : QueueItem) (q : t) : t :=
  let q1 := mk ({[ teamId queueItem ]} ∪ processingPool q) (waitingQueue q)
               (stats q) (running q) (timers q) in
  let q2 := updateStats q1 in
  mk (processingPool q2) (waitingQueue q2) (stats q2)
     (running q2 ++ [queueItem]) (timers q2).

(** [processNext] *)
Definition processNext (q : t) : t :=
  if (MAX_CONCURRENT <=? size (processingPool q))%nat
     || (length (waitingQueue q) =? 0)%nat
  then q
  else match waitingQueue q with
       | [] => q
       | nextItem :: rest =>
           startProcessing nextItem
             (mk (processingPool q) rest (stats q) (running q) (timers q))
       end.

(** [retryTeam]: the retry counter of the item is incremented at once, the
    re-insertion waits for the timer. *)
Definition retryTeam (queueItem : QueueItem) (q : t) : t :=
  let retryDelay :=
    RETRY_DELAY_BASE * RETRY_DELAY_MULTIPLIER ^ Z.of_nat (retryCount queueItem) in
  let queueItem' :=
    mkQueueItem (teamId queueItem) (completedAt queueItem)
                (S (retryCount queueItem)) (addedToQueueAt queueItem) in
  mk (processingPool q) (waitingQueue q) (stats q) (running q)
     (timers q ++ [(retryDelay, queueItem')]).

(** The callback given to [setTimeout] in [retryTeam]. *)
Definition retryCallback (queueItem : QueueItem) (q : t) : t :=
  processNext
    (mk (processingPool q) (queueItem :: waitingQueue q) (stats q)
        (running q) (timers q)).

(** [onProcessingComplete], in two parts.  [completionHead] is what runs up
    to the call of [processNext]: the pool entry is deleted and the outcome
    is counted or the retry armed. *)
Definition completionHead
    (tid : string) (success : bool) (originalQueueItem : option QueueItem)
    (q : t) : t :=
  let q1 := mk (processingPool q ∖ {[ tid ]}) (waitingQueue q) (stats q)
               (running q) (timers q) in
  if success then bumpProcessed q1
  else match originalQueueItem with
       | Some item =>
           if (retryCount item <? MAX_RETRIES)%nat then retryTeam item q1
           else bumpFailed q1
       | None => bumpFailed q1
       end.

Definition onProcessingComplete
    (tid : string) (success : bool) (originalQueueItem : option QueueItem)
    (q : t) : t :=
  processNext (updateStats (completionHead tid success originalQueueItem q)).

(** [addTeam]; [now] is the value of [new Date()]. *)
Definition addTeam (now : Z) (tid : string) (q : t) : t :=
  if decide (tid ∈ processingPool q) then q
  else if existsb (λ item, String.eqb (teamId item) tid) (waitingQueue q) then q
  else
    let queueItem := mkQueueItem tid now 0 now in
    let q1 :=
      if (size (processingPool q) <? MAX_CONCURRENT)%nat
      then startProcessing queueItem q
      else mk (processingPool q) (waitingQueue q ++ [queueItem]) (stats q)
              (running q) (timers q) in
    updateStats q1.

(** The promise of the [i]-th running pipeline settles: [.then] calls
    [onProcessingComplete(teamId, true)], [.catch] calls
    [onProcessingComplete(teamId, false, queueItem)]. *)
Definition settleWith
    (k : string → bool → option QueueItem → t → t)
    (i : nat) (success : bool) (q : t) : t :=
  match running q !! i with
  | None => q
  | Some item =>
      k (teamId item) success (if success then None else Some item)
        (mk (processingPool q) (waitingQueue q) (stats q)
            (delete i (running q)) (timers q))
  end.

Definition settle : nat → bool → t → t := settleWith onProcessingComplete.

(** The [i]-th armed retry timer fires. *)
Definition fire (i : nat) (q : t) : t :=
  match timers q !! i with
  | None => q
  | Some (_, item) =>
      retryCallback item
        (mk (processingPool q) (waitingQueue q) (stats q) (running q)
            (delete i (timers q)))
  end.

(** What can happen to the queue, one event-loop task at a time.
    [onProcessingComplete] awaits [retryTeam] before it goes on to
    [processNext], so other tasks may run in between: [ESettleHead] is a
    completion cut at that point, and [EProcessNext] the rest of it. *)
Inductive event :=
  | EAddTeam (now : Z) (tid : string)
  | ESettle (i : nat) (success : bool)
  | ESettleHead (i : nat) (success : bool)
  | EFire (i : nat)
  | EProcessNext.

Definition apply (q : t) (e : event) : t :=
  match e with
  | EAddTeam now tid => addTeam now tid q
  | ESettle i success => settle i success q
  | ESettleHead i success => settleWith completionHead i success q
  | EFire i => fire i q
  | EProcessNext => processNext (updateStats q)
  end.

Definition run (es : list event) : t := foldl apply empty es.

Definition waitingTeams (q : t) : list string := teamId <$> waitingQueue q.
Definition runningTeams (q : t) : list string := teamId <$> running q.

Definition timerTeams (q : t) : list string := (λ p, teamId p.2) <$> timers q.

(** No team twice among the running pipelines, the waiting list and the
    armed retry timers, and the pool holding exactly the running teams. *)
Definition tidy (q : t) : Prop :=
  NoDup (runningTeams q ++ waitingTeams q ++ timerTeams q) ∧
  processingPool q = list_to_set (runningTeams q).

(** [addTeam] is not called for a team whose retry timer is armed. *)
Definition guarded (q : t) (e : event) : Prop :=
  match e with
  | EAddTeam _ tid => tid ∉ timerTeams q
  | _ => True
  end.

Fixpoint guardedFrom (q : t) (es : list event) : Prop :=
  match es with
  | [] => True
  | e :: es' => guarded q e ∧ guardedFrom (apply q e) es'
  end.

(** How many pipelines of team [tid] are in flight. *)
Definition executions (tid : string) (q : t) : nat :=
  length (filter (λ x, x = tid) (runningTeams q)).

(** [shape q ps ws rs tm]: the pool of [q] is the duplicate-free list [ps]
    read as a set, and its waiting list, running pipelines and armed timers
    are [ws], [rs] and [tm]. *)
Definition shape (q : t) (ps : list string) (ws rs : list QueueItem)
    (tm : list (Z * QueueItem)) : Prop :=
  processingPool q = list_to_set ps ∧ NoDup ps ∧
  waitingQueue q = ws ∧ running q = rs ∧ timers q = tm.

(** *** The public read and admin methods *)

(** The three answers of [getTeamQueuePosition]; [position] counts from 1. *)
Inductive queuePosition :=
  | Processing
  | InWaiting (position : nat)
  | NotFound.

(** [getTeamQueuePosition] *)
Definition getTeamQueuePosition (tid : string) (q : t) : queuePosition :=
  if decide (tid ∈ processingPool q) then Processing
  else match list_find (λ item, teamId item = tid) (waitingQueue q) with
       | Some (queueIndex, _) => InWaiting (queueIndex + 1)
       | None => NotFound
       end.

(** [forceRetryTeam]: the pool entry and the first waiting entry of the team
    are removed, then the team goes through [addTeam].  Neither the pipeline
    of the team that may be in flight nor a retry timer is touched.  Nothing
    in the body throws, the promise resolves to [true]. *)
Definition forceRetryTeam (now : Z) (tid : string) (q : t) : bool * t :=
  let q1 :=
    if decide (tid ∈ processingPool q)
    then mk (processingPool q ∖ {[ tid ]}) (waitingQueue q) (stats q)
            (running q) (timers q)
    else q in
  let q2 :=
    match list_find (λ item, teamId item = tid) (waitingQueue q1) with
    | Some (queueIndex, _) =>
        mk (processingPool q1) (delete queueIndex (waitingQueue q1)) (stats q1)
           (running q1) (timers q1)
    | None => q1
    end in
  (true, addTeam now tid q2).

(** [clearQueue]: the two fields and the statistics are reset; what the
    event loop holds for the queue stays where it is. *)
Definition clearQueue (q : t) : t :=
  mk ∅ [] (mkQueueStats 0 0 0 0) (running q) (timers q).

(** The events of the queue together with the two admin calls. *)
Inductive adminEvent :=
  | EQueue (e : event)
  | EForceRetryTeam (now : Z) (tid : string)
  | EClearQueue.

Definition applyAdmin (q : t) (e : adminEvent) : t :=
  match e with
  | EQueue e => apply q e
  | EForceRetryTeam now tid => (forceRetryTeam now tid q).2
  | EClearQueue => clearQueue q
  end.

Definition runAdmin (es : list adminEvent) : t := foldl applyAdmin empty es.

(** *** Measures of a queue state *)

(** The items the queue holds, wherever they are. *)
Definition items (q : t) : list QueueItem :=
  running q ++ waitingQueue q ++ (snd <$> timers q).

(** Every item has been retried at most [MAX_RETRIES] times, and every armed
    timer carries an item retried at least once, with the delay
    [RETRY_DELAY_BASE * RETRY_DELAY_MULTIPLIER ^ (retryCount - 1)]. *)
Definition itemWithinBudget (item : QueueItem) : Prop :=
  (retryCount item ≤ MAX_RETRIES)%nat.

Definition timerAsArmed (p : Z * QueueItem) : Prop :=
  (1 ≤ retryCount p.2)%nat ∧
  p.1 = RETRY_DELAY_BASE
        * RETRY_DELAY_MULTIPLIER ^ (Z.of_nat (retryCount p.2) - 1).

Definition withinRetryBudget (q : t) : Prop :=
  Forall itemWithinBudget (items q) ∧ Forall timerAsArmed (timers q).

(** Teams accounted for: counted as processed or failed, or still held. *)
Definition load (q : t) : nat :=
  (totalProcessed (stats q) + totalFailed (stats q) + length (items q))%nat.

(** Whether an event admits a new item: an [addTeam] for a team that is
    neither in the pool nor waiting. *)
Definition admits (q : t) (e : event) : nat :=
  match e with
  | EAddTeam _ tid =>
      if decide (tid ∈ processingPool q) then 0%nat
      else if decide (tid ∈ waitingTeams q) then 0%nat else 1%nat
  | _ => 0%nat
  end.

Fixpoint admissions (q : t) (es : list event) : nat :=
  match es with
  | [] => 0%nat
  | e :: es' => (admits q e + admissions (apply q e) es')%nat
  end.

(** The team is in the pool or in the waiting list. *)
Definition present (tid : string) (q : t) : Prop :=
  tid ∈ processingPool q ∨ tid ∈ waitingTeams q.

(** The two counters of [updateStats] agree with the fields they count. *)
Definition statsCurrent (q : t) : Prop :=
  processing (stats q) = size (processingPool q) ∧
  waiting (stats q) = length (waitingQueue q).

End AssignmentQueue.

(** ** src/types/index.ts *)

Module Applicant.
Record t := mk { id : string; name : string }.
End Applicant.

Module Team.
Record t := mk {
  id : string;
  applicants : list Applicant.t;
  isComplete : bool;
  maxMembers : Z
}.
End Team.

Module RoleDefinition.
Record t := mk { id : string; name : string; description : option string }.
End RoleDefinition.

Module ScoreMatrix.
Record t := mk { teamId : string; scores : list (list Z); generatedAt : Z }.
End ScoreMatrix.

Module Assignment.
Record t := mk {
  applicantId : string;
  roleId : string;
  score : Z;
  justification : option string
}.
End Assignment.

Module TeamAssignment.
Record t := mk {
  teamId : string;
  assignments : list Assignment.t;
  totalScore : Z;
  generatedAt : Z;
  justificationsGenerated : bool
}.
End TeamAssignment.

(** What a call on code outside the repository came back with. *)
Inductive outcome (A : Type) :=
  | Returned (a : A)
  | Thrown (message : string).
Arguments Returned {A} a.
Arguments Thrown {A} message.

(** ** The [Assigner] class (second half of SystemInitializer.ts) *)

Module Assigner.

(** The [return { success: false, ... }] sites of [assignRoles], in source
    order; [Caught] is the [catch] at its end. *)
Inductive error :=
  | TeamNotComplete
  | NotEnoughRoles (teamSize rolesCount : Z)
  | BadMatrixShape (teamSize rolesCount : Z)
  | NoValidAssignment
  | InvalidIndices (applicantIndex roleIndex : Z)
  | ApplicantNotFound (applicantIndex : Z)
  | RoleNotFound (roleIndex : Z)
  | ApplicantsNotUnique (teamSize : Z)
  | RolesNotUnique (teamSize : Z)
  | Caught (message : string).

(** [scoreMatrix.scores.map(row => row.map(score => 100 - score))] *)
Definition costMatrix (scores : list (list Z)) : list (list Z) :=
  map (map (λ score, 100 - score)) scores.

(** [m[i][j]] *)
Definition cell (m : list (list Z)) (i j : Z) : option Z :=
  if (i <? 0) || (j <? 0) then None
  else m !! Z.to_nat i ≫= λ row, row !! Z.to_nat j.

Section assignRoles.

(** [munkres-js] is a dependency of the repository, not part of it: the
    function is taken as it is declared, from a cost matrix to the list of
    [row, column] pairs, and may hand back a falsy value or throw. *)
Variable munkres : list (list Z) → outcome (option (list (Z * Z))).

(** The body of [for (const [applicantIndex, roleIndex] of hungarianResult)],
    with [assignments] and [totalScore] as they stand when the pair is
    reached.  The shape check before the loop makes [scores[i][j]] defined
    for every pair that passes the bounds check; the embedding reports a
    missing cell as the [TypeError] a missing row raises. *)
Fixpoint buildAssignments
    (team : Team.t) (roles : list RoleDefinition.t) (scores : list (list Z))
    (hungarianResult : list (Z * Z))
    (assignments : list Assignment.t) (totalScore : Z)
  : error + (list Assignment.t * Z) :=
  let teamSize := Z.of_nat (length (Team.applicants team)) in
  let rolesCount := Z.of_nat (length roles) in
  match hungarianResult with
  | [] => inr (assignments, totalScore)
  | (applicantIndex, roleIndex) :: rest =>
      if (applicantIndex <? 0) || (applicantIndex >=? teamSize)
         || (roleIndex <? 0) || (roleIndex >=? rolesCount)
      then inl (InvalidIndices applicantIndex roleIndex)
      else
        match cell scores applicantIndex roleIndex with
        | None => inl (Caught "TypeError")
        | Some score =>
            match Team.applicants team !! Z.to_nat applicantIndex with
            | None => inl (ApplicantNotFound applicantIndex)
            | Some applicant =>
                match roles !! Z.to_nat roleIndex with
                | None => inl (RoleNotFound roleIndex)
                | Some role =>
                    buildAssignments team roles scores rest
                      (assignments ++
                         [Assignment.mk (Applicant.id applicant)
                            (RoleDefinition.id role) score None])
                      (totalScore + score)
                end
            end
        end
  end.

(** [Assigner.assignRoles]; [now] is the value of [new Date()]. *)
Definition assignRoles
    (now : Z) (team : Team.t) (roles : list RoleDefinition.t)
    (scoreMatrix : ScoreMatrix.t) : error + TeamAssignment.t :=
  if negb (Team.isComplete team) then inl TeamNotComplete
  else
    let teamSize := length (Team.applicants team) in
    let rolesCount := length roles in
    let scores := ScoreMatrix.scores scoreMatrix in
    if (rolesCount <? teamSize)%nat
    then inl (NotEnoughRoles (Z.of_nat teamSize) (Z.of_nat rolesCount))
    else if negb (length scores =? teamSize)%nat
            || negb (forallb (λ row, (length row =? rolesCount)%nat) scores)
    then inl (BadMatrixShape (Z.of_nat teamSize) (Z.of_nat rolesCount))
    else
      match munkres (costMatrix scores) with
      | Thrown message => inl (Caught message)
      | Returned None => inl NoValidAssignment
      | Returned (Some hungarianResult) =>
          if negb (length hungarianResult =? teamSize)%nat
          then inl NoValidAssignment
          else
            match buildAssignments team roles scores hungarianResult [] 0 with
            | inl e => inl e
            | inr (assignments, totalScore) =>
                let assignedApplicants : gset string :=
                  list_to_set (Assignment.applicantId <$> assignments) in
                let assignedRoles : gset string :=
                  list_to_set (Assignment.roleId <$> assignments) in
                if negb (size assignedApplicants =? teamSize)%nat
                then inl (ApplicantsNotUnique (Z.of_nat teamSize))
                else if negb (size assignedRoles =? teamSize)%nat
                then inl (RolesNotUnique (Z.of_nat teamSize))
                else inr (TeamAssignment.mk (Team.id team) assignments
                            totalScore now false)
            end
      end.

End assignRoles.

(** *** What a successful run looks like *)

(** The relation between a pair of the matching and the entry made for it. *)
Definition entryOf (team : Team.t) (roles : list RoleDefinition.t)
    (scores : list (list Z)) (p : Z * Z) (a : Assignment.t) : Prop :=
  0 ≤ p.1 < Z.of_nat (length (Team.applicants team)) ∧
  0 ≤ p.2 < Z.of_nat (length roles) ∧
  ∃ applicant role score,
    Team.applicants team !! Z.to_nat p.1 = Some applicant ∧
    roles !! Z.to_nat p.2 = Some role ∧
    cell scores p.1 p.2 = Some score ∧
    a = Assignment.mk (Applicant.id applicant) (RoleDefinition.id role) score None.

(** The ids a list of pairs picks, [None] where an index finds nothing. *)
Definition pickedApplicants (team : Team.t) (pairs : list (Z * Z)) :=
  (λ p : Z * Z, Applicant.id <$> Team.applicants team !! Z.to_nat p.1) <$> pairs.
Definition pickedRoles (roles : list RoleDefinition.t) (pairs : list (Z * Z)) :=
  (λ p : Z * Z, RoleDefinition.id <$> roles !! Z.to_nat p.2) <$> pairs.

Definition inBounds (team : Team.t) (roles : list RoleDefinition.t) (p : Z * Z) : Prop :=
  0 ≤ p.1 < Z.of_nat (length (Team.applicants team)) ∧
  0 ≤ p.2 < Z.of_nat (length roles).

(** *** One-to-one assignments and their totals *)

(** An assignment of [n] applicants to distinct roles out of [k], as the
    list of the role indices of applicants [0 .. n-1]. *)
Definition isChoice (n k : nat) (σ : list Z) : Prop :=
  length σ = n ∧ NoDup σ ∧ Forall (λ j, 0 ≤ j < Z.of_nat k) σ.

Definition pairsOf (σ : list Z) : list (Z * Z) :=
  zip (seqZ 0 (Z.of_nat (length σ))) σ.

(** The sum of the cells of [m] at the given [row, column] pairs. *)
Definition matchingSum (m : list (list Z)) (pairs : list (Z * Z)) : Z :=
  foldr (λ p acc, default 0 (cell m p.1 p.2) + acc) 0 pairs.


(** *** A reference matcher *)

(** All lists of [n] distinct elements of [cols]. *)
Fixpoint injections (n : nat) (cols : list Z) : list (list Z) :=
  match n with
  | O => [[]]
  | S n' =>
      c ← cols; (λ σ, c :: σ) <$> injections n' (filter (λ x, x ≠ c) cols)
  end.

Fixpoint argmin {A} (f : A → Z) (best : A) (l : list A) : A :=
  match l with
  | [] => best
  | x :: l' => argmin f (if f x <? f best then x else best) l'
  end.

(** Modelled from the spec: the body of [munkres-js], which is not under
    src/.  The spec asks of it a minimum-cost perfect bipartite matching over
    the cost matrix that leaves surplus columns unused; this one finds it by
    trying every assignment of the rows to distinct columns, rows in order. *)
Definition munkres_spec (cost : list (list Z)) : outcome (option (list (Z * Z))) :=
  let n := length cost in
  let k := length (default [] (head cost)) in
  match injections n (seqZ 0 (Z.of_nat k)) with
  | [] => Returned (Some [])
  | σ :: rest =>
      Returned (Some (pairsOf (argmin (λ σ, matchingSum cost (pairsOf σ)) σ rest)))
  end.

(** *** [validateAssignment] *)

(** The messages it can push, in the order of the checks. *)
Inductive issue :=
  | TeamIdMismatch
  | WrongAssignmentCount (expected got : nat)
  | DuplicateApplicants
  | DuplicateRoles
  | UnknownApplicant (applicantId : string)
  | UnknownRole (roleId : string)
  | ScoreOutOfRange (score : Z) (applicantId roleId : string).

(** [team.applicants.find(a => a.id === applicantId)] and
    [roles.find(r => r.id === roleId)] *)
Definition findApplicant (team : Team.t) (applicantId : string) : option Applicant.t :=
  snd <$> list_find (λ a, Applicant.id a = applicantId) (Team.applicants team).

Definition findRole (roles : list RoleDefinition.t) (roleId : string)
  : option RoleDefinition.t :=
  snd <$> list_find (λ r, RoleDefinition.id r = roleId) roles.

(** [validateAssignment]: [valid] and [errors]. *)
Definition validateAssignment (team : Team.t) (roles : list RoleDefinition.t)
    (assignment : TeamAssignment.t) : bool * list issue :=
  let entries := TeamAssignment.assignments assignment in
  let teamIdErrors :=
    if negb (String.eqb (TeamAssignment.teamId assignment) (Team.id team))
    then [TeamIdMismatch] else [] in
  let expectedAssignments := length (Team.applicants team) in
  let countErrors :=
    if negb (length entries =? expectedAssignments)%nat
    then [WrongAssignmentCount expectedAssignments (length entries)] else [] in
  let assignedApplicants := Assignment.applicantId <$> entries in
  let uniqueApplicants : gset string := list_to_set assignedApplicants in
  let applicantErrors :=
    if negb (size uniqueApplicants =? length assignedApplicants)%nat
    then [DuplicateApplicants] else [] in
  let assignedRoles := Assignment.roleId <$> entries in
  let uniqueRoles : gset string := list_to_set assignedRoles in
  let roleErrors :=
    if negb (size uniqueRoles =? length assignedRoles)%nat
    then [DuplicateRoles] else [] in
  let unknownApplicants :=
    assign ← entries;
    if findApplicant team (Assignment.applicantId assign) is Some _ then []
    else [UnknownApplicant (Assignment.applicantId assign)] in
  let unknownRoles :=
    assign ← entries;
    if findRole roles (Assignment.roleId assign) is Some _ then []
    else [UnknownRole (Assignment.roleId assign)] in
  let scoreErrors :=
    assign ← entries;
    if (Assignment.score assign <? 0) || (Assignment.score assign >? 100)
    then [ScoreOutOfRange (Assignment.score assign) (Assignment.applicantId assign)
                          (Assignment.roleId assign)]
    else [] in
  let errors :=
    teamIdErrors ++ countErrors ++ applicantErrors ++ roleErrors
    ++ unknownApplicants ++ unknownRoles ++ scoreErrors in
  ((length errors =? 0)%nat, errors).

(** *** [getAssignmentDetails] *)

(** An [AssignmentDetail]: the applicant and the role found, with the fields
    of them the embedding keeps. *)
Record AssignmentDetail := mkDetail {
  applicant : Applicant.t;
  role : RoleDefinition.t;
  score : Z;
  justification : option string
}.

Inductive detailsError :=
  | NoAssignmentData
  | ApplicantIdNotFound (applicantId : string)
  | RoleIdNotFound (roleId : string).

(** [for (const assign of assignment.assignments)] *)
Fixpoint collectDetails (team : Team.t) (roles : list RoleDefinition.t)
    (assignments : list Assignment.t) : detailsError + list AssignmentDetail :=
  match assignments with
  | [] => inr []
  | assign :: rest =>
      match findApplicant team (Assignment.applicantId assign) with
      | None => inl (ApplicantIdNotFound (Assignment.applicantId assign))
      | Some applicant =>
          match findRole roles (Assignment.roleId assign) with
          | None => inl (RoleIdNotFound (Assignment.roleId assign))
          | Some role =>
              match collectDetails team roles rest with
              | inl e => inl e
              | inr details =>
                  inr (mkDetail applicant role (Assignment.score assign)
                                (Assignment.justification assign) :: details)
              end
          end
      end
  end.

(** [getAssignmentDetails]; the assignment is [None] when the caller has
    none to show. *)
Definition getAssignmentDetails (team : Team.t) (roles : list RoleDefinition.t)
    (assignment : option TeamAssignment.t) : detailsError + list AssignmentDetail :=
  match assignment with
  | None => inl NoAssignmentData
  | Some assignment =>
      collectDetails team roles (TeamAssignment.assignments assignment)
  end.

End Assigner.

(** ** JavaScript values and strings *)

Module JS.

(** What [JSON.parse] builds. *)
Inductive json :=
  | JNull
  | JBool (b : bool)
  | JNum (n : Z)
  | JStr (s : string)
  | JArr (items : list json)
  | JObj (fields : list (string * json)).

(** [v[key]] on a parsed value: [Thrown] on [null], [undefined] ([None]) when
    the value has no such property; of a key that [JSON.parse] met twice, the
    last occurrence stands. *)
Fixpoint lookupLast (key : string) (fields : list (string * json)) : option json :=
  match fields with
  | [] => None
  | (k, v) :: rest =>
      match lookupLast key rest with
      | Some v' => Some v'
      | None => if String.eqb k key then Some v else None
      end
  end.

Definition getProp (v : json) (key : string) : outcome (option json) :=
  match v with
  | JNull => Thrown "TypeError: Cannot read properties of null"
  | JObj fields => Returned (lookupLast key fields)
  | _ => Returned None
  end.

(** [!!v] *)
Definition truthy (v : option json) : bool :=
  match v with
  | None | Some JNull => false
  | Some (JBool b) => b
  | Some (JNum n) => negb (n =? 0)
  | Some (JStr s) => negb (String.eqb s "")
  | Some (JArr _) | Some (JObj _) => true
  end.

(** [Object.keys(v).length] *)
Definition keyCount (v : json) : nat :=
  match v with
  | JStr s => String.length s
  | JArr items => length items
  | JObj fields => length (remove_dups fields.*1)
  | _ => 0%nat
  end.

Definition lowerChar (c : ascii) : ascii :=
  let n := Ascii.nat_of_ascii c in
  if (65 <=? n)%nat && (n <=? 90)%nat then Ascii.ascii_of_nat (n + 32) else c.

(** [s.toLowerCase()], on the letters A to Z. *)
Fixpoint toLowerCase (s : string) : string :=
  match s with
  | EmptyString => EmptyString
  | String c s' => String (lowerChar c) (toLowerCase s')
  end.

(** [s.includes(sub)] *)
Fixpoint includes (s sub : string) : bool :=
  String.prefix sub s ||
  match s with
  | EmptyString => false
  | String _ s' => includes s' sub
  end.

Fixpoint trimStart (s : string) : string :=
  match s with
  | EmptyString => EmptyString
  | String c s' => if Ascii.is_space c then trimStart s' else s
  end.

(** [s.trim()], for the white space of ASCII. *)
Definition trim (s : string) : string :=
  String.rev (trimStart (String.rev (trimStart s))).

Fixpoint hasChar (c : ascii) (s : string) : bool :=
  match s with
  | EmptyString => false
  | String c' s' => Ascii.eqb c' c || hasChar c s'
  end.

(** [content.match(/\[[\s\S]*\]/)]: the match starts at the first opening
    bracket and, the star being greedy, runs to the last closing bracket of
    the text. *)
Fixpoint fromFirstOpen (s : string) : option string :=
  match s with
  | EmptyString => None
  | String c s' => if Ascii.eqb c "["%char then Some s else fromFirstOpen s'
  end.

Fixpoint throughLastClose (s : string) : option string :=
  match s with
  | EmptyString => None
  | String c s' =>
      match throughLastClose s' with
      | Some r => Some (String c r)
      | None => if Ascii.eqb c "]"%char then Some (String c EmptyString) else None
      end
  end.

Definition matchJsonArray (content : string) : option string :=
  fromFirstOpen content ≫= throughLastClose.

(** For comparison, the spec's words: the first bracket-delimited array of
    the text, from the first opening bracket to the bracket that closes it. *)
Fixpoint throughMatchingClose (depth : nat) (s : string) : option string :=
  match s with
  | EmptyString => None
  | String c s' =>
      if Ascii.eqb c "["%char then String c <$> throughMatchingClose (S depth) s'
      else if Ascii.eqb c "]"%char then
        match depth with
        | O => None
        | S O => Some (String c EmptyString)
        | S d => String c <$> throughMatchingClose d s'
        end
      else String c <$> throughMatchingClose depth s'
  end.

Definition firstBracketDelimited (content : string) : option string :=
  fromFirstOpen content ≫= throughMatchingClose 0.

(** [l.slice(start, stop)]: a negative index counts from the end, and both
    are cut to the bounds of the array. *)
Definition slice {A} (start stop : Z) (l : list A) : list A :=
  let len := Z.of_nat (length l) in
  let k := if start <? 0 then Z.max (len + start) 0 else Z.min start len in
  let final := if stop <? 0 then Z.max (len + stop) 0 else Z.min stop len in
  take (Z.to_nat (final - k)) (drop (Z.to_nat k) l).

End JS.

(** ** The language-model service, as the two callers meet it *)

Module Llm.

(** What one request came to: [fetch] (or reading the body) rejected,
    [response.ok] was false, or the body was read and
    [data.choices[0]?.message?.content] is [content]. *)
Inductive response :=
  | FetchRejects (message : string)
  | NotOk (status : Z) (errorText : string)
  | Ok (content : option string).

(** The requests made and the delays slept so far. *)
Record world := mkWorld { requests : nat; slept : list Z }.

Definition start : world := mkWorld 0 [].

(** [isRetryableError] of scorer.ts and of JustifierRunner, on the message
    of the error. *)
Definition isRetryableMessage (message : string) : bool :=
  let errorMessage := JS.toLowerCase message in
  let isNetworkError :=
    JS.includes errorMessage "network" || JS.includes errorMessage "timeout"
    || JS.includes errorMessage "fetch" in
  let isRateLimited :=
    JS.includes errorMessage "rate limit" || JS.includes errorMessage "429"
    || JS.includes errorMessage "too many requests" in
  let isServerError :=
    JS.includes errorMessage "500" || JS.includes errorMessage "502"
    || JS.includes errorMessage "503" || JS.includes errorMessage "504" in
  isNetworkError || isRateLimited || isServerError.

End Llm.

(** ** src/lib/services/scorer.ts *)

Module Scorer.
Import JS.

Definition MAX_RETRIES : nat := 3.
Definition RETRY_DELAY : Z := 1000.

(** The [throw new Error(...)] sites of [generateScoreMatrixWithRetry];
    [Rejected] is an exception of [fetch] or of reading the body. *)
Inductive thrown :=
  | Rejected (message : string)
  | ApiError (status : Z) (errorText : string)
  | NoContent
  | ParseFailed (parseError : string)
  | MatrixShape (teamSize rolesCount : nat)
  | RowShape (i rolesCount : nat)
  | InvalidScore (i j : nat).

Definition message (e : thrown) : string :=
  match e with
  | Rejected m => m
  | ApiError status errorText =>
      "OpenAI API error: " +:+ pretty status +:+ " - " +:+ errorText
  | NoContent => "LLM無回應內容"
  | ParseFailed parseError => "解析LLM回應失敗：" +:+ parseError
  | MatrixShape n k =>
      "Score matrix must be " +:+ pretty n +:+ "x" +:+ pretty k +:+ " ("
        +:+ pretty n +:+ " applicants x " +:+ pretty k +:+ " roles)"
  | RowShape i k =>
      "Row " +:+ pretty i +:+ " must have exactly " +:+ pretty k
        +:+ " scores (one for each role)"
  | InvalidScore i j =>
      "Invalid score at [" +:+ pretty i +:+ "][" +:+ pretty j
        +:+ "]: must be number between 0-100"
  end.

Definition isRetryableError (e : thrown) : bool :=
  Llm.isRetryableMessage (message e).

(** The [{ success: false, error }] results. *)
Inductive failure :=
  | TeamNotComplete
  | NotEnoughRoles (teamSize rolesCount : nat)
  | FailedAfter (retryCount : nat) (e : thrown).

(** The inner loop over [j]: [typeof score !== 'number' || score < 0 ||
    score > 100]. *)
Fixpoint validateCells (i j : nat) (cells : list json) : thrown + list Z :=
  match cells with
  | [] => inr []
  | JNum score :: rest =>
      if (score <? 0) || (score >? 100) then inl (InvalidScore i j)
      else match validateCells i (S j) rest with
           | inl e => inl e
           | inr row => inr (score :: row)
           end
  | _ :: _ => inl (InvalidScore i j)
  end.

(** The outer loop over [i]: [!Array.isArray(parsedScores[i]) ||
    parsedScores[i].length !== rolesCount], then the cells of the row. *)
Fixpoint validateRows (rolesCount i : nat) (rows : list json) : thrown + list (list Z) :=
  match rows with
  | [] => inr []
  | JArr cells :: rest =>
      if negb (length cells =? rolesCount)%nat then inl (RowShape i rolesCount)
      else match validateCells i 0 cells with
           | inl e => inl e
           | inr row =>
               match validateRows rolesCount (S i) rest with
               | inl e => inl e
               | inr m => inr (row :: m)
               end
           end
  | _ :: _ => inl (RowShape i rolesCount)
  end.

(** "Validate the matrix dimensions and values" *)
Definition validate (teamSize rolesCount : nat) (parsedScores : json)
  : thrown + list (list Z) :=
  match parsedScores with
  | JArr rows =>
      if negb (length rows =? teamSize)%nat then inl (MatrixShape teamSize rolesCount)
      else validateRows rolesCount 0 rows
  | _ => inl (MatrixShape teamSize rolesCount)
  end.

Section generateScoreMatrix.

(** [JSON.parse]; [Thrown] carries the text of the [SyntaxError]. *)
Variable JSON_parse : string → outcome json.
(** The response to the request numbered [n]. *)
Variable llm : nat → Llm.response.

(** The [try] block of [generateScoreMatrixWithRetry]: it returns a result,
    or throws. *)
Definition attempt (now : Z) (team : Team.t) (roles : list RoleDefinition.t)
    (w : Llm.world) : (thrown + (failure + ScoreMatrix.t)) * Llm.world :=
  if negb (Team.isComplete team) then (inr (inl TeamNotComplete), w)
  else
    let teamSize := length (Team.applicants team) in
    let rolesCount := length roles in
    if (rolesCount <? teamSize)%nat
    then (inr (inl (NotEnoughRoles teamSize rolesCount)), w)
    else
      let w' := Llm.mkWorld (S (Llm.requests w)) (Llm.slept w) in
      match llm (Llm.requests w) with
      | Llm.FetchRejects m => (inl (Rejected m), w')
      | Llm.NotOk status errorText => (inl (ApiError status errorText), w')
      | Llm.Ok content =>
          if negb (truthy (JStr <$> content)) then (inl NoContent, w')
          else
            match matchJsonArray (default "" content) with
            | None => (inl (ParseFailed "Error: 回應中找不到JSON陣列"), w')
            | Some jsonMatch =>
                match JSON_parse jsonMatch with
                | Thrown parseError => (inl (ParseFailed parseError), w')
                | Returned parsedScores =>
                    match validate teamSize rolesCount parsedScores with
                    | inl e => (inl e, w')
                    | inr scores =>
                        (inr (inr (ScoreMatrix.mk (Team.id team) scores now)), w')
                    end
                end
            end
      end.

(** [generateScoreMatrixWithRetry], by recursion on the retries left:
    [retryCount < MAX_RETRIES] holds exactly when
    [MAX_RETRIES - retryCount] is not zero. *)
Fixpoint withRetries (left : nat) (now : Z) (team : Team.t)
    (roles : list RoleDefinition.t) (retryCount : nat) (w : Llm.world)
  : (failure + ScoreMatrix.t) * Llm.world :=
  match attempt now team roles w with
  | (inr result, w') => (result, w')
  | (inl e, w') =>
      if isRetryableError e then
        match left with
        | S left' =>
            let delay := RETRY_DELAY * 2 ^ Z.of_nat retryCount in
            withRetries left' now team roles (S retryCount)
              (Llm.mkWorld (Llm.requests w') (Llm.slept w' ++ [delay]))
        | O => (inl (FailedAfter retryCount e), w')
        end
      else (inl (FailedAfter retryCount e), w')
  end.

Definition generateScoreMatrixWithRetry
    (now : Z) (team : Team.t) (roles : list RoleDefinition.t)
    (retryCount : nat) (w : Llm.world) : (failure + ScoreMatrix.t) * Llm.world :=
  withRetries (MAX_RETRIES - retryCount) now team roles retryCount w.

Definition generateScoreMatrix
    (now : Z) (team : Team.t) (roles : list RoleDefinition.t) (w : Llm.world)
  : (failure + ScoreMatrix.t) * Llm.world :=
  generateScoreMatrixWithRetry now team roles 0 w.

End generateScoreMatrix.

(** A matrix as [JSON.parse] gives it. *)
Definition matrixJson (m : list (list Z)) : json :=
  JArr ((λ row, JArr (JNum <$> row)) <$> m).

(** No error that [validate] can report for sizes below [bound] is
    classified as retryable. *)
Definition quietBelow (bound : nat) : bool :=
  forallb (λ i, forallb (λ j,
             negb (isRetryableError (MatrixShape i j))
             && negb (isRetryableError (RowShape i j))
             && negb (isRetryableError (InvalidScore i j)))
           (seq 0 bound)) (seq 0 bound).

(** The errors [validate] reports. *)
Definition validationError (teamSize rolesCount : nat) (e : thrown) : Prop :=
  e = MatrixShape teamSize rolesCount
  ∨ (∃ i, (i < teamSize)%nat ∧ e = RowShape i rolesCount)
  ∨ (∃ i j, (i < teamSize)%nat ∧ (j < rolesCount)%nat ∧ e = InvalidScore i j).

Definition validMatrix (teamSize rolesCount : nat) (m : list (list Z)) : Prop :=
  length m = teamSize ∧ Forall (λ row, length row = rolesCount) m ∧
  Forall (Forall (λ score, 0 ≤ score ≤ 100)) m.

(** [validateScoreMatrix], the public type guard. *)
Definition validateScoreMatrix (scores : json) (expectedRows expectedCols : nat)
  : bool :=
  match scores with
  | JArr rows =>
      if negb (length rows =? expectedRows)%nat then false
      else
        forallb (λ row,
                   match row with
                   | JArr cells =>
                       (length cells =? expectedCols)%nat
                       && forallb (λ score,
                                     match score with
                                     | JNum n => (0 <=? n) && (n <=? 100)
                                     | _ => false
                                     end) cells
                   | _ => false
                   end) rows
  | _ => false
  end.

(** The loop of [createBatches], [i] being its counter.  With a batch size
    below 1 the counter never gets past the length and the loop does not
    end: [None] stands for that.  Otherwise the body runs at most
    [length items] times, which is the [fuel] the loop is given. *)
Fixpoint batchesFrom {A} (fuel : nat) (items : list A) (batchSize i : Z)
  : option (list (list A)) :=
  if i <? Z.of_nat (length items) then
    match fuel with
    | O => None
    | S fuel' =>
        cons (slice i (i + batchSize) items)
          <$> batchesFrom fuel' items batchSize (i + batchSize)
    end
  else Some [].

(** [createBatches] *)
Definition createBatches {A} (items : list A) (batchSize : Z)
  : option (list (list A)) :=
  batchesFrom (length items) items batchSize 0.

(** The delays slept before the retries numbered [retryCount],
    [retryCount + 1], ... *)
Definition backoff (retryCount k : nat) : list Z :=
  (λ j : nat, RETRY_DELAY * 2 ^ Z.of_nat (retryCount + j)) <$> seq 0 k.

End Scorer.

(** ** src/lib/services/JustifierService.ts *)

Module JustifierService.
Import JS.

(** The [throw] sites of [generateJustifications] and of
    [buildJustificationPrompt]; [Rejected] is an exception of [fetch], of
    reading the body, or a [TypeError] on a [null] entry. *)
Inductive thrown :=
  | Rejected (message : string)
  | CountMismatch (expected got : nat)
  | InvalidAssignment
  | ApiError (status : Z) (errorText : string)
  | NoContent
  | ParseFailed (parseError : string)
  | WrongCount (expected got : nat)
  | InvalidFormat
  | TooLong
  | NoJustification (applicantId : string).

Definition message (e : thrown) : string :=
  match e with
  | Rejected m => m
  | CountMismatch expected got =>
      "Assignment must have exactly " +:+ pretty expected
        +:+ " assignments (got " +:+ pretty got +:+ ")"
  | InvalidAssignment => "無效的分配：找不到申請者或角色"
  | ApiError status errorText =>
      "OpenAI API error: " +:+ pretty status +:+ " - " +:+ errorText
  | NoContent => "LLM無回應內容"
  | ParseFailed parseError => "解析LLM回應失敗：" +:+ parseError
  | WrongCount expected got =>
      "Must have exactly " +:+ pretty expected +:+ " justifications (got "
        +:+ pretty got +:+ ")"
  | InvalidFormat => "無效的理由格式：缺少申請者ID或理由"
  | TooLong => "理由必須是少於500字元的字串"
  | NoJustification applicantId =>
      "No justification found for applicant " +:+ applicantId
  end.

(** The [{ success: false, error }] results: of the service
    ("理由生成失敗：" and the message) and of the retry wrapper
    ("理由生成在 n 次重試後失敗：" and the message). *)
Inductive failure :=
  | Failed (e : thrown)
  | FailedAfter (retryCount : nat) (e : thrown).

Definition errorText (f : failure) : string :=
  match f with
  | Failed e => "理由生成失敗：" +:+ message e
  | FailedAfter retryCount e =>
      "理由生成在 " +:+ pretty retryCount +:+ " 次重試後失敗：" +:+ message e
  end.

Definition findApplicant (team : Team.t) (applicantId : string) : option Applicant.t :=
  list_find (λ a, Applicant.id a = applicantId) (Team.applicants team) ≫= λ r, Some r.2.

Definition findRole (roles : list RoleDefinition.t) (roleId : string)
  : option RoleDefinition.t :=
  list_find (λ r, RoleDefinition.id r = roleId) roles ≫= λ r, Some r.2.

(** Whether [buildJustificationPrompt] gets through: the text of the
    prompt goes to the model and is not looked at again. *)
Definition promptBuilds (team : Team.t) (roles : list RoleDefinition.t)
    (assignment : TeamAssignment.t) : bool :=
  forallb (λ assign,
             bool_decide (is_Some (findApplicant team (Assignment.applicantId assign)))
             && bool_decide (is_Some (findRole roles (Assignment.roleId assign))))
          (TeamAssignment.assignments assignment).

(** "Build name to ID mapping" *)
Definition nameToIdMap (team : Team.t) (assignment : TeamAssignment.t)
  : gmap string string :=
  foldl (λ m assign,
           match findApplicant team (Assignment.applicantId assign) with
           | Some applicant =>
               <[Applicant.name applicant := Assignment.applicantId assign]> m
           | None => m
           end)
        ∅ (TeamAssignment.assignments assignment).

(** "Try to match by UUID first, then by name": the key under which the
    justification is stored.  A key that is not a string matches the id of no
    applicant and is [None] here. *)
Definition actualApplicantId (assignment : TeamAssignment.t)
    (names : gmap string string) (applicantId : option json) : option string :=
  match applicantId with
  | Some (JStr s) =>
      if existsb (λ a, String.eqb (Assignment.applicantId a) s)
                 (TeamAssignment.assignments assignment)
      then Some s
      else match names !! s with
           | Some idFromName => if String.eqb idFromName "" then Some s else Some idFromName
           | None => Some s
           end
  | _ => None
  end.

(** [for (const justification of parsedJustifications)] *)
Fixpoint collect (assignment : TeamAssignment.t) (names : gmap string string)
    (parsedJustifications : list json) (justificationMap : gmap string string)
  : thrown + gmap string string :=
  match parsedJustifications with
  | [] => inr justificationMap
  | justification :: rest =>
      match getProp justification "applicantId",
            getProp justification "justification" with
      | Thrown m, _ | _, Thrown m => inl (Rejected m)
      | Returned applicantId, Returned text =>
          if negb (truthy applicantId) || negb (truthy text) then inl InvalidFormat
          else
            match text with
            | Some (JStr text) =>
                if (500 <? String.length text)%nat then inl TooLong
                else
                  collect assignment names rest
                    match actualApplicantId assignment names applicantId with
                    | Some key => <[key := trim text]> justificationMap
                    | None => justificationMap
                    end
            | _ => inl TooLong
            end
      end
  end.

(** [assignment.assignments.map(assign => ...)] of "Update assignments with
    justifications" *)
Fixpoint updateAssignments (justificationMap : gmap string string)
    (assignments : list Assignment.t) : thrown + list Assignment.t :=
  match assignments with
  | [] => inr []
  | assign :: rest =>
      match justificationMap !! Assignment.applicantId assign with
      | Some justification =>
          if String.eqb justification ""
          then inl (NoJustification (Assignment.applicantId assign))
          else match updateAssignments justificationMap rest with
               | inl e => inl e
               | inr rest' =>
                   inr (Assignment.mk (Assignment.applicantId assign)
                          (Assignment.roleId assign) (Assignment.score assign)
                          (Some justification) :: rest')
               end
      | None => inl (NoJustification (Assignment.applicantId assign))
      end
  end.

(** [parsedJustifications?.length || 0] *)
Definition lengthOf (v : json) : nat :=
  match v with
  | JArr items => length items
  | JStr s => String.length s
  | _ => 0%nat
  end.

(** An entry of the response whose justification is a string of at most 500
    characters. *)
Definition shortText (entry : json) : Prop :=
  ∃ text, getProp entry "justification" = Returned (Some (JStr text))
          ∧ (String.length text ≤ 500)%nat.

(** An entry of the updated assignment: the entry it comes from, with the
    non-empty justification stored under its applicant id. *)
Definition justifiedFrom (m : gmap string string) (a a' : Assignment.t) : Prop :=
  ∃ text, m !! Assignment.applicantId a = Some text ∧ text ≠ "" ∧
          a' = Assignment.mk (Assignment.applicantId a) (Assignment.roleId a)
                 (Assignment.score a) (Some text).

Section generateJustifications.

Variable JSON_parse : string → outcome json.
Variable llm : nat → Llm.response.

(** The [try] block of [generateJustifications]. *)
Definition attempt (team : Team.t) (roles : list RoleDefinition.t)
    (assignment : TeamAssignment.t) (w : Llm.world)
  : (thrown + TeamAssignment.t) * Llm.world :=
  let teamSize := length (TeamAssignment.assignments assignment) in
  if negb (teamSize =? length (Team.applicants team))%nat
  then (inl (CountMismatch (length (Team.applicants team)) teamSize), w)
  else if negb (promptBuilds team roles assignment) then (inl InvalidAssignment, w)
  else
    let w' := Llm.mkWorld (S (Llm.requests w)) (Llm.slept w) in
    match llm (Llm.requests w) with
    | Llm.FetchRejects m => (inl (Rejected m), w')
    | Llm.NotOk status errorText => (inl (ApiError status errorText), w')
    | Llm.Ok content =>
        if negb (truthy (JStr <$> content)) then (inl NoContent, w')
        else
          match matchJsonArray (default "" content) with
          | None => (inl (ParseFailed "Error: 回應中找不到JSON陣列"), w')
          | Some jsonMatch =>
              match JSON_parse jsonMatch with
              | Thrown parseError => (inl (ParseFailed parseError), w')
              | Returned parsedJustifications =>
                  let expectedCount := teamSize in
                  match parsedJustifications with
                  | JArr entries =>
                      if negb (length entries =? expectedCount)%nat
                      then (inl (WrongCount expectedCount (length entries)), w')
                      else
                        match collect assignment (nameToIdMap team assignment)
                                      entries ∅ with
                        | inl e => (inl e, w')
                        | inr justificationMap =>
                            match updateAssignments justificationMap
                                    (TeamAssignment.assignments assignment) with
                            | inl e => (inl e, w')
                            | inr updatedAssignments =>
                                (inr (TeamAssignment.mk
                                        (TeamAssignment.teamId assignment)
                                        updatedAssignments
                                        (TeamAssignment.totalScore assignment)
                                        (TeamAssignment.generatedAt assignment)
                                        true), w')
                            end
                        end
                  | other =>
                      (inl (WrongCount expectedCount (lengthOf other)), w')
                  end
              end
          end
    end.

(** [generateJustifications]: the [catch] at its end turns whatever the
    block threw into a result.  The sum on the left is what reaches a caller
    that awaits the promise inside a [try]. *)
Definition generateJustifications (team : Team.t) (roles : list RoleDefinition.t)
    (assignment : TeamAssignment.t) (w : Llm.world)
  : (thrown + (failure + TeamAssignment.t)) * Llm.world :=
  match attempt team roles assignment w with
  | (inl e, w') => (inr (inl (Failed e)), w')
  | (inr updatedAssignment, w') => (inr (inr updatedAssignment), w')
  end.

End generateJustifications.

(** *** [generateSingleJustification] *)




Section generateSingleJustification.

Variable llm : nat → Llm.response.



End generateSingleJustification.

(** *** The two synchronous helpers *)

(** [validateJustifications], the public type guard. *)
Definition validateJustifications (justifications : json) : bool :=
  match justifications with
  | JArr entries =>
      forallb (λ item,
                 match item with
                 | JObj fields =>
                     match lookupLast "applicantId" fields,
                           lookupLast "justification" fields with
                     | Some (JStr _), Some (JStr text) =>
                         (String.length text <=? 500)%nat
                     | _, _ => false
                     end
                 | _ => false
                 end) entries
  | _ => false
  end.




(** An entry of a response as the collection loop of
    [generateJustifications] needs it: an object with a truthy [applicantId]
    and a non-empty string of at most 500 characters as [justification]. *)
Definition collectable (entry : json) : Prop :=
  ∃ fields applicantId text,
    entry = JObj fields ∧
    lookupLast "applicantId" fields = Some applicantId ∧
    truthy (Some applicantId) = true ∧
    lookupLast "justification" fields = Some (JStr text) ∧
    text ≠ "" ∧ (String.length text ≤ 500)%nat.

(** An entry that passes [validateJustifications]. *)
Definition wellTyped (entry : json) : Prop :=
  ∃ fields applicantId text,
    entry = JObj fields ∧
    lookupLast "applicantId" fields = Some (JStr applicantId) ∧
    lookupLast "justification" fields = Some (JStr text) ∧
    (String.length text ≤ 500)%nat.

End JustifierService.

(** ** [JustifierRunner] (src/unnamed/part_008) *)

Module JustifierRunner.
Import JustifierService.

Definition MAX_RETRIES : nat := 3.
Definition RETRY_DELAY : Z := 1000.

Definition isRetryableError (e : thrown) : bool :=
  Llm.isRetryableMessage (message e).

Section generateJustificationsWithRetry.

Variable JSON_parse : string → outcome JS.json.
Variable llm : nat → Llm.response.

(** [generateJustificationsWithRetry], by recursion on the retries left as
    in the scorer: the [catch] retries what
    [JustifierService.generateJustifications] throws. *)
Fixpoint withRetries (left : nat) (team : Team.t) (roles : list RoleDefinition.t)
    (assignment : TeamAssignment.t) (retryCount : nat) (w : Llm.world)
  : (failure + TeamAssignment.t) * Llm.world :=
  match generateJustifications JSON_parse llm team roles assignment w with
  | (inr result, w') => (result, w')
  | (inl e, w') =>
      if isRetryableError e then
        match left with
        | S left' =>
            let delay := RETRY_DELAY * 2 ^ Z.of_nat retryCount in
            withRetries left' team roles assignment (S retryCount)
              (Llm.mkWorld (Llm.requests w') (Llm.slept w' ++ [delay]))
        | O => (inl (FailedAfter retryCount e), w')
        end
      else (inl (FailedAfter retryCount e), w')
  end.

Definition generateJustificationsWithRetry
    (team : Team.t) (roles : list RoleDefinition.t)
    (assignment : TeamAssignment.t) (retryCount : nat) (w : Llm.world)
  : (failure + TeamAssignment.t) * Llm.world :=
  withRetries (MAX_RETRIES - retryCount) team roles assignment retryCount w.

End generateJustificationsWithRetry.


Section generateSingleJustificationWithRetry.

Variable llm : nat → Llm.response.



End generateSingleJustificationWithRetry.

(** [createBatches] of [JustifierRunner] is the text of the scorer's. *)
Definition createBatches {A} (items : list A) (batchSize : Z)
  : option (list (list A)) :=
  Scorer.createBatches items batchSize.

End JustifierRunner.

(** ** The session store ([AssignmentSessionManager] in
       src/lib/managers/ApplicantManager.ts), seen from its callers *)

Module Store.

Inductive status := pending | scoring | assigning | justifying | complete.

Definition statusName (s : status) : string :=
  match s with
  | pending => "pending"
  | scoring => "scoring"
  | assigning => "assigning"
  | justifying => "justifying"
  | complete => "complete"
  end.

Record AssignmentSession := mkSession {
  id : string;
  teamId : string;
  roles : list RoleDefinition.t;
  scoreMatrix : option ScoreMatrix.t;
  assignment : option TeamAssignment.t;
  sessionStatus : status;
  createdAt : Z
}.

(** The calls the pipeline makes on its collaborators, in the order it
    makes them.  None of the manager's methods throws: each catches what the
    database client raises and answers with a failure, which
    [updateSessionStatus]'s callers do not look at. *)
Inductive call :=
  | UpdateSessionStatus (sessionId : string) (s : status)
  | SaveAssignmentData (sessionId : string) (assignment : TeamAssignment.t)
                       (scoreMatrix : option ScoreMatrix.t)
  | GenerateScoreMatrix (teamId : string)
  | AssignRoles (teamId : string)
  | GenerateJustificationsBackground (sessionId : string)
  | AddTeam (teamId : string).

(** The rows of [assignment_sessions], by id, and what a call that reaches
    the database does to them. *)
Definition applyCall (rows : gmap string AssignmentSession) (c : call)
  : gmap string AssignmentSession :=
  match c with
  | UpdateSessionStatus sid s =>
      match rows !! sid with
      | Some r =>
          <[sid := mkSession (id r) (teamId r) (roles r) (scoreMatrix r)
                     (assignment r) s (createdAt r)]> rows
      | None => rows
      end
  | SaveAssignmentData sid a sm =>
      match rows !! sid with
      | Some r =>
          <[sid := mkSession (id r) (teamId r) (roles r)
                     (if sm is Some _ then sm else scoreMatrix r)
                     (Some a) (sessionStatus r) (createdAt r)]> rows
      | None => rows
      end
  | _ => rows
  end.

Definition applyCalls (rows : gmap string AssignmentSession) (cs : list call)
  : gmap string AssignmentSession :=
  foldl applyCall rows cs.

Definition statusOf (rows : gmap string AssignmentSession) (sid : string)
  : option status :=
  sessionStatus <$> rows !! sid.

(** The last status a list of calls asks for a session. *)
Definition lastStatus (sid : string) (cs : list call) : option status :=
  foldl (λ acc c,
           match c with
           | UpdateSessionStatus sid' s => if String.eqb sid' sid then Some s else acc
           | _ => acc
           end) None cs.

(** The sessions a list of calls starts the background justification
    for. *)
Definition backgroundStarts (cs : list call) : list string :=
  omap (λ c, match c with
             | GenerateJustificationsBackground sid => Some sid
             | _ => None
             end) cs.

(** The teams a list of calls hands to the queue. *)
Definition queuedTeams (cs : list call) : list string :=
  omap (λ c, match c with
             | AddTeam teamId => Some teamId
             | _ => None
             end) cs.

(** The status updates among a list of calls, in order. *)
Definition statusUpdates (cs : list call) : list (string * status) :=
  omap (λ c, match c with
             | UpdateSessionStatus sid s => Some (sid, s)
             | _ => None
             end) cs.

End Store.

(** ** src/lib/services/AssignmentProcessor.ts *)

Module AssignmentProcessor.
Import Store.

(** What the collaborators answer during one run of
    [processTeamAssignment]. *)
Record answers := mkAnswers {
  OPENAI_API_KEY : option string;
  getTeam : option Team.t;
  getAssignmentForTeam : option AssignmentSession;
  createAssignmentSession : string + AssignmentSession;
  importsResolve : bool;
  saveAssignmentData : bool
}.

(** The [{ success: false, error }] results, by the place they come from. *)
Inductive failure :=
  | NoApiKey
  | TeamNotFound
  | TeamNotComplete
  | CreateSessionFailed (error : string)
  | ScoringFailed (e : Scorer.failure)
  | AssignmentFailed (e : Assigner.error)
  | SaveFailed
  | InternalError.

Record data := mkData {
  sessionId : string;
  assignment : TeamAssignment.t;
  justificationsPending : bool
}.

Definition JUSTIFICATION_TIMEOUT : Z := 120000.

(** The run gets as far as the scoring stage, for [team] and [session]. *)
Definition reachesScoring (a : answers) (team : Team.t) (session : AssignmentSession)
  : Prop :=
  JS.truthy (JS.JStr <$> OPENAI_API_KEY a) = true ∧
  getTeam a = Some team ∧ Team.isComplete team = true ∧
  (getAssignmentForTeam a = Some session
   ∨ getAssignmentForTeam a = None ∧ createAssignmentSession a = inr session) ∧
  importsResolve a = true.

Section pipeline.

Variable JSON_parse : string → outcome JS.json.
Variable llm : nat → Llm.response.
Variable munkres : list (list Z) → outcome (option (list (Z * Z))).

(** [processTeamAssignment]: the calls made, the result and the state of the
    model service afterwards.  The handler of the inner [try] is not in
    the embedding: nothing in the block throws, the scorer, the assigner and
    the manager all catch their own exceptions and return a failure. *)
Definition processTeamAssignment (a : answers) (now : Z) (teamId : string)
    (w : Llm.world) : list call * (failure + data) * Llm.world :=
  if negb (JS.truthy (JS.JStr <$> OPENAI_API_KEY a)) then ([], inl NoApiKey, w)
  else
    match getTeam a with
    | None => ([], inl TeamNotFound, w)
    | Some team =>
        if negb (Team.isComplete team) then ([], inl TeamNotComplete, w)
        else
          let sessionResult :=
            match getAssignmentForTeam a with
            | Some session => inr session
            | None => createAssignmentSession a
            end in
          match sessionResult with
          | inl error => ([], inl (CreateSessionFailed error), w)
          | inr session =>
              if negb (importsResolve a) then ([], inl InternalError, w)
              else
                let c1 := [UpdateSessionStatus (id session) scoring;
                           GenerateScoreMatrix (Team.id team)] in
                match Scorer.generateScoreMatrix JSON_parse llm now team
                        (roles session) w with
                | (inl e, w') =>
                    (c1 ++ [UpdateSessionStatus (id session) pending],
                     inl (ScoringFailed e), w')
                | (inr scoreMatrix, w') =>
                    let c2 := c1 ++ [UpdateSessionStatus (id session) assigning;
                                     AssignRoles (Team.id team)] in
                    match Assigner.assignRoles munkres now team (roles session)
                            scoreMatrix with
                    | inl e =>
                        (c2 ++ [UpdateSessionStatus (id session) pending],
                         inl (AssignmentFailed e), w')
                    | inr assignment =>
                        let c3 := c2 ++ [SaveAssignmentData (id session) assignment
                                           (Some scoreMatrix)] in
                        if negb (saveAssignmentData a)
                        then (c3 ++ [UpdateSessionStatus (id session) pending],
                              inl SaveFailed, w')
                        else
                          (c3 ++ [UpdateSessionStatus (id session) justifying;
                                  GenerateJustificationsBackground (id session)],
                           inr (mkData (id session) assignment true), w')
                    end
                end
          end
    end.

(** What the collaborators answer to [generateJustificationsBackground]:
    whether the import resolves, how long the justifier takes to settle
    ([None] when it never does), and what the store says when asked for the
    session.  Whether the save goes through is logged and changes nothing. *)
Record backgroundAnswers := mkBackgroundAnswers {
  importResolves : bool;
  settlesAfter : option Z;
  getAssignmentSession : option AssignmentSession
}.

(** [Promise.race([generateJustificationsWithRetry(...), timeoutPromise])]:
    the justifier's result when it settles before the timer, the timer's
    rejection otherwise. *)
Definition race {A} (settlesAfter : option Z) (result : A) : option A :=
  match settlesAfter with
  | Some ms => if ms <? JUSTIFICATION_TIMEOUT then Some result else None
  | None => None
  end.

(** [generateJustificationsBackground] *)
Definition generateJustificationsBackground (a : backgroundAnswers)
    (sessionId : string) (team : Team.t) (roles : list RoleDefinition.t)
    (assignment : TeamAssignment.t) (w : Llm.world) : list call * Llm.world :=
  if negb (importResolves a) then ([UpdateSessionStatus sessionId complete], w)
  else
    let '(result, w') :=
      JustifierRunner.generateJustificationsWithRetry JSON_parse llm team roles
        assignment 0 w in
    match race (settlesAfter a) result with
    | None => ([UpdateSessionStatus sessionId complete], w')
    | Some (inr updatedAssignment) =>
        match getAssignmentSession a with
        | Some session =>
            ([SaveAssignmentData sessionId updatedAssignment None;
              UpdateSessionStatus sessionId complete], w')
        | None => ([], w')
        end
    | Some (inl _) => ([UpdateSessionStatus sessionId complete], w')
    end.

(** [triggerAutoAssignment]: the promise resolves when
    [processTeamAssignment] succeeds and rejects with the error of its result
    otherwise; this is the promise the queue waits for. *)
Definition triggerAutoAssignment (a : answers) (now : Z) (teamId : string)
    (w : Llm.world) : list call * (failure + unit) * Llm.world :=
  let '(calls, result, w') := processTeamAssignment a now teamId w in
  (calls, match result with inl e => inl e | inr _ => inr () end, w').

End pipeline.

End AssignmentProcessor.

(** ** [AssignmentHealthChecker] (src/unnamed/part_007) *)

Module AssignmentHealthChecker.
Import Store.

Definition STUCK_THRESHOLD : Z := 300000.
Definition CHECK_INTERVAL : Z := 120000.

(** A row as [checkStuckTeams] selects it; [assignment] is the JSON column,
    [JNull] when empty. *)
Record stuckSession := mkStuck {
  id : string;
  team_id : string;
  status : string;
  assignment : JS.json;
  created_at : Z
}.

Record recovery := mkRecovery {
  success : bool;
  action : string;
  error : option string
}.

(** [assignment && Object.keys(assignment).length > 0] *)
Definition hasAssignment (assignment : JS.json) : bool :=
  JS.truthy (Some assignment) && (0 <? JS.keyCount assignment)%nat.

(** [recoverStuckTeam]: the calls made on the store and on the queue, the
    report, and the queue afterwards.  The handler of its [try] is not in the
    embedding: neither [updateSessionStatus] nor [addTeam] throws. *)
Definition recoverStuckTeam (now : Z) (session : stuckSession)
    (q : AssignmentQueue.t) : list call * recovery * AssignmentQueue.t :=
  if String.eqb (status session) "justifying" then
    if hasAssignment (assignment session)
    then ([UpdateSessionStatus (id session) complete],
          mkRecovery true "completed_without_justifications" None, q)
    else ([UpdateSessionStatus (id session) pending; AddTeam (team_id session)],
          mkRecovery true "reset_and_requeued" None,
          AssignmentQueue.addTeam now (team_id session) q)
  else if String.eqb (status session) "scoring"
          || String.eqb (status session) "assigning"
  then ([UpdateSessionStatus (id session) pending; AddTeam (team_id session)],
        mkRecovery true "reset_and_requeued" None,
        AssignmentQueue.addTeam now (team_id session) q)
  else ([], mkRecovery false "unknown_status"
              (Some ("Unknown status: " +:+ status session)), q).

(** An entry of [details] in the report of [checkStuckTeams]. *)
Module Detail.
Record t := mk {
  teamId : string;
  status : string;
  action : string;
  error : option string
}.
End Detail.

Record healthCheck := mkHealthCheck {
  checked : nat;
  recovered : nat;
  failed : nat;
  details : list Detail.t
}.

(** What the query for the stuck sessions came to: the awaited call
    rejects, it answers with an [error], or with [data] ([None] for
    [null]). *)
Inductive stuckQuery :=
  | QueryThrows (message : string)
  | QueryError (message : string)
  | QueryData (stuckSessions : option (list stuckSession)).

(** [for (const session of stuckSessions)] in [checkStuckTeams]; [clock n]
    is the time at the recovery numbered [n].  The handler inside the loop is
    not in the embedding: [recoverStuckTeam] catches what it meets. *)
Fixpoint recoverAll (clock : nat → Z) (n : nat) (sessions : list stuckSession)
    (results : healthCheck) (q : AssignmentQueue.t)
  : list call * healthCheck * AssignmentQueue.t :=
  match sessions with
  | [] => ([], results, q)
  | session :: rest =>
      let '(calls, recoveryResult, q') := recoverStuckTeam (clock n) session q in
      let details' :=
        details results
        ++ [Detail.mk (team_id session) (status session) (action recoveryResult)
                      (error recoveryResult)] in
      let results' :=
        if success recoveryResult
        then mkHealthCheck (checked results) (S (recovered results))
                           (failed results) details'
        else mkHealthCheck (checked results) (recovered results)
                           (S (failed results)) details' in
      let '(calls', final, q'') := recoverAll clock (S n) rest results' q' in
      (calls ++ calls', final, q'')
  end.

(** [checkStuckTeams] *)
Definition checkStuckTeams (clock : nat → Z) (answer : stuckQuery)
    (q : AssignmentQueue.t) : list call * outcome healthCheck * AssignmentQueue.t :=
  let results := mkHealthCheck 0 0 0 [] in
  match answer with
  | QueryThrows message => ([], Thrown message, q)
  | QueryError _ => ([], Returned results, q)
  | QueryData None | QueryData (Some []) => ([], Returned results, q)
  | QueryData (Some stuckSessions) =>
      let '(calls, final, q') :=
        recoverAll clock 0 stuckSessions
          (mkHealthCheck (length stuckSessions) 0 0 []) q in
      (calls, Returned final, q')
  end.

(** An entry of the report of [manualRecovery]. *)
Module ManualResult.
Record t := mk {
  teamId : string;
  success : bool;
  action : string;
  error : option string
}.
End ManualResult.


(** The statuses [recoverStuckTeam] knows what to do with. *)
Definition recoverable (status : string) : bool :=
  String.eqb status "justifying" || String.eqb status "scoring"
  || String.eqb status "assigning".

(** The sessions [recoverStuckTeam] sends back to the queue. *)
Definition requeued (session : stuckSession) : bool :=
  (String.eqb (status session) "justifying" && negb (hasAssignment (assignment session)))
  || (negb (String.eqb (status session) "justifying")
      && (String.eqb (status session) "scoring"
          || String.eqb (status session) "assigning")).

End AssignmentHealthChecker.

(** ** [AssignmentSessionManager.getAssignmentForTeam]
       (src/lib/managers/ApplicantManager.ts) *)

Module AssignmentSessionManager.

(** A row of [assignment_sessions] as the query selects it. *)
Record row := mkRow {
  id : string;
  team_id : string;
  session_id : string;
  roles : option (list RoleDefinition.t);
  score_matrix : option ScoreMatrix.t;
  assignment : option TeamAssignment.t;
  status : string;
  created_at : Z
}.

(** The [AssignmentSession] object built from a row; the status is the
    text of the row, whatever it is. *)
Module Session.
Record t := mk {
  id : string;
  teamId : string;
  sessionId : string;
  roles : list RoleDefinition.t;
  scoreMatrix : option ScoreMatrix.t;
  assignment : option TeamAssignment.t;
  status : string;
  createdAt : Z
}.
End Session.

Definition toSession (latest : row) : Session.t :=
  Session.mk (id latest) (team_id latest) (session_id latest)
    (default [] (roles latest)) (score_matrix latest) (assignment latest)
    (status latest) (created_at latest).

(** What the query came to: the awaited call rejects, it answers with an
    [error], or with [data] (ordered by [created_at], latest first). *)
Inductive query :=
  | QueryThrows
  | QueryError
  | QueryData (data : option (list row)).

(** [getAssignmentForTeam] *)
Definition getAssignmentForTeam (answer : query) : option Session.t :=
  match answer with
  | QueryThrows | QueryError => None
  | QueryData None | QueryData (Some []) => None
  | QueryData (Some data) =>
      match filter (λ r, status r = "complete") data with
      | latest :: _ => Some (toSession latest)
      | [] =>
          match filter (λ r, status r = "scoring" ∨ status r = "assigning"
                             ∨ status r = "justifying") data with
          | latest :: _ => Some (toSession latest)
          | [] =>
              match filter (λ r, status r = "pending") data with
              | latest :: _ => Some (toSession latest)
              | [] => toSession <$> head data
              end
          end
      end
  end.

(** The order in which [getAssignmentForTeam] prefers the statuses. *)
Definition rank (status : string) : nat :=
  if decide (status = "complete") then 0%nat
  else if decide (status = "scoring" ∨ status = "assigning" ∨ status = "justifying")
  then 1%nat
  else if decide (status = "pending") then 2%nat
  else 3%nat.

End AssignmentSessionManager.

(** ** [TeamManager.updateTeamStats] (src/lib/managers/ApplicantManager.ts) *)

Module TeamManager.

(** What the collaborators answer during one run of [updateTeamStats]: the
    query for the applicants of the team (an [error], or the rows, [None] for
    [null]), the row of the team ([max_members] and [is_complete]), whether
    the dynamic imports resolve, the status of the session
    [getAssignmentForTeam] finds, and whether [createAssignmentSession]
    succeeds. *)
Record answers := mkAnswers {
  applicants : string + option nat;
  teamData : option (Z * bool);
  importsResolve : bool;
  existingSession : option string;
  createAssignmentSession : bool
}.

(** The writes of the run, in order. *)
Inductive call :=
  | UpdateIsComplete (teamId : string) (is_complete : bool)
  | CreateAssignmentSession (teamId : string)
  | AddTeam (teamId : string).

(** The body of the two branches for a complete team, which differ in their
    log lines only. *)
Definition ensureQueued (a : answers) (now : Z) (teamId : string)
    (q : AssignmentQueue.t) : list call * AssignmentQueue.t :=
  if negb (importsResolve a) then ([], q)
  else
    match existingSession a with
    | None =>
        if createAssignmentSession a
        then ([CreateAssignmentSession teamId; AddTeam teamId],
              AssignmentQueue.addTeam now teamId q)
        else ([CreateAssignmentSession teamId], q)
    | Some status =>
        if String.eqb status "pending"
        then ([AddTeam teamId], AssignmentQueue.addTeam now teamId q)
        else ([], q)
    end.

(** [updateTeamStats]; whatever is thrown on the way ends the run, what was
    written before stays written. *)
Definition updateTeamStats (a : answers) (now : Z) (teamId : string)
    (q : AssignmentQueue.t) : list call * AssignmentQueue.t :=
  match applicants a with
  | inl _ | inr None => ([], q)
  | inr (Some currentMembers) =>
      match teamData a with
      | None => ([], q)
      | Some (max_members, wasComplete) =>
          let isComplete := Z.of_nat currentMembers >=? max_members in
          let '(calls, q') :=
            if isComplete && negb wasComplete then ensureQueued a now teamId q
            else if isComplete then ensureQueued a now teamId q
            else ([], q) in
          (UpdateIsComplete teamId isComplete :: calls, q')
      end
  end.

End TeamManager.

(** ** Runs used as examples below *)

Module Examples.
Import JS Store AssignmentProcessor.

(** A team of two, three roles and the assignment the matcher gives them. *)
Definition team2 : Team.t :=
  Team.mk "T" [Applicant.mk "a1" "Ann"; Applicant.mk "a2" "Bo"] true 2.
Definition roles3 : list RoleDefinition.t :=
  [RoleDefinition.mk "r1" "lead" None; RoleDefinition.mk "r2" "driver" None;
   RoleDefinition.mk "r3" "cheer" None].
Definition assignment2 : TeamAssignment.t :=
  TeamAssignment.mk "T"
    [Assignment.mk "a1" "r1" 90 None; Assignment.mk "a2" "r2" 90 None] 180 7 false.
Definition session1 (st : status) : AssignmentSession :=
  mkSession "s1" "T" roles3 None (Some assignment2) st 0.

(** The model answers with two justifications, the second under the name
    of the applicant instead of the id. *)
Definition quoted (s : string) : string :=
  String "034"%char (s +:+ String "034"%char "").
Definition justificationsText : string :=
  "[{" +:+ quoted "applicantId" +:+ ":" +:+ quoted "a1" +:+ ","
    +:+ quoted "justification" +:+ ":" +:+ quoted "Leads well." +:+ "},{"
    +:+ quoted "applicantId" +:+ ":" +:+ quoted "Bo" +:+ ","
    +:+ quoted "justification" +:+ ":" +:+ quoted "Steady hands." +:+ "}]".
Definition justificationsJson : json :=
  JArr [JObj [("applicantId", JStr "a1"); ("justification", JStr "Leads well.")];
        JObj [("applicantId", JStr "Bo"); ("justification", JStr "Steady hands.")]].

(** A response whose second row is one score short, for the team of two
    and the three roles. *)
Definition shortRowText : string := "[[90,10,20],[10,90]]".
Definition shortRowJson : json :=
  JArr [JArr [JNum 90; JNum 10; JNum 20]; JArr [JNum 10; JNum 90]].
(** One applicant and a catalogue of 500 roles. *)
Definition team1 : Team.t := Team.mk "T" [Applicant.mk "a1" "Ann"] true 1.
Definition roles500 : list RoleDefinition.t :=
  (λ i : nat, RoleDefinition.mk (pretty i) "role" None) <$> seq 0 500.
Definition answers1 : answers :=
  mkAnswers (Some "sk-test") (Some team2) (Some (session1 pending))
    (inl "unused") true true.

(** Queue states: team A alone in the pool; a full pool with team D
    waiting; a full pool while the first retry of team A is armed. *)
Definition itemOf (tid : string) (retries : nat) : AssignmentQueue.QueueItem :=
  AssignmentQueue.mkQueueItem tid 0 retries 0.
Definition queueA : AssignmentQueue.t :=
  AssignmentQueue.mk {[ "A" ]} [] (AssignmentQueue.mkQueueStats 1 0 0 0)
    [itemOf "A" 0] [].
Definition queueFull : AssignmentQueue.t :=
  AssignmentQueue.mk {[ "A"; "B"; "C" ]} [itemOf "D" 0]
    (AssignmentQueue.mkQueueStats 3 1 0 0)
    [itemOf "A" 0; itemOf "B" 0; itemOf "C" 0] [].
Definition queueRetrying : AssignmentQueue.t :=
  AssignmentQueue.mk {[ "B"; "C"; "D" ]} [] (AssignmentQueue.mkQueueStats 3 0 0 0)
    [itemOf "B" 0; itemOf "C" 0; itemOf "D" 0] [(5000, itemOf "A" 1)].

End Examples.

(* ===================================================================== *)
(** * Theorems *)
(* ===================================================================== *)

Section queue_facts.
Import AssignmentQueue.

Implicit Types (q : t) (tid : string) (item : QueueItem).

Lemma existsb_teamId tid (l : list QueueItem) :
  existsb (λ item, String.eqb (teamId item) tid) l = true ↔ tid ∈ teamId <$> l.
Proof.
  rewrite existsb_exists, list_elem_of_fmap. split.
  - intros (x & Hx & Heq). apply String.eqb_eq in Heq.
    exists x. split; [done|]. by apply list_elem_of_In.
  - intros (x & -> & Hx). exists x. split; [by apply list_elem_of_In|].
    apply String.eqb_refl.
Qed.

Lemma pool_startProcessing item q :
  processingPool (startProcessing item q) = {[ teamId item ]} ∪ processingPool q.
Proof. reflexivity. Qed.

Lemma size_pool_insert tid (X : gset string) :
  (size ({[ tid ]} ∪ X) ≤ S (size X))%nat.
Proof.
  rewrite size_union_alt, size_singleton.
  assert (size (X ∖ {[tid]}) ≤ size X)%nat; [|lia].
  apply subseteq_size, subseteq_difference_l. done.
Qed.

Lemma size_pool_delete tid (X : gset string) :
  (size (X ∖ {[ tid ]}) ≤ size X)%nat.
Proof. apply subseteq_size, subseteq_difference_l. done. Qed.

Lemma processNext_bound q :
  (size (processingPool q) ≤ MAX_CONCURRENT)%nat →
  (size (processingPool (processNext q)) ≤ MAX_CONCURRENT)%nat.
Proof.
  intros Hb. unfold processNext.
  destruct (MAX_CONCURRENT <=? size (processingPool q))%nat eqn:Hfull; simpl; [done|].
  apply Nat.leb_gt in Hfull.
  destruct (length (waitingQueue q) =? 0)%nat; [done|].
  destruct (waitingQueue q) as [|nextItem rest]; [done|].
  rewrite pool_startProcessing. simpl.
  pose proof (size_pool_insert (teamId nextItem) (processingPool q)). lia.
Qed.

Lemma completionHead_pool tid success orig q :
  processingPool (completionHead tid success orig q) = processingPool q ∖ {[ tid ]}.
Proof.
  unfold completionHead. destruct success; [done|].
  destruct orig as [item|]; [|done].
  by destruct (retryCount item <? MAX_RETRIES)%nat.
Qed.

Lemma addTeam_bound now tid q :
  (size (processingPool q) ≤ MAX_CONCURRENT)%nat →
  (size (processingPool (addTeam now tid q)) ≤ MAX_CONCURRENT)%nat.
Proof.
  intros Hb. unfold addTeam.
  destruct (decide _); [done|]. destruct (existsb _ _); [done|].
  destruct (size (processingPool q) <? MAX_CONCURRENT)%nat eqn:Hfree; [|done].
  apply Nat.ltb_lt in Hfree. simpl.
  pose proof (size_pool_insert tid (processingPool q)). lia.
Qed.

Lemma apply_bound q e :
  (size (processingPool q) ≤ MAX_CONCURRENT)%nat →
  (size (processingPool (apply q e)) ≤ MAX_CONCURRENT)%nat.
Proof.
  intros Hb. destruct e as [now tid|i success|i success|i|]; simpl.
  - by apply addTeam_bound.
  - unfold settle, settleWith. destruct (running q !! i) as [item|]; [|done].
    unfold onProcessingComplete. apply processNext_bound. simpl.
    rewrite completionHead_pool. simpl.
    pose proof (size_pool_delete (teamId item) (processingPool q)). lia.
  - unfold settleWith. destruct (running q !! i) as [item|]; [|done].
    rewrite completionHead_pool. simpl.
    pose proof (size_pool_delete (teamId item) (processingPool q)). lia.
  - unfold fire. destruct (timers q !! i) as [[d item]|]; [|done].
    unfold retryCallback. by apply processNext_bound.
  - by apply processNext_bound.
Qed.

Lemma run_snoc es e : run (es ++ [e]) = apply (run es) e.
Proof. unfold run. by rewrite foldl_app. Qed.

Lemma run_bound es :
  (size (processingPool (run es)) ≤ MAX_CONCURRENT)%nat.
Proof.
  induction es as [|e es IH] using rev_ind.
  - change (size (∅ : gset string) ≤ 3)%nat. rewrite size_empty. lia.
  - rewrite run_snoc. by apply apply_bound.
Qed.

(** A team that is neither processing nor waiting is started when a slot is
    free and appended to the waiting list otherwise. *)
Lemma addTeam_fresh now tid q :
  tid ∉ processingPool q → tid ∉ waitingTeams q →
  addTeam now tid q =
    updateStats
      (if (size (processingPool q) <? MAX_CONCURRENT)%nat
       then startProcessing (mkQueueItem tid now 0 now) q
       else mk (processingPool q) (waitingQueue q ++ [mkQueueItem tid now 0 now])
               (stats q) (running q) (timers q)).
Proof.
  intros Hp Hw. unfold addTeam.
  destruct (decide _) as [|_]; [done|].
  destruct (existsb _ _) eqn:Hex; [|done].
  apply existsb_teamId in Hex. done.
Qed.

Lemma addTeam_present now tid q :
  tid ∈ processingPool q ∨ tid ∈ waitingTeams q → addTeam now tid q = q.
Proof.
  intros [Hp|Hw]; unfold addTeam.
  - by destruct (decide _).
  - destruct (decide _); [done|].
    apply existsb_teamId in Hw. unfold waitingTeams in Hw. by rewrite Hw.
Qed.

Lemma addTeam_after now tid q :
  tid ∈ processingPool (addTeam now tid q) ∨ tid ∈ waitingTeams (addTeam now tid q).
Proof.
  destruct (decide (tid ∈ processingPool q)) as [Hp|Hp].
  { rewrite addTeam_present; auto. }
  destruct (decide (tid ∈ waitingTeams q)) as [Hw|Hw].
  { rewrite addTeam_present; auto. }
  rewrite addTeam_fresh by done.
  destruct (size (processingPool q) <? MAX_CONCURRENT)%nat; simpl.
  - left. set_solver.
  - right. unfold waitingTeams. simpl. rewrite fmap_app. set_solver.
Qed.

Lemma shape_size q ps ws rs tm :
  shape q ps ws rs tm → size (processingPool q) = length ps.
Proof. intros (-> & Hnd & _). by apply size_list_to_set. Qed.

Lemma shape_empty : shape empty [] [] [] [].
Proof. repeat split; constructor. Qed.

Lemma shape_addTeam_start now tid q ps ws rs tm :
  shape q ps ws rs tm → tid ∉ ps → tid ∉ teamId <$> ws →
  (length ps < MAX_CONCURRENT)%nat →
  shape (addTeam now tid q) (ps ++ [tid]) ws (rs ++ [mkQueueItem tid now 0 now]) tm.
Proof.
  intros Hq Hp Hw Hlen. pose proof (shape_size _ _ _ _ _ Hq) as Hsz.
  destruct Hq as (Hpool & Hnd & Hws & Hrs & Htm).
  rewrite addTeam_fresh.
  - apply Nat.ltb_lt in Hlen. rewrite Hsz, Hlen. unfold shape. simpl.
    repeat split; try done.
    + rewrite Hpool, list_to_set_app_L. simpl. set_solver.
    + apply NoDup_app. split_and!; [done| |apply NoDup_singleton].
      intros x Hx ->%list_elem_of_singleton. done.
    + by rewrite Hrs.
  - rewrite Hpool. by rewrite elem_of_list_to_set.
  - unfold waitingTeams. by rewrite Hws.
Qed.

Lemma shape_addTeam_wait now tid q ps ws rs tm :
  shape q ps ws rs tm → tid ∉ ps → tid ∉ teamId <$> ws →
  (MAX_CONCURRENT ≤ length ps)%nat →
  shape (addTeam now tid q) ps (ws ++ [mkQueueItem tid now 0 now]) rs tm.
Proof.
  intros Hq Hp Hw Hlen. pose proof (shape_size _ _ _ _ _ Hq) as Hsz.
  destruct Hq as (Hpool & Hnd & Hws & Hrs & Htm).
  rewrite addTeam_fresh.
  - apply Nat.ltb_ge in Hlen. rewrite Hsz, Hlen. unfold shape. simpl.
    repeat split; try done. by rewrite Hws.
  - rewrite Hpool. by rewrite elem_of_list_to_set.
  - unfold waitingTeams. by rewrite Hws.
Qed.

Lemma shape_processNext_admit q ps next ws rs tm :
  shape q ps (next :: ws) rs tm → teamId next ∉ ps →
  (length ps < MAX_CONCURRENT)%nat →
  shape (processNext q) (ps ++ [teamId next]) ws (rs ++ [next]) tm.
Proof.
  intros Hq Hp Hlen. pose proof (shape_size _ _ _ _ _ Hq) as Hsz.
  destruct Hq as (Hpool & Hnd & Hws & Hrs & Htm).
  unfold processNext. rewrite Hsz, Hws.
  apply Nat.leb_gt in Hlen. rewrite Hlen. unfold shape. simpl.
  repeat split; try done.
  - rewrite Hpool, list_to_set_app_L. simpl. set_solver.
  - apply NoDup_app. split_and!; [done| |apply NoDup_singleton].
    intros x Hx ->%list_elem_of_singleton. done.
  - by rewrite Hrs.
Qed.

Lemma shape_updateStats q ps ws rs tm :
  shape q ps ws rs tm → shape (updateStats q) ps ws rs tm.
Proof. done. Qed.

Lemma shape_completionHead tid success orig q ps ws rs tm :
  shape q ps ws rs tm →
  shape (completionHead tid success orig q) (filter (λ x, x ≠ tid) ps) ws rs
    (timers (completionHead tid success orig q)).
Proof.
  intros (Hpool & Hnd & Hws & Hrs & Htm).
  repeat split.
  - rewrite completionHead_pool, Hpool.
    apply set_eq. intros x.
    rewrite elem_of_difference, !elem_of_list_to_set, list_elem_of_filter.
    set_solver.
  - by apply NoDup_filter.
  - rewrite <- Hws. unfold completionHead.
    destruct success; [done|]. destruct orig as [item|]; [|done].
    by destruct (retryCount item <? MAX_RETRIES)%nat.
  - rewrite <- Hrs. unfold completionHead.
    destruct success; [done|]. destruct orig as [item|]; [|done].
    by destruct (retryCount item <? MAX_RETRIES)%nat.
Qed.

Lemma shape_completion tid success orig q ps next ws rs tm :
  shape q ps (next :: ws) rs tm → tid ∈ ps → teamId next ∉ ps →
  (length ps ≤ MAX_CONCURRENT)%nat →
  shape (onProcessingComplete tid success orig q)
    (filter (λ x, x ≠ tid) ps ++ [teamId next]) ws (rs ++ [next])
    (timers (completionHead tid success orig q)).
Proof.
  intros Hq Hin Hnext Hlen.
  unfold onProcessingComplete.
  apply (shape_completionHead tid success orig) in Hq as Hq'.
  apply shape_updateStats in Hq'.
  apply shape_processNext_admit in Hq'.
  - exact Hq'.
  - rewrite list_elem_of_filter. tauto.
  - assert (length (filter (λ x, x ≠ tid) ps) < length ps)%nat; [|lia].
    apply list_elem_of_split in Hin as (l1 & l2 & ->).
    rewrite filter_app, filter_cons_False by (intros ?; done).
    rewrite !length_app. simpl.
    pose proof (length_filter (λ x, x ≠ tid) l1).
    pose proof (length_filter (λ x, x ≠ tid) l2). lia.
Qed.

Local Ltac notin :=
  simpl; repeat (apply not_elem_of_cons; split; [congruence|]);
  apply not_elem_of_nil.

Lemma tidy_updateStats q : tidy q → tidy (updateStats q).
Proof. done. Qed.

Lemma NoDup_move_in (R W T : list string) x :
  NoDup (R ++ (x :: W) ++ T) → NoDup ((R ++ [x]) ++ W ++ T).
Proof. by rewrite <- app_assoc. Qed.

Lemma NoDup_insert_middle (R W T : list string) x :
  x ∉ R ++ W ++ T → NoDup (R ++ W ++ T) → NoDup (R ++ (W ++ [x]) ++ T).
Proof.
  intros Hx Hnd.
  assert (R ++ (W ++ [x]) ++ T ≡ₚ x :: (R ++ W ++ T)) as ->; [|by constructor].
  rewrite <- (app_assoc W). simpl. rewrite (app_assoc R).
  rewrite <- Permutation_middle. by rewrite <- app_assoc.
Qed.

Lemma NoDup_insert_end (R W T : list string) x :
  x ∉ R ++ W ++ T → NoDup (R ++ W ++ T) → NoDup (R ++ W ++ T ++ [x]).
Proof.
  intros Hx Hnd.
  assert (R ++ W ++ T ++ [x] ≡ₚ x :: (R ++ W ++ T)) as ->; [|by constructor].
  rewrite !app_assoc. rewrite <- Permutation_cons_append. done.
Qed.

Lemma tidy_processNext q : tidy q → tidy (processNext q).
Proof.
  intros [Hnd Hpool]. unfold processNext.
  destruct (_ || _); [done|].
  destruct (waitingQueue q) as [|next rest] eqn:Hw; [done|].
  unfold tidy, startProcessing, runningTeams, waitingTeams, timerTeams in *.
  rewrite Hw in Hnd. cbn [processingPool waitingQueue running timers updateStats] in *.
  split.
  - rewrite fmap_app. by apply NoDup_move_in.
  - rewrite Hpool, fmap_app, list_to_set_app_L. simpl. set_solver.
Qed.

Lemma tidy_completionHead i item success q :
  tidy q → running q !! i = Some item →
  tidy (completionHead (teamId item) success (if success then None else Some item)
          (mk (processingPool q) (waitingQueue q) (stats q)
              (delete i (running q)) (timers q))).
Proof.
  intros [Hnd Hpool] Hi.
  assert (runningTeams q ≡ₚ teamId item :: (teamId <$> delete i (running q))) as Hperm.
  { unfold runningTeams. rewrite (delete_Permutation _ _ _ Hi) at 1. done. }
  rewrite Hperm in Hnd. simpl in Hnd. apply NoDup_cons in Hnd as [Hfresh Hnd].
  assert (processingPool q ∖ {[teamId item]}
          = list_to_set (teamId <$> delete i (running q))) as Hpool'.
  { rewrite Hpool. apply set_eq. intros x.
    rewrite elem_of_difference, !elem_of_list_to_set, elem_of_singleton.
    unfold runningTeams. rewrite Hperm, elem_of_cons.
    split; [intros [[->|?] ?]; done|].
    intros Hx. split; [by right|]. intros ->. apply Hfresh.
    apply elem_of_app. by left. }
  unfold completionHead.
  destruct success; [by split|].
  destruct (retryCount item <? MAX_RETRIES)%nat; [|by split].
  split; [|exact Hpool'].
  unfold retryTeam, runningTeams, waitingTeams, timerTeams in *.
  cbn [processingPool waitingQueue running timers] in *.
  rewrite fmap_app. by apply NoDup_insert_end.
Qed.

Lemma tidy_addTeam now tid q :
  tidy q → tid ∉ timerTeams q → tidy (addTeam now tid q).
Proof.
  intros [Hnd Hpool] Htimer.
  destruct (decide (tid ∈ processingPool q ∨ tid ∈ waitingTeams q)) as [Hin|Hout].
  { by rewrite addTeam_present. }
  rewrite addTeam_fresh by tauto.
  assert (tid ∉ runningTeams q ++ waitingTeams q ++ timerTeams q) as Hfresh.
  { rewrite !elem_of_app. rewrite Hpool, elem_of_list_to_set in Hout. tauto. }
  destruct (size (processingPool q) <? MAX_CONCURRENT)%nat;
    unfold tidy, startProcessing, runningTeams, waitingTeams, timerTeams in *;
    cbn [processingPool waitingQueue running timers updateStats] in *.
  - split.
    + rewrite fmap_app. apply NoDup_move_in.
      assert ((teamId <$> running q) ++ (tid :: (teamId <$> waitingQueue q)) ++
                ((λ p : Z * QueueItem, teamId p.2) <$> timers q)
              ≡ₚ tid :: ((teamId <$> running q) ++ (teamId <$> waitingQueue q) ++
                           ((λ p : Z * QueueItem, teamId p.2) <$> timers q))) as ->
        by (simpl; by rewrite <- Permutation_middle).
      by constructor.
    + rewrite Hpool, fmap_app, list_to_set_app_L. simpl. set_solver.
  - split; [|done].
    rewrite fmap_app. by apply NoDup_insert_middle.
Qed.

Lemma tidy_fire i q : tidy q → tidy (fire i q).
Proof.
  intros [Hnd Hpool]. unfold fire.
  destruct (timers q !! i) as [[d item]|] eqn:Hi; [|done].
  unfold retryCallback. apply tidy_processNext.
  split; [|done].
  unfold runningTeams, waitingTeams, timerTeams in *.
  cbn [processingPool waitingQueue running timers] in *.
  rewrite fmap_cons.
  assert (((λ p : Z * QueueItem, teamId p.2) <$> timers q)
          ≡ₚ teamId item :: ((λ p : Z * QueueItem, teamId p.2) <$> delete i (timers q)))
    as Hperm.
  { rewrite (delete_Permutation _ _ _ Hi) at 1. done. }
  rewrite Hperm in Hnd.
  eapply NoDup_Permutation_proper; [|exact Hnd].
  apply Permutation_app_head. simpl. by rewrite <- Permutation_middle.
Qed.

(** What the guard of [addTeam] is after: as long as no team is added while
    its retry timer is armed, no team is ever twice among the running, the
    waiting and the retrying, and so never has two pipelines in flight.  The
    callback of [retryTeam] re-inserts without that guard. *)
Lemma guarded_run_tidy es q : tidy q → guardedFrom q es → tidy (foldl apply q es).
Proof.
  revert q. induction es as [|e es IH]; intros q Hq Hg; [done|].
  destruct Hg as [Hge Hg]. simpl. apply IH; [|done].
  destruct e as [now tid|i success|i success|i|]; simpl in *.
  - by apply tidy_addTeam.
  - unfold settle, settleWith. destruct (running q !! i) as [item|] eqn:Hi; [|done].
    unfold onProcessingComplete.
    by apply tidy_processNext, tidy_updateStats, tidy_completionHead.
  - unfold settleWith. destruct (running q !! i) as [item|] eqn:Hi; [|done].
    by apply tidy_completionHead.
  - by apply tidy_fire.
  - by apply tidy_processNext, tidy_updateStats.
Qed.

Lemma tidy_empty : tidy empty.
Proof. split; [constructor|done]. Qed.

Lemma NoDup_filter_length (l : list string) tid :
  NoDup l → (length (filter (λ y, y = tid) l) ≤ 1)%nat.
Proof.
  induction 1 as [|x l Hx _ IH]; [simpl; lia|].
  rewrite filter_cons. destruct (decide (x = tid)) as [->|]; [|done].
  destruct (filter (λ y, y = tid) l) as [|y l'] eqn:Hf; [simpl; lia|].
  assert (y ∈ filter (λ y, y = tid) l) as Hy by (rewrite Hf; left).
  apply list_elem_of_filter in Hy as [-> Hy]. done.
Qed.

(** A tidy queue is what C10 describes. *)
Lemma tidy_unique q tid :
  tidy q →
  (executions tid q ≤ 1)%nat ∧ NoDup (waitingTeams q) ∧
  ¬ (tid ∈ processingPool q ∧ tid ∈ waitingTeams q).
Proof.
  intros [Hnd Hpool].
  apply NoDup_app in Hnd as (Hr & Hrw & Hnd).
  apply NoDup_app in Hnd as (Hw & _ & _).
  split_and!; [|done|].
  - by apply NoDup_filter_length.
  - rewrite Hpool, elem_of_list_to_set. intros [Hin Hin'].
    apply (Hrw tid Hin), elem_of_app. by left.
Qed.

#[local] Opaque addTeam onProcessingComplete processNext startProcessing completionHead.

(** C4.  Whatever the interleaving of [addTeam] calls, completions, retry
    timers and [processNext] steps, the processing pool never holds more than
    [MAX_CONCURRENT] = 3 team ids.  Five distinct teams added to a new queue:
    the first three are started at once and the last two wait; when one of
    the three running pipelines settles, with either outcome, exactly the
    head of the waiting list is started in its place and the other one keeps
    waiting. *)
Theorem queue_concurrency_bound
    (es : list event) (n1 n2 n3 n4 n5 : Z) (t1 t2 t3 t4 t5 : string)
    (i : nat) (success : bool) :
  NoDup [t1; t2; t3; t4; t5] → (i < 3)%nat →
  let q5 := run [EAddTeam n1 t1; EAddTeam n2 t2; EAddTeam n3 t3;
                 EAddTeam n4 t4; EAddTeam n5 t5] in
  let q6 := apply q5 (ESettle i success) in
  MAX_CONCURRENT = 3%nat ∧
  (size (processingPool (run es)) ≤ MAX_CONCURRENT)%nat ∧
  processingPool q5 = list_to_set [t1; t2; t3] ∧
  runningTeams q5 = [t1; t2; t3] ∧
  waitingTeams q5 = [t4; t5] ∧
  runningTeams q6 = delete i [t1; t2; t3] ++ [t4] ∧
  waitingTeams q6 = [t5] ∧
  processingPool q6 = list_to_set (runningTeams q6) ∧
  size (processingPool q6) = 3%nat.
Proof.
  intros Hnd Hi q5 q6.
  split; [done|]. split; [apply run_bound|].
  apply NoDup_cons in Hnd as [H1 Hnd]. apply NoDup_cons in Hnd as [H2 Hnd].
  apply NoDup_cons in Hnd as [H3 Hnd]. apply NoDup_cons in Hnd as [H4 _].
  assert (t1 ≠ t2 ∧ t1 ≠ t3 ∧ t1 ≠ t4 ∧ t1 ≠ t5 ∧ t2 ≠ t3 ∧ t2 ≠ t4 ∧ t2 ≠ t5
          ∧ t3 ≠ t4 ∧ t3 ≠ t5 ∧ t4 ≠ t5) as (?&?&?&?&?&?&?&?&?&?)
    by (clear -H1 H2 H3 H4; set_solver).
  clear H1 H2 H3 H4.
  pose proof shape_empty as S0.
  apply (shape_addTeam_start n1 t1) in S0 as S1; [|notin|notin|unfold MAX_CONCURRENT; simpl; lia].
  apply (shape_addTeam_start n2 t2) in S1 as S2; [|notin|notin|unfold MAX_CONCURRENT; simpl; lia].
  apply (shape_addTeam_start n3 t3) in S2 as S3; [|notin|notin|unfold MAX_CONCURRENT; simpl; lia].
  apply (shape_addTeam_wait n4 t4) in S3 as S4; [|notin|notin|unfold MAX_CONCURRENT; simpl; lia].
  apply (shape_addTeam_wait n5 t5) in S4 as S5; [|notin|notin|unfold MAX_CONCURRENT; simpl; lia].
  cbn [app] in S5. change (addTeam n5 t5 _) with q5 in S5.
  destruct S5 as (Hpool & Hnd5 & Hws & Hrs & Htm).
  split; [exact Hpool|].
  split; [unfold runningTeams; by rewrite Hrs|].
  split; [unfold waitingTeams; by rewrite Hws|].
  assert (∃ item, running q5 !! i = Some item ∧ teamId item ∈ [t1; t2; t3]
                  ∧ [t1; t2; t3] !! i = Some (teamId item)) as (item & Hitem & Hin & Hti).
  { rewrite Hrs. destruct i as [|[|[|?]]]; [| | |lia]; simpl;
      eexists; (split; [reflexivity|]); simpl; (split; [|done]);
      repeat first [apply list_elem_of_here | apply list_elem_of_further]. }
  set (q5' := mk (processingPool q5) (waitingQueue q5) (stats q5)
                 (delete i (running q5)) (timers q5)).
  set (orig := if success then None else Some item).
  assert (q6 = onProcessingComplete (teamId item) success orig q5') as Hq6.
  { unfold q6. cbn [apply]. unfold settle, settleWith. by rewrite Hitem. }
  assert (shape q5' [t1; t2; t3]
            [mkQueueItem t4 n4 0 n4; mkQueueItem t5 n5 0 n5]
            (delete i (running q5)) (timers q5)) as S5'.
  { unfold shape, q5'. cbn [processingPool waitingQueue running timers].
    split_and!; done. }
  assert (teamId (mkQueueItem t4 n4 0 n4) ∉ [t1; t2; t3]) as Hnext
    by (cbn [teamId]; notin).
  assert (length [t1; t2; t3] ≤ MAX_CONCURRENT)%nat as Hlen
    by (unfold MAX_CONCURRENT; simpl; lia).
  pose proof (shape_completion (teamId item) success orig _ _ _ _ _ _
                S5' Hin Hnext Hlen) as S6.
  rewrite <- Hq6 in S6. cbn [teamId] in S6.
  assert (filter (λ x, x ≠ teamId item) [t1; t2; t3] = delete i [t1; t2; t3]) as Hfilter.
  { destruct i as [|[|[|?]]]; [| | |lia]; simpl in Hti; injection Hti as <-;
      repeat (rewrite filter_cons; destruct (decide _); try congruence);
      by rewrite filter_nil. }
  pose proof (shape_size _ _ _ _ _ S6) as Hsz6.
  destruct S6 as (Hpool6 & Hnd6 & Hws6 & Hrs6 & _).
  assert (runningTeams q6 = delete i [t1; t2; t3] ++ [t4]) as Hrun6.
  { unfold runningTeams. rewrite Hrs6, Hrs, fmap_app.
    destruct i as [|[|[|?]]]; [| | |lia]; reflexivity. }
  split; [exact Hrun6|].
  split; [unfold waitingTeams; by rewrite Hws6|].
  split; [by rewrite Hrun6, <- Hfilter|].
  rewrite Hsz6, Hfilter, length_app.
  destruct i as [|[|[|?]]]; [| | |lia]; reflexivity.
Qed.

Lemma queue_concurrency_bound_witness :
  let es := [EAddTeam 0 "t1"; ESettle 0 false; EAddTeam 7 "t1"; EFire 0] in
  let q5 := run [EAddTeam 1 "A"; EAddTeam 2 "B"; EAddTeam 3 "C";
                 EAddTeam 4 "D"; EAddTeam 5 "E"] in
  let q6 := apply q5 (ESettle 1 false) in
  (size (processingPool (run es)) ≤ MAX_CONCURRENT)%nat ∧
  runningTeams q5 = ["A"; "B"; "C"] ∧ waitingTeams q5 = ["D"; "E"] ∧
  runningTeams q6 = ["A"; "C"; "D"] ∧ waitingTeams q6 = ["E"].
Proof.
  assert (NoDup ["A"; "B"; "C"; "D"; "E"]) as Hnd by compute_done.
  assert (1 < 3)%nat as Hi by lia.
  pose proof (queue_concurrency_bound
                [EAddTeam 0 "t1"; ESettle 0 false; EAddTeam 7 "t1"; EFire 0]
                1 2 3 4 5 "A" "B" "C" "D" "E" 1 false Hnd Hi)
    as (_ & Hb & _ & H5r & H5w & H6r & H6w & _).
  split_and!; assumption.
Defined.

#[local] Transparent addTeam onProcessingComplete processNext startProcessing completionHead.

(** C5.  [addTeam] on a team that is already processing or already waiting
    changes nothing, so calling it twice then leaves the queue as it was: no
    pipeline is started and no entry is added.  From any state whatever, the
    second of two calls for the same team is a no-op, and the two calls
    together start at most one pipeline for it. *)
Theorem addTeam_idempotent (now1 now2 : Z) (tid : string) (q : t) :
  tid ∈ processingPool q ∨ tid ∈ waitingTeams q →
  addTeam now1 tid q = q ∧
  addTeam now2 tid (addTeam now1 tid q) = q ∧
  executions tid (addTeam now2 tid (addTeam now1 tid q)) = executions tid q ∧
  waitingTeams (addTeam now2 tid (addTeam now1 tid q)) = waitingTeams q ∧
  (∀ q0, addTeam now2 tid (addTeam now1 tid q0) = addTeam now1 tid q0) ∧
  (∀ q0, (executions tid (addTeam now2 tid (addTeam now1 tid q0))
          ≤ S (executions tid q0))%nat).
Proof.
  intros Hin.
  assert (∀ q0, addTeam now2 tid (addTeam now1 tid q0) = addTeam now1 tid q0) as Hidem.
  { intros q0. apply addTeam_present, addTeam_after. }
  rewrite Hidem, (addTeam_present now1 tid q Hin).
  split_and!; try done.
  intros q0. rewrite Hidem.
  destruct (decide (tid ∈ processingPool q0 ∨ tid ∈ waitingTeams q0)) as [Hp|Hp].
  { rewrite addTeam_present by done. lia. }
  rewrite addTeam_fresh by tauto.
  unfold executions, runningTeams.
  destruct (size (processingPool q0) <? MAX_CONCURRENT)%nat; [|simpl; lia].
  cbn [running updateStats startProcessing].
  rewrite fmap_app, filter_app, length_app. cbn [fmap list_fmap teamId].
  rewrite filter_cons_True by done. simpl. lia.
Qed.

Lemma addTeam_idempotent_witness :
  let q := run [EAddTeam 1 "A"; EAddTeam 2 "B"; EAddTeam 3 "C"; EAddTeam 4 "D"] in
  addTeam 5 "A" q = q ∧ addTeam 6 "D" (addTeam 5 "D" q) = q.
Proof.
  split.
  - apply (addTeam_idempotent 5 6 "A"). left. compute_done.
  - apply (addTeam_idempotent 5 6 "D"). right. compute_done.
Defined.

(** C10, evaluated where it fails.  A team whose pipeline failed sits in
    neither the pool nor the waiting list while its retry timer runs, so
    [addTeam] takes it for a new team; when the timer fires, [retryTeam]'s
    callback then puts a second item for it at the head of the waiting list
    without looking.  The same team ends up with two pipelines in flight, or
    in the pool and in the waiting list at once, or twice in the waiting
    list. *)
Theorem retry_readmission_duplicates :
  let two_runs :=
    run [EAddTeam 0 "A"; ESettle 0 false; EAddTeam 1 "A"; EFire 0] in
  let both :=
    run [EAddTeam 0 "A"; EAddTeam 0 "B"; EAddTeam 0 "C"; ESettle 0 false;
         EAddTeam 1 "A"; EFire 0] in
  let twice :=
    run [EAddTeam 0 "A"; EAddTeam 0 "B"; EAddTeam 0 "C"; ESettle 0 false;
         EAddTeam 1 "D"; EAddTeam 2 "A"; EFire 0] in
  (runningTeams two_runs = ["A"; "A"] ∧ executions "A" two_runs = 2%nat) ∧
  ("A" ∈ processingPool both ∧ waitingTeams both = ["A"]) ∧
  waitingTeams twice = ["A"; "A"].
Proof.
  split_and!; vm_compute; reflexivity.
Qed.

End queue_facts.

Section assigner_facts.
Import Assigner.

Lemma size_list_to_set_le (l : list string) :
  (size (list_to_set l : gset string) ≤ length l)%nat.
Proof.
  induction l as [|x l IH].
  - by rewrite list_to_set_nil, size_empty.
  - rewrite list_to_set_cons. cbn [length].
    pose proof (size_pool_insert x (list_to_set l)). lia.
Qed.

(** A [Set] built from an array has as many members as the array has
    entries only when no entry repeats. *)
Lemma size_list_to_set_NoDup (l : list string) :
  size (list_to_set l : gset string) = length l → NoDup l.
Proof.
  induction l as [|x l IH]; intros Hsz; [constructor|].
  rewrite list_to_set_cons in Hsz. cbn [length] in Hsz.
  pose proof (size_list_to_set_le l) as Hle.
  destruct (decide (x ∈ l)) as [Hin|Hin].
  - assert ({[x]} ∪ list_to_set l = (list_to_set l : gset string)) as Heq.
    { apply set_eq. intros y. rewrite elem_of_union, elem_of_singleton, elem_of_list_to_set.
      split; [intros [->|]; done|tauto]. }
    rewrite Heq in Hsz. lia.
  - constructor; [done|]. apply IH.
    rewrite size_union, size_singleton in Hsz; [lia|].
    apply disjoint_singleton_l. by rewrite elem_of_list_to_set.
Qed.

Lemma buildAssignments_inr team roles scores pairs acc tot out tot' :
  buildAssignments team roles scores pairs acc tot = inr (out, tot') →
  ∃ built, out = acc ++ built ∧
           Forall2 (entryOf team roles scores) pairs built ∧
           tot' = tot + matchingSum scores pairs.
Proof.
  revert acc tot. induction pairs as [|[i j] pairs IH]; intros acc tot Hb.
  - simpl in Hb. injection Hb as <- <-. exists []. rewrite app_nil_r.
    split_and!; [done|constructor|simpl; lia].
  - simpl in Hb.
    destruct (_ || _) eqn:Hbounds; [done|].
    destruct (cell scores i j) as [score|] eqn:Hcell; [|done].
    destruct (Team.applicants team !! Z.to_nat i) as [applicant|] eqn:Ha; [|done].
    destruct (roles !! Z.to_nat j) as [role|] eqn:Hr; [|done].
    apply IH in Hb as (built & -> & Hall & ->).
    eexists (_ :: built). rewrite <- app_assoc. split_and!; [done| |].
    + constructor; [|done]. unfold entryOf. simpl.
      apply orb_false_iff in Hbounds as [Hbounds Hj2].
      apply orb_false_iff in Hbounds as [Hbounds Hj1].
      apply orb_false_iff in Hbounds as [Hi1 Hi2].
      split_and!; [lia..|]. eauto 10.
    + simpl. rewrite Hcell. simpl. lia.
Qed.

Lemma Forall2_entryOf_applicantIds team roles scores pairs built :
  Forall2 (entryOf team roles scores) pairs built →
  Some <$> (Assignment.applicantId <$> built) =
    (λ p : Z * Z, Applicant.id <$> Team.applicants team !! Z.to_nat p.1) <$> pairs.
Proof.
  induction 1 as [|p a pairs built (_ & _ & ap & r & sc & Ha & _ & _ & ->) _ IH];
    [done|].
  simpl. rewrite Ha. simpl. by f_equal.
Qed.

Lemma Forall2_entryOf_roleIds team roles scores pairs built :
  Forall2 (entryOf team roles scores) pairs built →
  Some <$> (Assignment.roleId <$> built) =
    (λ p : Z * Z, RoleDefinition.id <$> roles !! Z.to_nat p.2) <$> pairs.
Proof.
  induction 1 as [|p a pairs built (_ & _ & ap & r & sc & _ & Hr & _ & ->) _ IH];
    [done|].
  simpl. rewrite Hr. simpl. by f_equal.
Qed.

(** Everything a success of [assignRoles] went through. *)
Lemma assignRoles_inr munkres now team roles sm ta :
  assignRoles munkres now team roles sm = inr ta →
  let n := length (Team.applicants team) in
  let scores := ScoreMatrix.scores sm in
  Team.isComplete team = true ∧ (n ≤ length roles)%nat ∧
  length scores = n ∧ Forall (λ row, length row = length roles) scores ∧
  ∃ pairs,
    munkres (costMatrix scores) = Returned (Some pairs) ∧
    length pairs = n ∧
    Forall2 (entryOf team roles scores) pairs (TeamAssignment.assignments ta) ∧
    TeamAssignment.totalScore ta = matchingSum scores pairs ∧
    size (list_to_set (Assignment.applicantId <$> TeamAssignment.assignments ta)
            : gset string) = n ∧
    size (list_to_set (Assignment.roleId <$> TeamAssignment.assignments ta)
            : gset string) = n ∧
    TeamAssignment.teamId ta = Team.id team ∧
    TeamAssignment.justificationsGenerated ta = false.
Proof.
  unfold assignRoles. intros H.
  destruct (Team.isComplete team) eqn:Hc; [|done]. simpl in H.
  destruct (length roles <? length (Team.applicants team))%nat eqn:Hroles; [done|].
  apply Nat.ltb_ge in Hroles.
  destruct (negb _ || negb _) eqn:Hshape; [done|].
  apply orb_false_iff in Hshape as [Hrows Hcols].
  apply negb_false_iff, Nat.eqb_eq in Hrows.
  apply negb_false_iff in Hcols. rewrite forallb_forall in Hcols.
  destruct (munkres _) as [[pairs|]|] eqn:Hm; [|done..].
  destruct (negb _) eqn:Hlen in H; [done|].
  apply negb_false_iff, Nat.eqb_eq in Hlen.
  destruct (buildAssignments _ _ _ _ _ _) as [e|[out tot]] eqn:Hb; [done|].
  apply buildAssignments_inr in Hb as (built & -> & Hall & ->).
  destruct (negb _) eqn:Hsa in H; [done|].
  apply negb_false_iff, Nat.eqb_eq in Hsa.
  destruct (negb _) eqn:Hsr in H; [done|].
  apply negb_false_iff, Nat.eqb_eq in Hsr.
  injection H as <-. simpl.
  split_and!; [done..| |].
  - apply Forall_forall. intros row Hrow. apply Nat.eqb_eq, Hcols.
    by apply list_elem_of_In.
  - exists pairs. split_and!; done.
Qed.




(** C2.  When [assignRoles] succeeds, the assignment has exactly one entry
    per team member, the applicant ids in it are pairwise distinct and so are
    the role ids (the two [Set]s have [teamSize] members), and it was built,
    pair by pair, from a matching all of whose indices are in bounds.  So a
    matching of the wrong length, with an index out of bounds, or picking an
    applicant or a role twice never yields a success: the result is a
    failure, nothing is dropped or duplicated silently. *)
Theorem assignRoles_bijection
    (munkres : list (list Z) → outcome (option (list (Z * Z))))
    (now : Z) (team : Team.t) (roles : list RoleDefinition.t)
    (sm : ScoreMatrix.t) :
  let n := length (Team.applicants team) in
  (∀ ta, assignRoles munkres now team roles sm = inr ta →
     let applicantIds := Assignment.applicantId <$> TeamAssignment.assignments ta in
     let roleIds := Assignment.roleId <$> TeamAssignment.assignments ta in
     length (TeamAssignment.assignments ta) = n ∧
     size (list_to_set applicantIds : gset string) = n ∧ NoDup applicantIds ∧
     size (list_to_set roleIds : gset string) = n ∧ NoDup roleIds ∧
     ∃ pairs, munkres (costMatrix (ScoreMatrix.scores sm)) = Returned (Some pairs) ∧
              length pairs = n ∧ Forall (inBounds team roles) pairs ∧
              Forall2 (entryOf team roles (ScoreMatrix.scores sm)) pairs
                      (TeamAssignment.assignments ta)) ∧
  (∀ pairs, munkres (costMatrix (ScoreMatrix.scores sm)) = Returned (Some pairs) →
     length pairs ≠ n ∨ ¬ Forall (inBounds team roles) pairs
     ∨ ¬ NoDup (pickedApplicants team pairs) ∨ ¬ NoDup (pickedRoles roles pairs) →
     ∃ e, assignRoles munkres now team roles sm = inl e).
Proof.
  intros n.
  assert (∀ ta, assignRoles munkres now team roles sm = inr ta →
     length (TeamAssignment.assignments ta) = n ∧
     size (list_to_set (Assignment.applicantId <$> TeamAssignment.assignments ta)
             : gset string) = n ∧
     NoDup (Assignment.applicantId <$> TeamAssignment.assignments ta) ∧
     size (list_to_set (Assignment.roleId <$> TeamAssignment.assignments ta)
             : gset string) = n ∧
     NoDup (Assignment.roleId <$> TeamAssignment.assignments ta) ∧
     ∃ pairs, munkres (costMatrix (ScoreMatrix.scores sm)) = Returned (Some pairs) ∧
              length pairs = n ∧ Forall (inBounds team roles) pairs ∧
              Forall2 (entryOf team roles (ScoreMatrix.scores sm)) pairs
                      (TeamAssignment.assignments ta)) as Hok.
  { intros ta Hta.
    apply assignRoles_inr in Hta
      as (_ & _ & _ & _ & pairs & Hm & Hlen & Hall & _ & Hsa & Hsr & _).
    assert (length (TeamAssignment.assignments ta) = n) as Hlen'.
    { rewrite <- (Forall2_length _ _ _ Hall). exact Hlen. }
    split_and!; try done.
    - apply size_list_to_set_NoDup. by rewrite length_fmap, Hlen'.
    - apply size_list_to_set_NoDup. by rewrite length_fmap, Hlen'.
    - exists pairs. split_and!; try done.
      clear -Hall. induction Hall as [|p a ps bs (?&?&_) _ IH]; constructor; done. }
  split; [exact Hok|].
  intros pairs Hm Hbad.
  destruct (assignRoles munkres now team roles sm) as [e|ta] eqn:Hres; [by exists e|].
  exfalso.
  destruct (Hok ta eq_refl) as (_ & _ & Hnda & _ & Hndr & pairs' & Hm' & Hlen & Hin & Hall).
  rewrite Hm in Hm'. injection Hm' as <-.
  destruct Hbad as [Hbad|[Hbad|[Hbad|Hbad]]]; [done..| |]; apply Hbad.
  - unfold pickedApplicants.
    rewrite <- (Forall2_entryOf_applicantIds _ _ _ _ _ Hall).
    apply NoDup_fmap; [|done]. by intros ?? [=].
  - unfold pickedRoles.
    rewrite <- (Forall2_entryOf_roleIds _ _ _ _ _ Hall).
    apply NoDup_fmap; [|done]. by intros ?? [=].
Qed.

Lemma assignRoles_bijection_witness :
  let team := Team.mk "T" [Applicant.mk "a1" "Ann"; Applicant.mk "a2" "Bo"] true 2 in
  let roles := [RoleDefinition.mk "r1" "lead" None; RoleDefinition.mk "r2" "driver" None;
                RoleDefinition.mk "r3" "cheer" None] in
  let sm := ScoreMatrix.mk "T" [[90; 10; 20]; [10; 90; 30]] 0 in
  let ta := TeamAssignment.mk "T"
              [Assignment.mk "a1" "r1" 90 None; Assignment.mk "a2" "r2" 90 None]
              180 7 false in
  assignRoles munkres_spec 7 team roles sm = inr ta ∧
  length (TeamAssignment.assignments ta) = 2%nat ∧
  NoDup (Assignment.applicantId <$> TeamAssignment.assignments ta) ∧
  NoDup (Assignment.roleId <$> TeamAssignment.assignments ta).
Proof.
  intros team roles sm ta.
  assert (assignRoles munkres_spec 7 team roles sm = inr ta) as Hta
    by (vm_compute; reflexivity).
  destruct (proj1 (assignRoles_bijection munkres_spec 7 team roles sm) ta Hta)
    as (Hlen & _ & Hnda & _ & Hndr & _).
  split_and!; assumption.
Defined.





Lemma injections_sound n cols σ :
  σ ∈ injections n cols → length σ = n ∧ NoDup σ ∧ ∀ x, x ∈ σ → x ∈ cols.
Proof.
  revert cols σ. induction n as [|n IH]; intros cols σ; simpl.
  - intros ->%list_elem_of_singleton. split_and!; [done|constructor|].
    by intros x ?%not_elem_of_nil.
  - intros (c & Hσ & Hc)%list_elem_of_bind.
    apply list_elem_of_fmap in Hσ as (σ' & -> & Hσ').
    apply IH in Hσ' as (Hlen & Hnd & Hin).
    split_and!; [simpl; by rewrite Hlen| |].
    + constructor; [|done]. intros Hc'%Hin%list_elem_of_filter. by destruct Hc'.
    + intros x [->|Hx%Hin%list_elem_of_filter]%elem_of_cons; [done|by destruct Hx].
Qed.

Lemma injections_nonempty n cols :
  (n ≤ length cols)%nat → NoDup cols → injections n cols ≠ [].
Proof.
  revert cols. induction n as [|n IH]; intros cols Hlen Hnd; [done|].
  destruct cols as [|c cols]; [simpl in Hlen; lia|].
  apply NoDup_cons in Hnd as [Hc Hnd]. simpl.
  rewrite filter_cons_False by (by intros ?).
  assert (filter (λ x, x ≠ c) cols = cols) as ->.
  { clear -Hc. induction cols as [|y cols IH]; [done|].
    apply not_elem_of_cons in Hc as [Hy Hc].
    rewrite filter_cons_True by done. by rewrite IH. }
  specialize (IH cols ltac:(simpl in Hlen; lia) Hnd).
  destruct (injections n cols); [done|]. done.
Qed.

Lemma argmin_elem {A} (f : A → Z) best l : argmin f best l ∈ best :: l.
Proof.
  revert best. induction l as [|y l IH]; intros best; simpl; [left|].
  specialize (IH (if f y <? f best then y else best)).
  apply elem_of_cons in IH as [->|Hin].
  - destruct (f y <? f best); [right; left|left].
  - by do 2 right.
Qed.

(** With at least as many columns as rows, the reference matcher returns
    the pairs of a one-to-one assignment. *)
Lemma munkres_spec_choice cost k :
  Forall (λ row, length row = k) cost → (length cost ≤ k)%nat →
  ∃ σ, isChoice (length cost) k σ ∧ munkres_spec cost = Returned (Some (pairsOf σ)).
Proof.
  intros Hcols Hle. unfold munkres_spec.
  set (k' := length (default [] (head cost))).
  assert (length cost ≤ k' ∧ k' ≤ k)%nat as [Hn Hk].
  { unfold k'. destruct cost as [|row cost]; [simpl; lia|].
    apply Forall_cons in Hcols as [Hrow _]. simpl in *. lia. }
  pose proof (injections_nonempty (length cost) (seqZ 0 (Z.of_nat k'))) as Hne.
  rewrite length_seqZ in Hne.
  specialize (Hne ltac:(lia) (NoDup_seqZ _ _)).
  destruct (injections _ _) as [|σ0 rest] eqn:Hinj; [done|].
  eexists. split; [|reflexivity].
  pose proof (argmin_elem (λ σ, matchingSum cost (pairsOf σ)) σ0 rest) as Hin.
  rewrite <- Hinj in Hin. apply injections_sound in Hin as (Hlen & Hnd & Hin).
  split_and!; [done..|]. apply Forall_forall. intros x Hx%Hin%elem_of_seqZ. lia.
Qed.





End assigner_facts.

Section health_checker_facts.
Import Store AssignmentHealthChecker.

#[local] Opaque AssignmentQueue.addTeam.

Lemma applyCalls_status rows sid r s :
  rows !! sid = Some r →
  applyCalls rows [UpdateSessionStatus sid s] !! sid =
    Some (mkSession (Store.id r) (teamId r) (roles r) (scoreMatrix r)
            (Store.assignment r) s (createdAt r)).
Proof.
  intros Hr. unfold applyCalls. simpl. rewrite Hr. apply lookup_insert_eq.
Qed.



End health_checker_facts.

Section processor_facts.
Import Store AssignmentProcessor.

Variable JSON_parse : string → outcome JS.json.
Variable llm : nat → Llm.response.
Variable munkres : list (list Z) → outcome (option (list (Z * Z))).

Lemma applyCalls_app rows cs1 cs2 :
  applyCalls rows (cs1 ++ cs2) = applyCalls (applyCalls rows cs1) cs2.
Proof. unfold applyCalls. apply foldl_app. Qed.

Lemma applyCall_is_Some rows c sid :
  is_Some (rows !! sid) → is_Some (applyCall rows c !! sid).
Proof.
  intros Hs. destruct c as [sid' st|sid' a sm| | | |]; simpl; try done.
  - destruct (rows !! sid') eqn:Hr; [|done].
    destruct (decide (sid' = sid)) as [->|Hne].
    + rewrite lookup_insert_eq. eauto.
    + by rewrite lookup_insert_ne.
  - destruct (rows !! sid') eqn:Hr; [|done].
    destruct (decide (sid' = sid)) as [->|Hne].
    + rewrite lookup_insert_eq. eauto.
    + by rewrite lookup_insert_ne.
Qed.

Lemma applyCalls_is_Some rows cs sid :
  is_Some (rows !! sid) → is_Some (applyCalls rows cs !! sid).
Proof.
  revert rows. induction cs as [|c cs IH]; intros rows Hs; [done|].
  apply IH. by apply applyCall_is_Some.
Qed.

(** Whatever came before, a status update that closes a list of calls
    decides the status of the row. *)
Lemma statusOf_snoc rows cs sid st :
  is_Some (rows !! sid) →
  statusOf (applyCalls rows (cs ++ [UpdateSessionStatus sid st])) sid = Some st.
Proof.
  intros Hs. rewrite applyCalls_app.
  destruct (applyCalls_is_Some rows cs sid Hs) as [r Hr].
  unfold statusOf. by rewrite (applyCalls_status _ _ r).
Qed.

Lemma lastStatus_snoc sid cs st :
  lastStatus sid (cs ++ [UpdateSessionStatus sid st]) = Some st.
Proof.
  unfold lastStatus. rewrite foldl_app. simpl. by rewrite String.eqb_refl.
Qed.

(** C6.  A run of [processTeamAssignment] that got as far as scoring and in
    which the scorer fails, or the assigner fails, or saving the assignment
    and the matrix fails, returns a failure, and the last thing it asks of
    the store is to set the session back to pending (which is then the
    status of the row); a run for a team that is not complete returns a
    failure and makes no call at all. *)
Theorem processTeamAssignment_failures
    (a : answers) (now : Z) (teamId : string) (w : Llm.world)
    (team : Team.t) (session : AssignmentSession) :
  let '(calls, result, _) :=
    processTeamAssignment JSON_parse llm munkres a now teamId w in
  let scored := Scorer.generateScoreMatrix JSON_parse llm now team (roles session) w in
  let assigned sm := Assigner.assignRoles munkres now team (roles session) sm in
  (reachesScoring a team session →
   (∃ e, scored.1 = inl e)
   ∨ (∃ sm e, scored.1 = inr sm ∧ assigned sm = inl e)
   ∨ (∃ sm ta, scored.1 = inr sm ∧ assigned sm = inr ta ∧ saveAssignmentData a = false) →
     (∃ f, result = inl f) ∧
     lastStatus (Store.id session) calls = Some pending ∧
     last calls = Some (UpdateSessionStatus (Store.id session) pending) ∧
     ∀ rows, is_Some (rows !! Store.id session) →
       statusOf (applyCalls rows calls) (Store.id session) = Some pending) ∧
  (JS.truthy (JS.JStr <$> OPENAI_API_KEY a) = true →
   getTeam a = Some team → Team.isComplete team = false →
     result = inl TeamNotComplete ∧ calls = []).
Proof.
  unfold processTeamAssignment, reachesScoring.
  destruct (JS.truthy (JS.JStr <$> OPENAI_API_KEY a)) eqn:Hkey; simpl.
  2:{ split; [intros (Hk & _); congruence|done]. }
  destruct (getTeam a) as [team'|] eqn:Hteam.
  2:{ split; [intros (_ & ? & _); done|done]. }
  destruct (Team.isComplete team') eqn:Hc; simpl.
  2:{ split; [|by intros _ [= <-] _].
      intros (_ & [= <-] & Hc' & _). congruence. }
  assert (∀ (r : failure + data) (cs : list call),
            true = true → Some team' = Some team → Team.isComplete team = false →
            r = inl TeamNotComplete ∧ cs = []) as Hnot
    by (intros ? ? _ [= <-]; congruence).
  set (sessionResult := match getAssignmentForTeam a with
                        | Some s => inr s | None => createAssignmentSession a end).
  assert (true = true ∧ Some team' = Some team ∧ Team.isComplete team = true
          ∧ (getAssignmentForTeam a = Some session
             ∨ getAssignmentForTeam a = None ∧ createAssignmentSession a = inr session)
          ∧ importsResolve a = true →
          team' = team ∧ sessionResult = inr session ∧ importsResolve a = true)
    as Hreach.
  { intros (_ & [= <-] & _ & Hsess & Himp). split_and!; [done| |done].
    unfold sessionResult. destruct Hsess as [->|[-> ->]]; done. }
  clearbody sessionResult.
  destruct sessionResult as [err|session'].
  { split; [|apply Hnot]. intros Hr. apply Hreach in Hr as (_ & [=] & _). }
  destruct (importsResolve a) eqn:Himp; cbn [negb].
  2:{ split; [|apply Hnot]. intros Hr. apply Hreach in Hr as (_ & _ & [=]). }
  destruct (Scorer.generateScoreMatrix JSON_parse llm now team' (roles session') w)
    as [[e|sm] w1] eqn:Hscore.
  - split; [|apply Hnot].
    intros Hr _. apply Hreach in Hr as (_ & [= <-] & _).
    split_and!; [by eexists| | |].
    + apply (lastStatus_snoc _ [_; _]).
    + done.
    + intros rows Hrows. by apply (statusOf_snoc rows [_; _]).
  - destruct (Assigner.assignRoles munkres now team' (roles session') sm)
      as [e|ta] eqn:Hassign.
    + split; [|apply Hnot].
      intros Hr _. apply Hreach in Hr as (_ & [= <-] & _).
      split_and!; [by eexists| | |].
      * apply (lastStatus_snoc _ [_; _; _; _]).
      * done.
      * intros rows Hrows. by apply (statusOf_snoc rows [_; _; _; _]).
    + destruct (saveAssignmentData a) eqn:Hsave; cbn [negb].
      * split; [|apply Hnot].
        intros Hr Hfail. apply Hreach in Hr as (<- & [= <-] & _).
        rewrite Hscore in Hfail. simpl in Hfail.
        destruct Hfail as [(e & [=])|[(sm' & e & [= <-] & He)|(sm' & ta' & _ & _ & [=])]].
        congruence.
      * split; [|apply Hnot].
        intros Hr _. apply Hreach in Hr as (_ & [= <-] & _).
        split_and!; [by eexists| | |].
        -- apply (lastStatus_snoc _ [_; _; _; _; _]).
        -- done.
        -- intros rows Hrows. by apply (statusOf_snoc rows [_; _; _; _; _]).
Qed.

(** Where [generateJustificationsBackground] does ask for the status
    complete: on every path but one, the justifier having succeeded in time
    and the store then returning no session. *)
Lemma generateJustificationsBackground_calls
    (a : backgroundAnswers) (sid : string) (team : Team.t)
    (roles : list RoleDefinition.t) (assignment : TeamAssignment.t)
    (w : Llm.world) :
  let justified :=
    JustifierRunner.generateJustificationsWithRetry JSON_parse llm team roles
      assignment 0 w in
  let calls :=
    (generateJustificationsBackground JSON_parse llm a sid team roles assignment w).1 in
  if importResolves a
     && bool_decide (is_Some (race (settlesAfter a) justified.1 ≫= λ r,
                                if r is inr u then Some u else None))
     && bool_decide (getAssignmentSession a = None)
  then calls = []
  else last calls = Some (UpdateSessionStatus sid complete)
       ∧ lastStatus sid calls = Some complete.
Proof.
  unfold generateJustificationsBackground.
  destruct (importResolves a); cbn [negb andb].
  2:{ cbn [fst]. split; [done|apply (lastStatus_snoc sid [])]. }
  destruct (JustifierRunner.generateJustificationsWithRetry _ _ _ _ _ _ _)
    as [result w'].
  cbn [fst]. destruct (race (settlesAfter a) result) as [[f|u]|]; cbn [mbind option_bind].
  - rewrite bool_decide_eq_false_2 by (by intros [? [=]]). cbn [andb fst].
    split; [done|apply (lastStatus_snoc sid [])].
  - rewrite bool_decide_eq_true_2 by eauto. cbn [andb].
    destruct (getAssignmentSession a).
    + rewrite bool_decide_eq_false_2 by done. cbn [fst].
      split; [done|apply (lastStatus_snoc sid [_])].
    + by rewrite bool_decide_eq_true_2.
  - rewrite bool_decide_eq_false_2 by (by intros [? [=]]). cbn [andb fst].
    split; [done|apply (lastStatus_snoc sid [])].
Qed.

(** The assigner is called only on the matrix of a scorer that succeeded. *)
Lemma scoring_failure_skips_assigner a now teamId w :
  let '(calls, result, _) :=
    processTeamAssignment JSON_parse llm munkres a now teamId w in
  (∃ e, result = inl (ScoringFailed e)) → ∀ tid, AssignRoles tid ∉ calls.
Proof.
  unfold processTeamAssignment.
  destruct (negb _); [by intros [? [=]]|].
  destruct (getTeam a) as [team|]; [|by intros [? [=]]].
  destruct (negb _); [by intros [? [=]]|].
  destruct (match getAssignmentForTeam a with
            | Some s => inr s | None => createAssignmentSession a end)
    as [err|session]; [by intros [? [=]]|].
  destruct (negb _); [by intros [? [=]]|].
  destruct (Scorer.generateScoreMatrix _ _ _ _ _ _) as [[e|sm] w1].
  - intros _ tid Hin.
    repeat (apply elem_of_cons in Hin as [Hin|Hin]; [discriminate|]).
    by apply not_elem_of_nil in Hin.
  - destruct (Assigner.assignRoles _ _ _ _ _); [by intros [? [=]]|].
    destruct (negb _); by intros [? [=]].
Qed.

Lemma scoring_failure_reported a now teamId w team session e :
  reachesScoring a team session →
  (Scorer.generateScoreMatrix JSON_parse llm now team (roles session) w).1 = inl e →
  (processTeamAssignment JSON_parse llm munkres a now teamId w).1.2
    = inl (ScoringFailed e).
Proof.
  intros (Hkey & Hteam & Hc & Hsess & Himp) Hscore.
  unfold processTeamAssignment. rewrite Hkey, Hteam, Hc, Himp. cbn [negb].
  assert (match getAssignmentForTeam a with
          | Some s => inr s | None => createAssignmentSession a end
          = inr session) as -> by (destruct Hsess as [->|[-> ->]]; done).
  destruct (Scorer.generateScoreMatrix JSON_parse llm now team (roles session) w)
    as [[e'|sm] w1]; simpl in *; congruence.
Qed.

End processor_facts.

Section scorer_facts.
Import JS Scorer.

Lemma validateCells_inr i j cells row :
  validateCells i j cells = inr row →
  cells = JNum <$> row ∧ Forall (λ score, 0 ≤ score ≤ 100) row.
Proof.
  revert j row. induction cells as [|c cells IH]; intros j row; simpl.
  - intros [= <-]. by split; [|constructor].
  - destruct c as [| |score| | |]; try done.
    destruct (_ || _) eqn:Hrange; [done|].
    apply orb_false_iff in Hrange as [?%Z.ltb_ge Hhi].
    rewrite Z.gtb_ltb in Hhi. apply Z.ltb_ge in Hhi.
    destruct (validateCells i (S j) cells) as [e|row'] eqn:Hrest; [done|].
    intros [= <-]. destruct (IH _ _ Hrest) as [-> Hall].
    split; [done|]. constructor; [lia|done].
Qed.

Lemma validateCells_valid i j row :
  Forall (λ score, 0 ≤ score ≤ 100) row →
  validateCells i j (JNum <$> row) = inr row.
Proof.
  revert j. induction row as [|score row IH]; intros j Hall; [done|].
  apply Forall_cons in Hall as [Hscore Hall]. simpl.
  replace (score <? 0) with false by (symmetry; apply Z.ltb_ge; lia).
  replace (score >? 100) with false
    by (symmetry; rewrite Z.gtb_ltb; apply Z.ltb_ge; lia).
  simpl. by rewrite IH.
Qed.

Lemma validateRows_inr k i rows m :
  validateRows k i rows = inr m →
  rows = (λ row, JArr (JNum <$> row)) <$> m ∧
  Forall (λ row, length row = k) m ∧
  Forall (Forall (λ score, 0 ≤ score ≤ 100)) m.
Proof.
  revert i m. induction rows as [|r rows IH]; intros i m; simpl.
  - intros [= <-]. split_and!; [done|constructor..].
  - destruct r as [| | | |cells|]; try done.
    destruct (negb (length cells =? k)%nat) eqn:Hlen; [done|].
    apply negb_false_iff, Nat.eqb_eq in Hlen.
    destruct (validateCells i 0 cells) as [e|row] eqn:Hcells; [done|].
    destruct (validateRows k (S i) rows) as [e|m'] eqn:Hrest; [done|].
    intros [= <-].
    apply validateCells_inr in Hcells as [-> Hrow].
    apply IH in Hrest as (-> & Hl & Hall).
    rewrite length_fmap in Hlen.
    split_and!; [done|by constructor..].
Qed.

Lemma validateRows_valid k i m :
  Forall (λ row, length row = k) m →
  Forall (Forall (λ score, 0 ≤ score ≤ 100)) m →
  validateRows k i ((λ row, JArr (JNum <$> row)) <$> m) = inr m.
Proof.
  revert i. induction m as [|row m IH]; intros i Hl Hall; [done|].
  apply Forall_cons in Hl as [Hrow Hl]. apply Forall_cons in Hall as [Hrange Hall].
  simpl. rewrite length_fmap, Hrow, Nat.eqb_refl. simpl.
  rewrite validateCells_valid by done. by rewrite IH.
Qed.

(** [validate] passes exactly the arrays of [teamSize] arrays of
    [rolesCount] numbers between 0 and 100, and hands them on as they are. *)
Lemma validate_inr n k parsed m :
  validate n k parsed = inr m ↔ parsed = matrixJson m ∧ validMatrix n k m.
Proof.
  unfold validate, matrixJson, validMatrix. split.
  - destruct parsed as [| | | |rows|]; try done.
    destruct (negb (length rows =? n)%nat) eqn:Hlen; [done|].
    apply negb_false_iff, Nat.eqb_eq in Hlen.
    intros (-> & Hl & Hall)%validateRows_inr.
    rewrite length_fmap in Hlen. done.
  - intros (-> & Hlen & Hl & Hall).
    rewrite length_fmap, Hlen, Nat.eqb_refl. simpl.
    by apply validateRows_valid.
Qed.

(** The error of [validateRows] is the one of the first row that breaks a
    rule: a row before [i] cannot be blamed when the rows before [i] pass. *)
Lemma validateRows_row_mismatch k i0 rows i r :
  rows !! i = Some r → (∀ cells, r = JArr cells → length cells ≠ k) →
  ∃ e, validateRows k i0 rows = inl e ∧
       (e = RowShape (i0 + i) k
        ∨ ∃ i', (i0 ≤ i' < i0 + i)%nat ∧ (e = RowShape i' k ∨ ∃ j, e = InvalidScore i' j)).
Proof.
  intros Hr Hbad. revert i0 i Hr.
  assert (∀ i j cells e, validateCells i j cells = inl e → ∃ j', e = InvalidScore i j')
    as Hcells.
  { intros i j cells. revert j. induction cells as [|c cells IH]; intros j e; [done|].
    simpl. destruct c as [| |score| | |]; try (intros [= <-]; by eexists).
    destruct (_ || _); [intros [= <-]; by eexists|].
    destruct (validateCells i (S j) cells) as [e'|] eqn:Hrest; [|done].
    intros [= <-]. by eapply IH. }
  induction rows as [|r0 rows IH]; intros i0 i Hr; [done|].
  destruct i as [|i]; simpl in Hr.
  - injection Hr as ->. simpl.
    destruct r as [| | | |cells|];
      try (eexists; split; [done|left; f_equal; lia]).
    specialize (Hbad cells eq_refl). apply Nat.eqb_neq in Hbad. rewrite Hbad. simpl.
    eexists; split; [done|left; f_equal; lia].
  - simpl.
    destruct r0 as [| | | |cells|];
      try (eexists; split; [done|right; exists i0; split; [lia|by left]]).
    destruct (negb (length cells =? k)%nat).
    { eexists; split; [done|right; exists i0; split; [lia|by left]]. }
    destruct (validateCells i0 0 cells) as [e|row] eqn:Hc.
    { destruct (Hcells _ _ _ _ Hc) as [j' ->].
      eexists; split; [done|right; exists i0; split; [lia|right; by eexists]]. }
    destruct (IH (S i0) i Hr) as (e & -> & He).
    exists e. split; [done|].
    destruct He as [->|(i' & Hi' & He)].
    + left. f_equal. lia.
    + right. exists i'. split; [lia|done].
Qed.

Lemma fromFirstOpen_Some s r :
  fromFirstOpen s = Some r →
  ∃ pre r', s = pre +:+ r ∧ r = String "["%char r' ∧ hasChar "["%char pre = false.
Proof.
  induction s as [|c s IH]; simpl; [done|].
  destruct (Ascii.eqb c "["%char) eqn:Hc.
  - intros [= <-]. apply Ascii.eqb_eq in Hc as ->. by exists "", s.
  - intros (pre & r' & -> & -> & Hpre)%IH.
    exists (String c pre), r'. simpl. by rewrite Hc, Hpre.
Qed.

Lemma throughLastClose_Some s r :
  throughLastClose s = Some r →
  ∃ r' post, s = r +:+ post ∧ r = r' +:+ "]" ∧ hasChar "]"%char post = false.
Proof.
  revert r. induction s as [|c s IH]; intros r; simpl; [done|].
  destruct (throughLastClose s) as [r0|] eqn:Hrest.
  - intros [= <-]. destruct (IH r0 eq_refl) as (r' & post & -> & -> & Hpost).
    by exists (String c r'), post.
  - destruct (Ascii.eqb c "]"%char) eqn:Hc; [|done].
    intros [= <-]. apply Ascii.eqb_eq in Hc as ->.
    exists "", s. split_and!; [done..|].
    clear IH. induction s as [|c s IH]; [done|]. simpl in *.
    destruct (throughLastClose s); [done|].
    destruct (Ascii.eqb c "]"%char); [done|]. by apply IH.
Qed.

(** The text handed to [JSON.parse] runs from the first opening bracket of
    the response to its last closing bracket. *)
Lemma matchJsonArray_Some content text :
  matchJsonArray content = Some text →
  ∃ pre post, content = pre +:+ text +:+ post ∧
              hasChar "["%char pre = false ∧ hasChar "]"%char post = false ∧
              (∃ t, text = String "["%char t) ∧ (∃ t, text = t +:+ "]").
Proof.
  unfold matchJsonArray.
  destruct (fromFirstOpen content) as [r|] eqn:Hopen; [|done]. simpl.
  intros Hclose.
  apply fromFirstOpen_Some in Hopen as (pre & r' & -> & -> & Hpre).
  apply throughLastClose_Some in Hclose as (t & post & Hr & -> & Hpost).
  exists pre, post. rewrite Hr. split_and!; [done..| |by exists t].
  destruct t as [|c t]; simpl in Hr; injection Hr as <-; by eexists.
Qed.

Lemma validateCells_inl i j0 cells e :
  validateCells i j0 cells = inl e →
  ∃ j, (j0 ≤ j < j0 + length cells)%nat ∧ e = InvalidScore i j.
Proof.
  revert j0. induction cells as [|c cells IH]; intros j0; [done|]. simpl.
  destruct c as [| |score| | |]; try (intros [= <-]; exists j0; split; [lia|done]).
  destruct (_ || _); [intros [= <-]; exists j0; split; [lia|done]|].
  destruct (validateCells i (S j0) cells) as [e'|] eqn:Hrest; [|done].
  intros [= <-]. destruct (IH _ Hrest) as (j & Hj & ->).
  exists j. split; [lia|done].
Qed.

Lemma validateRows_inl k i0 rows e :
  validateRows k i0 rows = inl e →
  ∃ i, (i0 ≤ i < i0 + length rows)%nat ∧
       (e = RowShape i k ∨ ∃ j, (j < k)%nat ∧ e = InvalidScore i j).
Proof.
  revert i0. induction rows as [|r rows IH]; intros i0; [done|]. simpl.
  destruct r as [| | | |cells|];
    try (intros [= <-]; exists i0; split; [lia|by left]).
  destruct (negb (length cells =? k)%nat) eqn:Hlen;
    [intros [= <-]; exists i0; split; [lia|by left]|].
  apply negb_false_iff, Nat.eqb_eq in Hlen.
  destruct (validateCells i0 0 cells) as [e'|row] eqn:Hcells.
  { intros [= <-]. apply validateCells_inl in Hcells as (j & Hj & ->).
    exists i0. split; [lia|]. right. exists j. split; [lia|done]. }
  destruct (validateRows k (S i0) rows) as [e'|] eqn:Hrest; [|done].
  intros [= <-]. destruct (IH _ Hrest) as (i & Hi & He).
  exists i. split; [lia|done].
Qed.

Lemma validate_inl n k parsed e :
  validate n k parsed = inl e → validationError n k e.
Proof.
  unfold validate, validationError.
  destruct parsed as [| | | |rows|]; try (intros [= <-]; by left).
  destruct (negb (length rows =? n)%nat) eqn:Hlen; [intros [= <-]; by left|].
  apply negb_false_iff, Nat.eqb_eq in Hlen.
  intros (i & Hi & He)%validateRows_inl. right.
  destruct He as [->|(j & Hj & ->)].
  - left. exists i. split; [lia|done].
  - right. exists i, j. split_and!; [lia|done..].
Qed.

Lemma quietBelow_21 : quietBelow 21 = true.
Proof. vm_compute. reflexivity. Qed.

(** For up to twenty members and twenty roles, what [validate] reports is
    never retried. *)
Lemma validationError_terminal n k e :
  (n ≤ 20)%nat → (k ≤ 20)%nat → validationError n k e →
  isRetryableError e = false.
Proof.
  intros Hn Hk He.
  pose proof quietBelow_21 as Hq. unfold quietBelow in Hq.
  rewrite forallb_forall in Hq.
  assert (∀ i j, (i ≤ 20)%nat → (j ≤ 20)%nat →
            isRetryableError (MatrixShape i j) = false
            ∧ isRetryableError (RowShape i j) = false
            ∧ isRetryableError (InvalidScore i j) = false) as Hall.
  { intros i j Hi Hj.
    specialize (Hq i). rewrite forallb_forall in Hq.
    specialize (Hq ltac:(apply in_seq; lia) j ltac:(apply in_seq; lia)).
    apply andb_true_iff in Hq as [Hq H3]. apply andb_true_iff in Hq as [H1 H2].
    apply negb_true_iff in H1, H2, H3. split_and!; assumption. }
  destruct He as [->|[(i & Hi & ->)|(i & j & Hi & Hj & ->)]].
  - apply (Hall n k); assumption.
  - apply (Hall i k); [lia|assumption].
  - apply (Hall i j); lia.
Qed.

Section attempts.

Variable JSON_parse : string → outcome json.
Variable llm : nat → Llm.response.

(** An attempt that returns a matrix read it off the response as it is. *)
Lemma attempt_inr now team roles w sm w' :
  attempt JSON_parse llm now team roles w = (inr (inr sm), w') →
  ∃ content jsonMatch,
    llm (Llm.requests w) = Llm.Ok (Some content) ∧
    matchJsonArray content = Some jsonMatch ∧
    JSON_parse jsonMatch = Returned (matrixJson (ScoreMatrix.scores sm)) ∧
    validMatrix (length (Team.applicants team)) (length roles)
      (ScoreMatrix.scores sm) ∧
    Llm.requests w' = S (Llm.requests w).
Proof.
  unfold attempt.
  destruct (negb (Team.isComplete team)); [done|].
  destruct (_ <? _)%nat; [done|].
  destruct (llm (Llm.requests w)) as [| |content] eqn:Hllm; [done..|].
  destruct (negb (truthy (JStr <$> content))) eqn:Htruthy; [done|].
  destruct content as [content|]; [|done]. simpl.
  destruct (matchJsonArray content) as [jsonMatch|] eqn:Hmatch; [|done].
  destruct (JSON_parse jsonMatch) as [parsed|] eqn:Hparse; [|done].
  destruct (validate _ _ parsed) as [e|scores] eqn:Hvalid; [done|].
  intros [= <- <-]. simpl.
  apply validate_inr in Hvalid as [-> Hvalid].
  exists content, jsonMatch. done.
Qed.

(** An attempt on a response whose array does not pass throws what
    [validate] reports. *)
Lemma attempt_invalid now team roles w content jsonMatch parsed e :
  Team.isComplete team = true →
  (length (Team.applicants team) ≤ length roles)%nat →
  llm (Llm.requests w) = Llm.Ok (Some content) →
  matchJsonArray content = Some jsonMatch →
  JSON_parse jsonMatch = Returned parsed →
  validate (length (Team.applicants team)) (length roles) parsed = inl e →
  attempt JSON_parse llm now team roles w =
    (inl e, Llm.mkWorld (S (Llm.requests w)) (Llm.slept w)).
Proof.
  intros Hc Hroles Hllm Hmatch Hparse Hvalid. unfold attempt.
  rewrite Hc. simpl. apply Nat.ltb_ge in Hroles. rewrite Hroles, Hllm.
  destruct content as [|c content]; [done|]. simpl in *.
  by rewrite Hmatch, Hparse, Hvalid.
Qed.

(** A success of the whole function is the success of the attempt it ended
    on. *)
Lemma withRetries_inr left now team roles retryCount w sm w' :
  withRetries JSON_parse llm left now team roles retryCount w = (inr sm, w') →
  ∃ w0, attempt JSON_parse llm now team roles w0 = (inr (inr sm), w').
Proof.
  revert retryCount w. induction left as [|left IH]; intros retryCount w; simpl.
  - destruct (attempt JSON_parse llm now team roles w) as [[e|[f|sm']] w1] eqn:Ha.
    + by destruct (isRetryableError e).
    + done.
    + intros [= <- <-]. by exists w.
  - destruct (attempt JSON_parse llm now team roles w) as [[e|[f|sm']] w1] eqn:Ha.
    + destruct (isRetryableError e); [apply IH|done].
    + done.
    + intros [= <- <-]. by exists w.
Qed.

(** An error that is not classified as retryable ends the run at once. *)
Lemma withRetries_terminal left now team roles retryCount w e w' :
  attempt JSON_parse llm now team roles w = (inl e, w') →
  isRetryableError e = false →
  withRetries JSON_parse llm left now team roles retryCount w =
    (inl (FailedAfter retryCount e), w').
Proof. intros Ha He. destruct left; simpl; by rewrite Ha, He. Qed.

End attempts.

End scorer_facts.

Section justifier_facts.
Import JS JustifierService.

Variable JSON_parse : string → outcome json.
Variable llm : nat → Llm.response.

Lemma collect_inr assignment names entries m m' :
  collect assignment names entries m = inr m' → Forall shortText entries.
Proof.
  revert m. induction entries as [|entry entries IH]; intros m H; [constructor|].
  simpl in H.
  destruct (getProp entry "applicantId") as [aid|]; [|done].
  destruct (getProp entry "justification") as [text|] eqn:Htext; [|done].
  destruct (negb (truthy aid) || negb (truthy text)); [done|].
  destruct text as [[| | |text| |]|]; try done.
  destruct (500 <? String.length text)%nat eqn:Hlen; [done|].
  apply Nat.ltb_ge in Hlen.
  constructor; [by exists text|by eapply IH].
Qed.

Lemma updateAssignments_inr m assignments out :
  updateAssignments m assignments = inr out →
  Forall2 (justifiedFrom m) assignments out.
Proof.
  revert out. induction assignments as [|a assignments IH]; intros out H; simpl in H.
  - injection H as <-. constructor.
  - destruct (m !! Assignment.applicantId a) as [text|] eqn:Hm; [|done].
    destruct (String.eqb text "") eqn:Hempty; [done|].
    apply String.eqb_neq in Hempty.
    destruct (updateAssignments m assignments) as [e|rest]; [done|].
    injection H as <-. constructor; [|by apply IH].
    by exists text.
Qed.

(** [generateJustifications] returns a result on every path. *)
Lemma generateJustifications_returns team roles assignment w :
  ∃ result,
    (generateJustifications JSON_parse llm team roles assignment w).1 = inr result.
Proof.
  unfold generateJustifications.
  destruct (attempt JSON_parse llm team roles assignment w) as [[e|u] w']; eauto.
Qed.

(** So the handler of [generateJustificationsWithRetry] has nothing to
    handle: the wrapper makes the one call and passes its result on. *)
Lemma withRetries_passes_on left team roles assignment retryCount w :
  JustifierRunner.withRetries JSON_parse llm left team roles assignment retryCount w =
    match generateJustifications JSON_parse llm team roles assignment w with
    | (inr result, w') => (result, w')
    | (inl e, w') => (inl (FailedAfter retryCount e), w')
    end
  ∧ (Llm.requests
       (JustifierRunner.withRetries JSON_parse llm left team roles assignment
          retryCount w).2 ≤ S (Llm.requests w))%nat
  ∧ Llm.slept
      (JustifierRunner.withRetries JSON_parse llm left team roles assignment
         retryCount w).2 = Llm.slept w.
Proof.
  destruct (generateJustifications_returns team roles assignment w) as [result Hres].
  assert (JustifierRunner.withRetries JSON_parse llm left team roles assignment
            retryCount w =
          match generateJustifications JSON_parse llm team roles assignment w with
          | (inr result, w') => (result, w')
          | (inl e, w') => (inl (FailedAfter retryCount e), w')
          end) as Heq.
  { destruct left; cbn [JustifierRunner.withRetries];
      destruct (generateJustifications JSON_parse llm team roles assignment w)
        as [[e|r] w']; cbn [fst] in Hres; first [discriminate|reflexivity]. }
  rewrite Heq. split; [done|]. clear Heq Hres result.
  assert ((attempt JSON_parse llm team roles assignment w).2 = w
          ∨ (attempt JSON_parse llm team roles assignment w).2
            = Llm.mkWorld (S (Llm.requests w)) (Llm.slept w)) as Hw.
  { unfold attempt. repeat case_match; auto. }
  unfold generateJustifications.
  destruct (attempt JSON_parse llm team roles assignment w) as [[e|u] w'];
    cbn [fst snd] in *; destruct Hw as [->| ->]; cbn [Llm.requests Llm.slept];
    split; (lia || done).
Qed.

(** The first half of C8: a success of the team-level call means that every
    entry of the response carried a string of at most 500 characters and that
    every entry of the assignment got a non-empty justification; in any other
    case the result is a failure, which carries no assignment at all. *)
Lemma generateJustifications_all_or_nothing team roles assignment w updated w' :
  generateJustifications JSON_parse llm team roles assignment w
    = (inr (inr updated), w') →
  ∃ content jsonMatch entries m,
    llm (Llm.requests w) = Llm.Ok (Some content) ∧
    matchJsonArray content = Some jsonMatch ∧
    JSON_parse jsonMatch = Returned (JArr entries) ∧
    length entries = length (TeamAssignment.assignments assignment) ∧
    Forall shortText entries ∧
    Forall2 (justifiedFrom m) (TeamAssignment.assignments assignment)
            (TeamAssignment.assignments updated) ∧
    TeamAssignment.justificationsGenerated updated = true.
Proof.
  unfold generateJustifications.
  destruct (attempt JSON_parse llm team roles assignment w) as [[e|u] w1] eqn:Ha;
    [done|].
  intros [= <- <-]. unfold attempt in Ha.
  destruct (negb (_ =? _)%nat); [done|].
  destruct (negb (promptBuilds _ _ _)); [done|].
  destruct (llm (Llm.requests w)) as [| |content] eqn:Hllm; [done..|].
  destruct (negb (truthy (JStr <$> content))) eqn:Htruthy; [done|].
  destruct content as [content|]; [|done]. simpl in Ha.
  destruct (matchJsonArray content) as [jsonMatch|] eqn:Hmatch; [|done].
  destruct (JSON_parse jsonMatch) as [parsed|] eqn:Hparse; [|done].
  destruct parsed as [| | | |entries|]; try done.
  destruct (negb (length entries =? _)%nat) eqn:Hlen; [done|].
  apply negb_false_iff, Nat.eqb_eq in Hlen.
  destruct (collect _ _ _ _) as [e|m] eqn:Hcollect; [done|].
  destruct (updateAssignments _ _) as [e|out] eqn:Hupdate; [done|].
  injection Ha as <- <-.
  exists content, jsonMatch, entries, m. simpl.
  split_and!; try done.
  - by eapply collect_inr.
  - by apply updateAssignments_inr.
Qed.

End justifier_facts.

Section pipeline_runs.
Import JS Store AssignmentProcessor Examples.

(** C1, evaluated where it fails.  The justifier succeeds well within the
    two minutes, and the store, asked for the session again, returns none (as
    [getAssignmentSession] does on any database error): the background task
    ends without a single call, and the row is still in status justifying. *)
Theorem background_leaves_justifying :
  let parse := λ _ : string, Returned justificationsJson in
  let llm := λ _ : nat, Llm.Ok (Some justificationsText) in
  let a := mkBackgroundAnswers true (Some 3000) None in
  let rows : gmap string AssignmentSession := {[ "s1" := session1 justifying ]} in
  let justified :=
    JustifierRunner.generateJustificationsWithRetry parse llm team2 roles3
      assignment2 0 Llm.start in
  let calls :=
    (generateJustificationsBackground parse llm a "s1" team2 roles3 assignment2
       Llm.start).1 in
  (∃ updated, justified.1 = inr updated) ∧
  calls = [] ∧
  statusOf (applyCalls rows calls) "s1" = Some justifying.
Proof.
  split_and!.
  - eexists. vm_compute. reflexivity.
  - vm_compute. reflexivity.
  - vm_compute. reflexivity.
Qed.

(** C8, evaluated where it fails.  The service answers the first request
    with a 503 and would answer the second properly.
    [generateJustifications] catches the error itself and returns a failure,
    so [generateJustificationsWithRetry] has nothing to catch: it returns
    that failure after the one request, without a delay, although the message
    is one it classifies as retryable and no retry has been used. *)
Theorem justifier_retry_never_runs :
  let parse := λ _ : string, Returned justificationsJson in
  let llm := λ n : nat,
    match n with
    | O => Llm.NotOk 503 "Service Unavailable"
    | S _ => Llm.Ok (Some justificationsText)
    end in
  let e := JustifierService.ApiError 503 "Service Unavailable" in
  let run :=
    JustifierRunner.generateJustificationsWithRetry parse llm team2 roles3
      assignment2 0 Llm.start in
  run = (inl (JustifierService.Failed e), Llm.mkWorld 1 []) ∧
  JustifierRunner.isRetryableError e = true ∧
  (0 < JustifierRunner.MAX_RETRIES)%nat ∧
  ∃ updated,
    (JustifierService.generateJustifications parse llm team2 roles3 assignment2
       run.2).1 = inr (inr updated).
Proof.
  split_and!.
  - vm_compute. reflexivity.
  - vm_compute. reflexivity.
  - unfold JustifierRunner.MAX_RETRIES. lia.
  - eexists. vm_compute. reflexivity.
Qed.

(** C7 as the spec words it fails on a response with a second pair of
    brackets after the matrix.  The first bracket-delimited array of the
    text is a valid 1 x 1 matrix, but what goes to [JSON.parse] is the text up
    to the last closing bracket, which is not JSON: scoring fails. *)
Lemma scorer_parses_greedy_match :
  let content := "[[50]] and [1]" in
  let parse := λ text : string,
    if String.eqb text "[[50]]" then Returned (Scorer.matrixJson [[50]])
    else Thrown "SyntaxError: Unexpected non-whitespace character after JSON" in
  let team := Team.mk "T" [Applicant.mk "a1" "Ann"] true 1 in
  let roles := [RoleDefinition.mk "r1" "lead" None] in
  firstBracketDelimited content = Some "[[50]]" ∧
  (∃ m, parse "[[50]]" = Returned (Scorer.matrixJson m) ∧ Scorer.validate 1 1 (Scorer.matrixJson m) = inr m) ∧
  matchJsonArray content = Some "[[50]] and [1]" ∧
  (Scorer.generateScoreMatrix parse (λ _, Llm.Ok (Some content)) 0 team roles
     Llm.start).1
  = inl (Scorer.FailedAfter 0
           (Scorer.ParseFailed
              "SyntaxError: Unexpected non-whitespace character after JSON")).
Proof.
  split_and!; [vm_compute; reflexivity| |vm_compute; reflexivity..].
  exists [[50]]. split; vm_compute; reflexivity.
Qed.

(** Two more runs that the amended statement of C7 accounts for.  The
    error reported is the first one met: a cell out of range in the first row
    hides the short second row.  And a shape error is retried when its
    message happens to contain one of the keywords: with 500 roles, "Row 0
    must have exactly 500 scores" reads as a server error, the request is made
    again after a second, and the run succeeds on the next response. *)
Lemma validate_reports_first_violation :
  Scorer.validate 2 2 (JArr [JArr [JNum 150; JNum 2]; JArr [JNum 1]])
  = inl (Scorer.InvalidScore 0 0).
Proof. reflexivity. Qed.

Lemma shape_error_can_be_retried :
  let parse := λ text : string,
    if String.eqb text "[[1]]" then Returned (JArr [JArr [JNum 1]])
    else Returned (Scorer.matrixJson [replicate 500 50]) in
  let llm := λ n : nat,
    match n with
    | O => Llm.Ok (Some "[[1]]")
    | S _ => Llm.Ok (Some "[[50, and so on]]")
    end in
  Scorer.isRetryableError (Scorer.RowShape 0 500) = true ∧
  (Scorer.attempt parse llm 0 team1 roles500 Llm.start).1
    = inl (Scorer.RowShape 0 500) ∧
  Scorer.generateScoreMatrix parse llm 0 team1 roles500 Llm.start
    = (inr (ScoreMatrix.mk "T" [replicate 500 50] 0), Llm.mkWorld 2 [1000]).
Proof. split_and!; vm_compute; reflexivity. Qed.

(** C7, as amended.  What [generateScoreMatrix] parses is the text from the
    first opening bracket of the response to its last closing bracket.
    [validate] passes exactly the arrays of [teamSize] rows of [rolesCount]
    numbers between 0 and 100 and hands them on unchanged; on anything else
    the attempt throws, the error being that of the first violation met row
    by row, so the shape error of a row of the wrong length unless an earlier
    row is at fault.  The error ends the run at once unless its message is
    classified as retryable, which it never is for up to twenty members and
    roles.  A success carries the parsed matrix as it came; and a run of
    [processTeamAssignment] whose scoring fails reports that failure and
    never calls the assigner. *)
Theorem scorer_validation
    (JSON_parse : string → outcome json) (llm : nat → Llm.response)
    (munkres : list (list Z) → outcome (option (list (Z * Z)))) :
  (∀ content text, matchJsonArray content = Some text →
     ∃ pre post, content = pre +:+ text +:+ post ∧
                 hasChar "["%char pre = false ∧ hasChar "]"%char post = false ∧
                 (∃ t, text = String "["%char t) ∧ (∃ t, text = t +:+ "]")) ∧
  (∀ n k parsed m,
     Scorer.validate n k parsed = inr m ↔
     parsed = Scorer.matrixJson m ∧ Scorer.validMatrix n k m) ∧
  (∀ now team roles w content text parsed,
     Team.isComplete team = true →
     (length (Team.applicants team) ≤ length roles)%nat →
     llm (Llm.requests w) = Llm.Ok (Some content) →
     matchJsonArray content = Some text →
     JSON_parse text = Returned parsed →
     (∀ m, parsed = Scorer.matrixJson m →
           ¬ Scorer.validMatrix (length (Team.applicants team)) (length roles) m) →
     ∃ e, (Scorer.attempt JSON_parse llm now team roles w).1 = inl e ∧
          Scorer.validationError (length (Team.applicants team)) (length roles) e) ∧
  (∀ n k rows i r,
     length rows = n → rows !! i = Some r →
     (∀ cells, r = JArr cells → length cells ≠ k) →
     ∃ e, Scorer.validate n k (JArr rows) = inl e ∧
          (e = Scorer.RowShape i k
           ∨ ∃ i', (i' < i)%nat ∧
                   (e = Scorer.RowShape i' k ∨ ∃ j, e = Scorer.InvalidScore i' j))) ∧
  (∀ now team roles retryCount w e w',
     Scorer.attempt JSON_parse llm now team roles w = (inl e, w') →
     Scorer.isRetryableError e = false →
     Scorer.generateScoreMatrixWithRetry JSON_parse llm now team roles retryCount w
       = (inl (Scorer.FailedAfter retryCount e), w')) ∧
  (∀ n k e, (n ≤ 20)%nat → (k ≤ 20)%nat → Scorer.validationError n k e →
            Scorer.isRetryableError e = false) ∧
  (∀ now team roles w sm w',
     Scorer.generateScoreMatrix JSON_parse llm now team roles w = (inr sm, w') →
     ∃ w0 content text,
       Scorer.attempt JSON_parse llm now team roles w0 = (inr (inr sm), w') ∧
       llm (Llm.requests w0) = Llm.Ok (Some content) ∧
       matchJsonArray content = Some text ∧
       JSON_parse text = Returned (Scorer.matrixJson (ScoreMatrix.scores sm)) ∧
       Scorer.validMatrix (length (Team.applicants team)) (length roles)
         (ScoreMatrix.scores sm)) ∧
  (∀ a now teamId w team session e,
     reachesScoring a team session →
     (Scorer.generateScoreMatrix JSON_parse llm now team (roles session) w).1
       = inl e →
     let '(calls, result, _) :=
       processTeamAssignment JSON_parse llm munkres a now teamId w in
     result = inl (ScoringFailed e) ∧ ∀ tid, AssignRoles tid ∉ calls).
Proof.
  split_and!.
  - apply matchJsonArray_Some.
  - apply validate_inr.
  - intros now team roles w content text parsed Hc Hroles Hllm Hmatch Hparse Hbad.
    destruct (Scorer.validate (length (Team.applicants team)) (length roles) parsed)
      as [e|m] eqn:Hvalid.
    + exists e. split; [|by eapply validate_inl].
      by rewrite (attempt_invalid JSON_parse llm now team roles w content text parsed e).
    + apply validate_inr in Hvalid as [-> Hvalid]. by destruct (Hbad m eq_refl).
  - intros n k rows i r Hlen Hr Hbad. unfold Scorer.validate.
    rewrite Hlen, Nat.eqb_refl. cbn [negb].
    destruct (validateRows_row_mismatch k 0 rows i r Hr Hbad) as (e & He & Hkind).
    exists e. split; [done|].
    destruct Hkind as [->|(i' & Hi' & Hkind)]; [by left|].
    right. exists i'. split; [lia|done].
  - intros now team roles retryCount w e w' Ha He.
    by apply withRetries_terminal.
  - apply validationError_terminal.
  - intros now team roles w sm w' Hrun.
    apply withRetries_inr in Hrun as [w0 Ha].
    destruct (attempt_inr _ _ _ _ _ _ _ _ Ha) as (content & text & ? & ? & ? & ? & _).
    by exists w0, content, text.
  - intros a now teamId w team session e Hreach Hscore.
    pose proof (scoring_failure_reported JSON_parse llm munkres a now teamId w
                  team session e Hreach Hscore) as Hres.
    pose proof (scoring_failure_skips_assigner JSON_parse llm munkres a now teamId w)
      as Hskip.
    destruct (processTeamAssignment JSON_parse llm munkres a now teamId w)
      as [[calls result] w1].
    simpl in Hres. subst result. split; [done|]. apply Hskip. by eexists.
Qed.

Lemma scorer_validation_witness :
  let parse := λ _ : string, Returned shortRowJson in
  let llm := λ _ : nat, Llm.Ok (Some shortRowText) in
  (∃ e, Scorer.validate 2 3 shortRowJson = inl e ∧
        (e = Scorer.RowShape 1 3
         ∨ ∃ i', (i' < 1)%nat ∧
                 (e = Scorer.RowShape i' 3 ∨ ∃ j, e = Scorer.InvalidScore i' j))) ∧
  let '(calls, result, _) :=
    processTeamAssignment parse llm Assigner.munkres_spec answers1 0 "T" Llm.start in
  result = inl (ScoringFailed (Scorer.FailedAfter 0 (Scorer.RowShape 1 3))) ∧
  ∀ tid, AssignRoles tid ∉ calls.
Proof.
  intros parse llm.
  destruct (scorer_validation parse llm Assigner.munkres_spec)
    as (_ & _ & _ & Hrow & _ & _ & _ & Hgate).
  split.
  - apply (Hrow 2%nat 3%nat _ 1%nat (JArr [JNum 10; JNum 90])).
    + reflexivity.
    + reflexivity.
    + intros cells [= <-]. simpl. lia.
  - apply (Hgate answers1 0 "T" Llm.start team2 (session1 pending)).
    + repeat split. by left.
    + vm_compute. reflexivity.
Defined.

Lemma processTeamAssignment_failures_witness :
  let parse := λ _ : string, Returned shortRowJson in
  let llm := λ _ : nat, Llm.Ok (Some shortRowText) in
  let '(calls, result, _) :=
    processTeamAssignment parse llm Assigner.munkres_spec answers1 0 "T" Llm.start in
  (∃ f, result = inl f) ∧ lastStatus "s1" calls = Some pending ∧
  last calls = Some (UpdateSessionStatus "s1" pending).
Proof.
  intros parse llm.
  pose proof (processTeamAssignment_failures parse llm Assigner.munkres_spec
                answers1 0 "T" Llm.start team2 (session1 pending)) as H.
  destruct (processTeamAssignment parse llm Assigner.munkres_spec answers1 0 "T"
              Llm.start) as [[calls result] w'].
  destruct H as [H _].
  destruct H as (Hf & Hlast & Hcall & _).
  - repeat split. by left.
  - left. eexists. vm_compute. reflexivity.
  - split_and!; assumption.
Defined.

End pipeline_runs.

(** ** The queue beyond the claims: admin calls, retry budget, accounting *)

Section queue_admin_facts.
Import AssignmentQueue.

Implicit Types (q : t) (tid : string) (item : QueueItem).

Lemma forceRetryTeam_pool_le now tid q :
  (size (processingPool q) ≤ MAX_CONCURRENT)%nat →
  (size (processingPool (forceRetryTeam now tid q).2) ≤ MAX_CONCURRENT)%nat.
Proof.
  intros Hb. unfold forceRetryTeam. cbn [snd]. apply addTeam_bound.
  assert (size (processingPool
            (if decide (tid ∈ processingPool q)
             then mk (processingPool q ∖ {[ tid ]}) (waitingQueue q) (stats q)
                     (running q) (timers q)
             else q)) ≤ MAX_CONCURRENT)%nat as Hb1.
  { destruct (decide _); [|done]. cbn [processingPool].
    pose proof (size_pool_delete tid (processingPool q)). lia. }
  destruct (list_find _ _) as [[queueIndex ?]|]; done.
Qed.

Lemma applyAdmin_bound q e :
  (size (processingPool q) ≤ MAX_CONCURRENT)%nat →
  (size (processingPool (applyAdmin q e)) ≤ MAX_CONCURRENT)%nat.
Proof.
  intros Hb. destruct e as [e|now tid|]; cbn [applyAdmin].
  - by apply apply_bound.
  - by apply forceRetryTeam_pool_le.
  - change (size (∅ : gset string) ≤ MAX_CONCURRENT)%nat. rewrite size_empty.
    unfold MAX_CONCURRENT. lia.
Qed.

(** X1.  The pool never holds more than [MAX_CONCURRENT] teams, whatever
    sequence of [addTeam] calls, completions, retry timers, [processNext]
    steps, [forceRetryTeam] and [clearQueue] calls leads to the state. *)
Theorem admin_concurrency_bound (es : list adminEvent) :
  (size (processingPool (runAdmin es)) ≤ MAX_CONCURRENT)%nat.
Proof.
  unfold runAdmin. induction es as [|e es IH] using rev_ind.
  - change (size (∅ : gset string) ≤ MAX_CONCURRENT)%nat. rewrite size_empty.
    unfold MAX_CONCURRENT. lia.
  - rewrite foldl_app. by apply applyAdmin_bound.
Qed.


Lemma Forall_delete_at {A} (P : A → Prop) (l : list A) i :
  Forall P l → Forall P (delete i l).
Proof.
  intros Hl. revert i. induction Hl as [|x l Hx Hl IH]; intros [|i]; cbn; auto.
Qed.

Lemma budget_iff q :
  withinRetryBudget q ↔
  Forall itemWithinBudget (running q) ∧ Forall itemWithinBudget (waitingQueue q) ∧
  Forall itemWithinBudget (snd <$> timers q) ∧ Forall timerAsArmed (timers q).
Proof.
  unfold withinRetryBudget, items. rewrite !Forall_app. tauto.
Qed.

Lemma budget_processNext q : withinRetryBudget q → withinRetryBudget (processNext q).
Proof.
  rewrite !budget_iff. intros (Hr & Hw & Ht & Htm). unfold processNext.
  destruct (_ || _); [done|].
  destruct (waitingQueue q) as [|nextItem rest] eqn:E; [by rewrite E|].
  apply Forall_cons in Hw as [Hn Hw]. cbn.
  split_and!; try done. apply Forall_app. split; [done|]. by apply Forall_singleton.
Qed.

Lemma budget_updateStats q : withinRetryBudget q → withinRetryBudget (updateStats q).
Proof. done. Qed.

Lemma budget_completionHead tid success orig q :
  withinRetryBudget q → withinRetryBudget (completionHead tid success orig q).
Proof.
  rewrite !budget_iff. intros (Hr & Hw & Ht & Htm). unfold completionHead.
  destruct success; [done|]. destruct orig as [item|]; [|done].
  destruct (retryCount item <? MAX_RETRIES)%nat eqn:Hlt; [|done].
  apply Nat.ltb_lt in Hlt. cbn. rewrite fmap_app, !Forall_app, !Forall_singleton.
  unfold itemWithinBudget, timerAsArmed, MAX_RETRIES in *. cbn.
  split_and!; try done; [apply Forall_singleton; cbn; lia|lia|].
  f_equal. f_equal. lia.
Qed.

Lemma budget_addTeam now tid q : withinRetryBudget q → withinRetryBudget (addTeam now tid q).
Proof.
  rewrite !budget_iff. intros (Hr & Hw & Ht & Htm). unfold addTeam.
  destruct (decide _); [done|]. destruct (existsb _ _); [done|].
  assert (itemWithinBudget (mkQueueItem tid now 0 now)) as Hnew
    by (unfold itemWithinBudget, MAX_RETRIES; cbn; lia).
  destruct (_ <? _)%nat; cbn; rewrite ?Forall_app, ?Forall_singleton; done.
Qed.

Lemma budget_drop_running i q :
  withinRetryBudget q →
  withinRetryBudget (mk (processingPool q) (waitingQueue q) (stats q)
                        (delete i (running q)) (timers q)).
Proof.
  rewrite !budget_iff. intros (Hr & Hw & Ht & Htm). cbn. split_and!; try done.
  by apply Forall_delete_at.
Qed.

Lemma budget_apply q e : withinRetryBudget q → withinRetryBudget (apply q e).
Proof.
  intros Hq. destruct e as [now tid|i success|i success|i|]; cbn [apply].
  - by apply budget_addTeam.
  - unfold settle, settleWith. destruct (running q !! i) as [item|]; [|done].
    unfold onProcessingComplete.
    by apply budget_processNext, budget_updateStats, budget_completionHead,
             budget_drop_running.
  - unfold settleWith. destruct (running q !! i) as [item|]; [|done].
    by apply budget_completionHead, budget_drop_running.
  - unfold fire. destruct (timers q !! i) as [[d item]|] eqn:Hi; [|done].
    unfold retryCallback. apply budget_processNext.
    apply budget_iff in Hq as (Hr & Hw & Ht & Htm). apply budget_iff. cbn.
    split_and!; try done.
    + apply Forall_cons. split; [|done].
      rewrite Forall_fmap in Ht. by apply (Forall_lookup_1 _ _ _ _ Ht Hi).
    + rewrite Forall_fmap in Ht |- *.
      by apply Forall_delete_at.
    + by apply Forall_delete_at.
  - by apply budget_processNext, budget_updateStats.
Qed.

Lemma budget_applyAdmin q e : withinRetryBudget q → withinRetryBudget (applyAdmin q e).
Proof.
  intros Hq. destruct e as [e|now tid|]; cbn [applyAdmin].
  - by apply budget_apply.
  - unfold forceRetryTeam. cbn [snd]. apply budget_addTeam.
    apply budget_iff in Hq as (Hr & Hw & Ht & Htm).
    destruct (decide _); cbn;
      (destruct (list_find _ _) as [[queueIndex ?]|]; apply budget_iff; cbn;
       split_and!; try done;
       by apply Forall_delete_at).
  - apply budget_iff in Hq as (Hr & Hw & Ht & Htm). apply budget_iff. cbn.
    split_and!; done.
Qed.

(** X2.  In every state reached by queue events and admin calls, no item
    has been retried more than [MAX_RETRIES] = 3 times, and every armed
    retry timer carries an item retried between one and three times with the
    delay 5000 * 2 ^ (retryCount - 1) milliseconds. *)
Theorem retry_budget_invariant (es : list adminEvent) :
  withinRetryBudget (runAdmin es).
Proof.
  unfold runAdmin. induction es as [|e es IH] using rev_ind.
  - split; constructor.
  - rewrite foldl_app. by apply budget_applyAdmin.
Qed.


(** *** Nothing is lost *)

Lemma length_items q :
  length (items q)
  = (length (running q) + length (waitingQueue q) + length (timers q))%nat.
Proof. unfold items. rewrite !length_app, length_fmap. lia. Qed.

Lemma load_processNext q : load (processNext q) = load q.
Proof.
  unfold processNext. destruct (_ || _); [done|].
  destruct (waitingQueue q) as [|nextItem rest] eqn:E; [done|].
  unfold load. rewrite !length_items, E. cbn. rewrite length_app. cbn. lia.
Qed.

Lemma load_updateStats q : load (updateStats q) = load q.
Proof. done. Qed.

Lemma load_completionHead tid success orig q :
  load (completionHead tid success orig q) = S (load q).
Proof.
  unfold completionHead, load.
  destruct success; [rewrite !length_items; cbn; lia|].
  destruct orig as [item|]; [|rewrite !length_items; cbn; lia].
  destruct (retryCount item <? MAX_RETRIES)%nat; rewrite !length_items; cbn; [|lia].
  rewrite length_app. cbn. lia.
Qed.

Lemma load_addTeam now tid q :
  load (addTeam now tid q) = (load q + admits q (EAddTeam now tid))%nat.
Proof.
  unfold admits. destruct (decide (tid ∈ processingPool q)) as [Hp|Hp].
  { rewrite addTeam_present by auto. lia. }
  destruct (decide (tid ∈ waitingTeams q)) as [Hw|Hw].
  { rewrite addTeam_present by auto. lia. }
  rewrite addTeam_fresh, load_updateStats by done.
  unfold load. rewrite !length_items.
  destruct (_ <? _)%nat; cbn; rewrite length_app; cbn; lia.
Qed.

Lemma load_apply q e : load (apply q e) = (load q + admits q e)%nat.
Proof.
  destruct e as [now tid|i success|i success|i|]; cbn [apply].
  - apply load_addTeam.
  - cbn [admits]. unfold settle, settleWith.
    destruct (running q !! i) as [item|] eqn:Hi; [|lia].
    unfold onProcessingComplete.
    rewrite load_processNext, load_updateStats, load_completionHead.
    unfold load. rewrite !length_items. cbn. rewrite length_delete by eauto.
    apply lookup_lt_Some in Hi. lia.
  - cbn [admits]. unfold settleWith.
    destruct (running q !! i) as [item|] eqn:Hi; [|lia].
    rewrite load_completionHead.
    unfold load. rewrite !length_items. cbn. rewrite length_delete by eauto.
    apply lookup_lt_Some in Hi. lia.
  - cbn [admits]. unfold fire.
    destruct (timers q !! i) as [[d item]|] eqn:Hi; [|lia].
    unfold retryCallback. rewrite load_processNext.
    unfold load. rewrite !length_items. cbn. rewrite length_delete by eauto.
    apply lookup_lt_Some in Hi. lia.
  - cbn [admits]. rewrite load_processNext, load_updateStats. lia.
Qed.

Lemma load_foldl q es :
  load (foldl apply q es) = (load q + admissions q es)%nat.
Proof.
  revert q. induction es as [|e es IH]; intros q; cbn [foldl admissions]; [lia|].
  rewrite IH, load_apply. lia.
Qed.

(** X3.  Nothing is lost along a run of the queue: the teams counted as
    processed or failed, together with the pipelines in flight, the waiting
    items and the armed retry timers, are as many as the [addTeam] calls
    that were not ignored. *)
Theorem queue_conservation (es : list event) :
  (totalProcessed (stats (run es)) + totalFailed (stats (run es))
   + length (running (run es)) + length (waitingQueue (run es))
   + length (timers (run es)))%nat
  = admissions empty es.
Proof.
  pose proof (load_foldl empty es) as H. fold (run es) in H.
  unfold load in H. rewrite length_items in H. cbn in H. lia.
Qed.

(** *** What a settled pipeline leaves behind *)

Lemma processNext_keeps q :
  timers (processNext q) = timers q ∧
  totalProcessed (stats (processNext q)) = totalProcessed (stats q) ∧
  totalFailed (stats (processNext q)) = totalFailed (stats q).
Proof.
  unfold processNext. destruct (_ || _); [done|].
  by destruct (waitingQueue q).
Qed.

(** X4.  When the pipeline of an item fails, an item retried fewer than
    three times gets a retry timer of 5000 * 2 ^ retryCount milliseconds for
    the item with its retry count incremented, and is not counted as failed;
    an item already retried three times gets no timer and [totalFailed]
    grows by one.  [totalProcessed] does not change. *)
Theorem failed_pipeline_policy q i item :
  running q !! i = Some item →
  let q' := settle i false q in
  totalProcessed (stats q') = totalProcessed (stats q) ∧
  ((retryCount item < MAX_RETRIES)%nat →
     timers q' = timers q ++
       [(RETRY_DELAY_BASE * RETRY_DELAY_MULTIPLIER ^ Z.of_nat (retryCount item),
         mkQueueItem (teamId item) (completedAt item) (S (retryCount item))
                     (addedToQueueAt item))] ∧
     totalFailed (stats q') = totalFailed (stats q)) ∧
  ((MAX_RETRIES ≤ retryCount item)%nat →
     timers q' = timers q ∧
     totalFailed (stats q') = S (totalFailed (stats q))).
Proof.
  intros Hi q'. subst q'. unfold settle, settleWith. rewrite Hi.
  unfold onProcessingComplete.
  destruct (processNext_keeps
              (updateStats (completionHead (teamId item) false (Some item)
                 (mk (processingPool q) (waitingQueue q) (stats q)
                     (delete i (running q)) (timers q))))) as (-> & -> & ->).
  unfold completionHead.
  destruct (retryCount item <? MAX_RETRIES)%nat eqn:Hlt.
  - apply Nat.ltb_lt in Hlt. split_and!; [done|done|lia].
  - apply Nat.ltb_ge in Hlt. split_and!; [done|lia|done].
Qed.

(** X5.  When a pipeline settles (either way) in a pool of at most
    [MAX_CONCURRENT] teams while teams are waiting, the head of the waiting
    list, and only it, is started: it leaves the list, takes the place of
    the settled team in the pool and its pipeline is the last one started. *)
Theorem completion_admits_head q i item success nextItem rest :
  running q !! i = Some item →
  teamId item ∈ processingPool q →
  (size (processingPool q) ≤ MAX_CONCURRENT)%nat →
  waitingQueue q = nextItem :: rest →
  let q' := settle i success q in
  waitingQueue q' = rest ∧
  running q' = delete i (running q) ++ [nextItem] ∧
  processingPool q' = {[ teamId nextItem ]} ∪ (processingPool q ∖ {[ teamId item ]}).
Proof.
  intros Hi Hin Hsize Hw q'. subst q'. unfold settle, settleWith. rewrite Hi.
  unfold onProcessingComplete.
  set (q1 := completionHead _ _ _ _).
  assert (processingPool q1 = processingPool q ∖ {[ teamId item ]}) as Hp
    by (unfold q1; by rewrite completionHead_pool).
  assert (waitingQueue q1 = nextItem :: rest ∧ running q1 = delete i (running q))
    as [Hw1 Hr1].
  { unfold q1, completionHead. destruct success; [done|].
    by destruct (_ <? _)%nat. }
  assert (size (processingPool q ∖ {[ teamId item ]}) < MAX_CONCURRENT)%nat as Hlt.
  { assert (size (processingPool q) =
            size ({[ teamId item ]} : gset string)
            + size (processingPool q ∖ {[ teamId item ]}))%nat as Hsz.
    { rewrite <- size_union by set_solver. f_equal.
      apply set_eq. intros x. rewrite elem_of_union, elem_of_difference,
        elem_of_singleton. destruct (decide (x = teamId item)); set_solver. }
    rewrite size_singleton in Hsz. lia. }
  unfold processNext. cbn [updateStats processingPool waitingQueue].
  rewrite Hp, Hw1.
  apply Nat.leb_gt in Hlt. rewrite Hlt. cbn. by rewrite Hr1.
Qed.


(** *** The statistics *)

Lemma statsCurrent_processNext q : statsCurrent q → statsCurrent (processNext q).
Proof.
  intros Hq. unfold processNext. destruct (_ || _); [done|].
  destruct (waitingQueue q) as [|nextItem rest]; [done|]. by split.
Qed.

(** X6.  [stats.processing] and [stats.waiting] agree with the pool and
    the waiting list after every completion, and [addTeam] keeps them in
    agreement; the callback of a retry timer does not: when it fires into a
    full pool the item is put in front of the waiting list and
    [stats.waiting] is left one short. *)
Theorem queue_statistics :
  (∀ tid success orig q, statsCurrent (onProcessingComplete tid success orig q)) ∧
  (∀ now tid q, statsCurrent q → statsCurrent (addTeam now tid q)) ∧
  (∀ q i d item,
     timers q !! i = Some (d, item) → statsCurrent q →
     (statsCurrent (fire i q) ↔ (size (processingPool q) < MAX_CONCURRENT)%nat)).
Proof.
  split_and!.
  - intros tid success orig q. unfold onProcessingComplete.
    apply statsCurrent_processNext. by split.
  - intros now tid q Hq. unfold addTeam.
    destruct (decide _); [done|]. destruct (existsb _ _); [done|]. by split.
  - intros q i d item Hi [Hp Hw]. unfold fire. rewrite Hi.
    unfold retryCallback, processNext. cbn [processingPool waitingQueue length].
    destruct (MAX_CONCURRENT <=? size (processingPool q))%nat eqn:Hfull.
    + apply Nat.leb_le in Hfull. cbn. split; [|lia].
      intros [_ Hw']. cbn in Hw'. lia.
    + apply Nat.leb_gt in Hfull. cbn. split; [done|]. intros _. by split.
Qed.

(** *** Where a team is *)

Lemma position_cases tid q :
  (getTeamQueuePosition tid q = Processing ↔ tid ∈ processingPool q) ∧
  (getTeamQueuePosition tid q = NotFound ↔
     (tid ∉ processingPool q) ∧ (tid ∉ waitingTeams q)) ∧
  (∀ p, getTeamQueuePosition tid q = InWaiting p ↔
        (tid ∉ processingPool q) ∧ (1 ≤ p)%nat ∧
        waitingTeams q !! (p - 1)%nat = Some tid ∧
        ∀ j, (j < p - 1)%nat → waitingTeams q !! j ≠ Some tid).
Proof.
  unfold getTeamQueuePosition, waitingTeams.
  destruct (decide (tid ∈ processingPool q)) as [Hp|Hp].
  { split_and!; [done|split; [done|tauto]|]. intros p. split; [done|tauto]. }
  destruct (list_find _ _) as [[queueIndex x]|] eqn:Hfind.
  - apply list_find_Some in Hfind as (Hx & Heq & Hbefore).
    split_and!; [done| |].
    + split; [done|]. intros [_ Hw]. destruct Hw.
      apply list_elem_of_fmap. exists x. split; [done|].
      by eapply list_elem_of_lookup_2.
    + intros p. split.
      * intros [= <-]. replace (queueIndex + 1 - 1)%nat with queueIndex by lia.
        split_and!; [done|lia| |].
        -- by rewrite list_lookup_fmap, Hx; cbn; rewrite Heq.
        -- intros j Hj. rewrite list_lookup_fmap.
           destruct (waitingQueue q !! j) as [y|] eqn:Hy; [|done].
           cbn. intros [= Hy']. by apply (Hbefore j y).
      * intros (_ & Hp1 & Hat & Hnone). f_equal.
        destruct (Nat.lt_trichotomy queueIndex (p - 1)) as [Hlt|[Heq'|Hgt]]; [|lia|].
        -- destruct (Hnone queueIndex Hlt).
           by rewrite list_lookup_fmap, Hx; cbn; rewrite Heq.
        -- rewrite list_lookup_fmap in Hat.
           destruct (waitingQueue q !! (p - 1)%nat) as [y|] eqn:Hy; [|done].
           injection Hat as Hy'. by destruct (Hbefore _ y Hy Hgt).
  - apply list_find_None in Hfind.
    split_and!; [done| |].
    + split; [|done]. intros _. split; [done|].
      intros (x & -> & Hx)%list_elem_of_fmap.
      by apply (proj1 (Forall_forall _ _) Hfind x Hx).
    + intros p. split; [done|]. intros (_ & _ & Hat & _).
      rewrite list_lookup_fmap in Hat.
      destruct (waitingQueue q !! (p - 1)%nat) as [y|] eqn:Hy; [|done].
      injection Hat as Hy'.
      destruct (proj1 (Forall_forall _ _) Hfind y); [|done].
      by eapply list_elem_of_lookup_2.
Qed.

(** X7.  [getTeamQueuePosition] answers [processing] exactly for the teams
    in the pool, [not-found] exactly for the teams neither in the pool nor
    waiting, and [waiting] with position [p] exactly when the team is not in
    the pool and its first entry in the waiting list is the [p]-th, counted
    from 1. *)
Theorem getTeamQueuePosition_spec tid q :
  (getTeamQueuePosition tid q = Processing ↔ tid ∈ processingPool q) ∧
  (getTeamQueuePosition tid q = NotFound ↔
     (tid ∉ processingPool q) ∧ (tid ∉ waitingTeams q)) ∧
  (∀ p, getTeamQueuePosition tid q = InWaiting p ↔
        (tid ∉ processingPool q) ∧ (1 ≤ p)%nat ∧
        waitingTeams q !! (p - 1)%nat = Some tid ∧
        ∀ j, (j < p - 1)%nat → waitingTeams q !! j ≠ Some tid).
Proof. apply position_cases. Qed.

Lemma position_of_present tid q :
  tid ∈ processingPool q ∨ tid ∈ waitingTeams q →
  getTeamQueuePosition tid q ≠ NotFound.
Proof.
  intros Hin Hnf. apply position_cases in Hnf. tauto.
Qed.


Lemma find_in_appended tid (ws : list QueueItem) item :
  tid ∉ teamId <$> ws → teamId item = tid →
  list_find (λ x, teamId x = tid) (ws ++ [item]) = Some (length ws, item).
Proof.
  intros Hws Hitem. rewrite list_find_app_r.
  - cbn. by rewrite decide_True.
  - apply list_find_None, Forall_forall. intros x Hx Heq. apply Hws.
    apply list_elem_of_fmap. by exists x.
Qed.

(** X8.  After [addTeam(t)], [getTeamQueuePosition(t)] never answers
    [not-found]; for a team that was neither in the pool nor waiting it
    answers [processing] when a slot was free and otherwise [waiting] at the
    position behind every team that waited already. *)
Theorem addTeam_then_position now tid q :
  getTeamQueuePosition tid (addTeam now tid q) ≠ NotFound ∧
  (tid ∉ processingPool q → tid ∉ waitingTeams q →
   getTeamQueuePosition tid (addTeam now tid q) =
     if (size (processingPool q) <? MAX_CONCURRENT)%nat then Processing
     else InWaiting (length (waitingQueue q) + 1)).
Proof.
  split; [apply position_of_present, addTeam_after|].
  intros Hp Hw. rewrite addTeam_fresh by done.
  unfold getTeamQueuePosition.
  destruct (size (processingPool q) <? MAX_CONCURRENT)%nat.
  - cbn. rewrite decide_True; [done|set_solver].
  - cbn. rewrite decide_False by done.
    by rewrite (find_in_appended tid (waitingQueue q)).
Qed.

(** X9.  A retry timer that fires for a team not in the pool starts the
    team at once when a slot is free, ahead of every waiting team, and puts
    it at position 1 of the waiting list otherwise. *)
Theorem retry_goes_first q i d item :
  timers q !! i = Some (d, item) → teamId item ∉ processingPool q →
  let q' := fire i q in
  getTeamQueuePosition (teamId item) q' =
    (if (size (processingPool q) <? MAX_CONCURRENT)%nat then Processing
     else InWaiting 1) ∧
  ((MAX_CONCURRENT ≤ size (processingPool q))%nat →
     waitingQueue q' = item :: waitingQueue q ∧ running q' = running q) ∧
  ((size (processingPool q) < MAX_CONCURRENT)%nat →
     waitingQueue q' = waitingQueue q ∧ running q' = running q ++ [item]).
Proof.
  intros Hi Hp q'. subst q'. unfold fire. rewrite Hi.
  unfold retryCallback, processNext. cbn [processingPool waitingQueue length].
  destruct (size (processingPool q) <? MAX_CONCURRENT)%nat eqn:Hfree.
  - apply Nat.ltb_lt in Hfree.
    assert ((MAX_CONCURRENT <=? size (processingPool q))%nat = false) as ->
      by (apply Nat.leb_gt; lia).
    cbn. split_and!; [|lia|done].
    unfold getTeamQueuePosition. cbn. rewrite decide_True; [done|set_solver].
  - apply Nat.ltb_ge in Hfree.
    assert ((MAX_CONCURRENT <=? size (processingPool q))%nat = true) as ->
      by (by apply Nat.leb_le).
    cbn. split_and!; [|done|lia].
    unfold getTeamQueuePosition. cbn. rewrite decide_False by done.
    by rewrite decide_True.
Qed.

(** *** The admin calls *)

(** X10.  [forceRetryTeam] resolves to [true] and leaves the team in the
    pool or in the waiting list.  Called for a team that is being processed
    (and is not waiting), it starts a new pipeline with retry count 0 while
    the pipeline already in flight stays in flight: the team then has one
    more execution in flight than before. *)
Theorem forceRetryTeam_second_pipeline now tid q :
  (forceRetryTeam now tid q).1 = true ∧
  getTeamQueuePosition tid (forceRetryTeam now tid q).2 ≠ NotFound ∧
  (tid ∈ processingPool q → tid ∉ waitingTeams q →
   (size (processingPool q) ≤ MAX_CONCURRENT)%nat →
   let q' := (forceRetryTeam now tid q).2 in
   processingPool q' = processingPool q ∧
   waitingQueue q' = waitingQueue q ∧
   running q' = running q ++ [mkQueueItem tid now 0 now] ∧
   executions tid q' = S (executions tid q)).
Proof.
  split_and!; [done|apply position_of_present, addTeam_after|].
  intros Hp Hw Hsize q'. subst q'. unfold forceRetryTeam. cbn [snd].
  rewrite decide_True by done. cbn [waitingQueue].
  assert (list_find (λ x, teamId x = tid) (waitingQueue q) = None) as ->.
  { apply list_find_None, Forall_forall. intros x Hx Heq. apply Hw.
    apply list_elem_of_fmap. by exists x. }
  assert (size (processingPool q) =
          S (size (processingPool q ∖ {[ tid ]}))) as Hsz.
  { change (S ?n) with (1 + n)%nat.
    rewrite <- (size_singleton (C:=gset string) tid), <- size_union by set_solver.
    f_equal. apply set_eq. intros x.
    rewrite elem_of_union, elem_of_difference, elem_of_singleton.
    destruct (decide (x = tid)); set_solver. }
  rewrite addTeam_fresh; cbn [processingPool waitingQueue]; [|set_solver|done].
  assert ((size (processingPool q ∖ {[ tid ]}) <? MAX_CONCURRENT)%nat = true) as ->
    by (apply Nat.ltb_lt; lia).
  cbn. split_and!; [|done|done|].
  - apply set_eq. intros x.
    rewrite elem_of_union, elem_of_difference, elem_of_singleton.
    destruct (decide (x = tid)); set_solver.
  - unfold executions, runningTeams. cbn. rewrite fmap_app, filter_app, length_app.
    cbn. destruct (decide (tid = tid)); [cbn; lia|done].
Qed.

(** X11.  [clearQueue] empties the pool and the waiting list and zeroes
    the statistics, but cancels neither the retry timers nor the pipelines
    in flight: a timer armed before the call puts its team into the pool
    when it fires, and a pipeline that completes after the call is counted
    in [totalProcessed]. *)
Theorem clearQueue_keeps_event_loop q :
  (∀ tid, getTeamQueuePosition tid (clearQueue q) = NotFound) ∧
  stats (clearQueue q) = mkQueueStats 0 0 0 0 ∧
  (∀ i d item, timers q !! i = Some (d, item) →
     let q' := fire i (clearQueue q) in
     processingPool q' = {[ teamId item ]} ∧ running q' = running q ++ [item]) ∧
  (∀ i item, running q !! i = Some item →
     totalProcessed (stats (settle i true (clearQueue q))) = 1%nat).
Proof.
  split_and!; [|done| |].
  - intros tid. apply position_cases. split; [set_solver|].
    unfold waitingTeams. cbn. set_solver.
  - intros i d item Hi q'. subst q'. unfold fire, clearQueue. cbn [timers].
    rewrite Hi. unfold retryCallback, processNext.
    cbn [processingPool waitingQueue length].
    assert ((MAX_CONCURRENT <=? size (∅ : gset string))%nat = false) as ->
      by (rewrite size_empty; done).
    cbn. split; [|done]. by rewrite (right_id_L ∅ (∪)).
  - intros i item Hi. unfold settle, settleWith, clearQueue. cbn [running].
    rewrite Hi. unfold onProcessingComplete.
    by rewrite (proj1 (proj2 (processNext_keeps _))).
Qed.

(** *** No duplicates while [addTeam] stays away from armed timers *)

(** X12.  As long as [addTeam] is not called for a team whose retry timer
    is armed, no team has two pipelines in flight, none occurs twice in the
    waiting list, and none is processing and waiting at once. *)
Theorem guarded_queue_has_no_duplicates es tid :
  guardedFrom empty es →
  (executions tid (run es) ≤ 1)%nat ∧ NoDup (waitingTeams (run es)) ∧
  ¬ (tid ∈ processingPool (run es) ∧ tid ∈ waitingTeams (run es)).
Proof.
  intros Hes. apply tidy_unique. unfold run.
  by apply guarded_run_tidy; [apply tidy_empty|].
Qed.

End queue_admin_facts.

Section queue_admin_witnesses.
Import AssignmentQueue Examples.

Lemma failed_pipeline_policy_witness :
  timers (settle 0 false queueA) = [(5000, itemOf "A" 1)] ∧
  totalFailed (stats (settle 0 false queueA)) = 0%nat.
Proof.
  exact (proj1 (proj2 (failed_pipeline_policy queueA 0 (itemOf "A" 0) eq_refl))
           ltac:(unfold MAX_RETRIES; cbn; lia)).
Defined.

Lemma completion_admits_head_witness :
  waitingQueue (settle 0 true queueFull) = [] ∧
  running (settle 0 true queueFull)
    = [itemOf "B" 0; itemOf "C" 0; itemOf "D" 0] ∧
  processingPool (settle 0 true queueFull)
    = {[ "D" ]} ∪ ({[ "A"; "B"; "C" ]} ∖ {[ "A" ]}).
Proof.
  refine (completion_admits_head queueFull 0 (itemOf "A" 0) true (itemOf "D" 0) []
            eq_refl _ _ eq_refl).
  - cbn. set_solver.
  - vm_compute. lia.
Defined.

Lemma queue_statistics_witness :
  ¬ statsCurrent (fire 0 queueRetrying).
Proof.
  intros H.
  apply (proj2 (proj2 queue_statistics) queueRetrying 0%nat 5000 (itemOf "A" 1) eq_refl)
    in H.
  - vm_compute in H. lia.
  - split; vm_compute; reflexivity.
Defined.

Lemma addTeam_then_position_witness :
  getTeamQueuePosition "E" (addTeam 9 "E" queueFull) = InWaiting 2.
Proof.
  etrans.
  - apply (proj2 (addTeam_then_position 9 "E" queueFull)).
    + cbn. set_solver.
    + cbn. set_solver.
  - vm_compute. reflexivity.
Defined.

Lemma retry_goes_first_witness :
  getTeamQueuePosition "A" (fire 0 queueRetrying) = InWaiting 1 ∧
  waitingQueue (fire 0 queueRetrying) = [itemOf "A" 1].
Proof.
  assert ("A" ∉ processingPool queueRetrying) as Hp by (cbn; set_solver).
  destruct (retry_goes_first queueRetrying 0 5000 (itemOf "A" 1) eq_refl Hp)
    as (Hpos & Hfull & _).
  split.
  - etrans; [exact Hpos|]. vm_compute. reflexivity.
  - apply Hfull. vm_compute. lia.
Defined.

Lemma forceRetryTeam_second_pipeline_witness :
  running (forceRetryTeam 7 "A" queueA).2 = [itemOf "A" 0; mkQueueItem "A" 7 0 7] ∧
  executions "A" (forceRetryTeam 7 "A" queueA).2 = 2%nat.
Proof.
  destruct (proj2 (proj2 (forceRetryTeam_second_pipeline 7 "A" queueA)))
    as (_ & _ & Hr & He).
  - cbn. set_solver.
  - cbn. set_solver.
  - vm_compute. lia.
  - split; [exact Hr|]. etrans; [exact He|]. vm_compute. reflexivity.
Defined.

Lemma clearQueue_keeps_event_loop_witness :
  processingPool (fire 0 (clearQueue queueRetrying)) = {[ "A" ]} ∧
  running (fire 0 (clearQueue queueRetrying))
    = [itemOf "B" 0; itemOf "C" 0; itemOf "D" 0; itemOf "A" 1].
Proof.
  exact (proj1 (proj2 (proj2 (clearQueue_keeps_event_loop queueRetrying)))
           0%nat 5000 (itemOf "A" 1) eq_refl).
Defined.

Lemma guarded_queue_has_no_duplicates_witness :
  let es := [EAddTeam 0 "A"; ESettle 0 false; EFire 0] in
  (executions "A" (run es) ≤ 1)%nat ∧ NoDup (waitingTeams (run es)) ∧
  ¬ ("A" ∈ processingPool (run es) ∧ "A" ∈ waitingTeams (run es)).
Proof.
  apply guarded_queue_has_no_duplicates.
  cbn [guardedFrom guarded]. split_and!; try done. apply not_elem_of_nil.
Defined.

End queue_admin_witnesses.

(** ** The scorer beyond the claims: the public validator, batches, retries *)

Section scorer_more_facts.
Import JS Scorer.

(** *** The public validator and the validation of a response *)

Lemma cells_in_range cells :
  forallb (λ score, match score with
                    | JNum n => (0 <=? n) && (n <=? 100)
                    | _ => false
                    end) cells = true ↔
  ∃ row, cells = JNum <$> row ∧ Forall (λ score, 0 ≤ score ≤ 100) row.
Proof.
  induction cells as [|c cells IH]; cbn [forallb].
  - split; [by exists []|done].
  - rewrite andb_true_iff, IH. split.
    + intros [Hc (row & -> & Hrow)]. destruct c as [| |n| | |]; try done.
      apply andb_true_iff in Hc as [?%Z.leb_le ?%Z.leb_le].
      exists (n :: row). split; [done|]. constructor; [lia|done].
    + intros ([|n row] & Heq & Hrow); [done|]. injection Heq as -> ->.
      apply Forall_cons in Hrow as [Hn Hrow]. split; [|by exists row].
      apply andb_true_iff. split; apply Z.leb_le; lia.
Qed.

Lemma rows_in_shape k rows :
  forallb (λ row,
             match row with
             | JArr cells =>
                 (length cells =? k)%nat
                 && forallb (λ score, match score with
                                      | JNum n => (0 <=? n) && (n <=? 100)
                                      | _ => false
                                      end) cells
             | _ => false
             end) rows = true ↔
  ∃ m, rows = (λ row, JArr (JNum <$> row)) <$> m ∧
       Forall (λ row, length row = k) m ∧
       Forall (Forall (λ score, 0 ≤ score ≤ 100)) m.
Proof.
  induction rows as [|r rows IH]; cbn [forallb].
  - split; [by exists []|done].
  - rewrite andb_true_iff, IH. split.
    + intros [Hr (m & -> & Hk & Hm)]. destruct r as [| | | |cells|]; try done.
      apply andb_true_iff in Hr as [Hlen (row & -> & Hrow)%cells_in_range].
      apply Nat.eqb_eq in Hlen. rewrite length_fmap in Hlen.
      exists (row :: m). split_and!; [done|by constructor..].
    + intros ([|row m] & Heq & Hk & Hm); [done|]. injection Heq as -> ->.
      apply Forall_cons in Hk as [Hlen Hk]. apply Forall_cons in Hm as [Hrow Hm].
      split; [|by exists m].
      apply andb_true_iff. split.
      * apply Nat.eqb_eq. by rewrite length_fmap.
      * apply cells_in_range. by exists row.
Qed.

(** X13.  [validateScoreMatrix] accepts a parsed value exactly when the
    validation inside [generateScoreMatrixWithRetry] lets it through: the
    value is then an array of [expectedRows] rows of [expectedCols] numbers
    between 0 and 100, and the matrix the scorer returns for it is the value
    itself. *)
Theorem validateScoreMatrix_agrees (scores : json) (expectedRows expectedCols : nat) :
  (validateScoreMatrix scores expectedRows expectedCols = true ↔
   ∃ m, validate expectedRows expectedCols scores = inr m) ∧
  (∀ m, validate expectedRows expectedCols scores = inr m →
        scores = matrixJson m ∧ validMatrix expectedRows expectedCols m).
Proof.
  split; [|intros m; apply validate_inr].
  assert (validateScoreMatrix scores expectedRows expectedCols = true ↔
          ∃ m, scores = matrixJson m ∧ validMatrix expectedRows expectedCols m) as ->.
  { unfold validateScoreMatrix, matrixJson, validMatrix.
    destruct scores as [| | | |rows|];
      try (split; [done|by intros (? & ? & _)]).
    destruct (length rows =? expectedRows)%nat eqn:Hlen; cbn [negb].
    - apply Nat.eqb_eq in Hlen. rewrite rows_in_shape. split.
      + intros (m & -> & ? & ?). rewrite length_fmap in Hlen. by exists m.
      + intros (m & [= ->] & _ & ? & ?). by exists m.
    - apply Nat.eqb_neq in Hlen. split; [done|].
      intros (m & [= ->] & Hn & _). by rewrite length_fmap in Hlen. }
  split; intros [m Hm]; exists m; by apply validate_inr.
Qed.


(** *** Batches *)





End scorer_more_facts.


Section retryable_facts.
Import JS.

Lemma toLowerCase_app a b :
  toLowerCase (a +:+ b) = toLowerCase a +:+ toLowerCase b.
Proof.
  induction a as [|c a IH]; [done|].
  change (String (lowerChar c) (toLowerCase (a +:+ b))
          = String (lowerChar c) (toLowerCase a +:+ toLowerCase b)).
  by rewrite IH.
Qed.

Lemma prefix_app_l sub a b :
  String.prefix sub a = true → String.prefix sub (a +:+ b) = true.
Proof.
  revert a. induction sub as [|c sub IH]; intros a.
  { intros _. by destruct (a +:+ b). }
  destruct a as [|c' a]; [done|].
  change (String.prefix (String c sub) (String c' a) = true →
          String.prefix (String c sub) (String c' (a +:+ b)) = true).
  cbn [String.prefix]. destruct (Ascii.ascii_dec c c'); [apply IH|done].
Qed.

Lemma includes_app_l a b sub :
  includes a sub = true → includes (a +:+ b) sub = true.
Proof.
  induction a as [|c a IH].
  - cbn [includes]. rewrite orb_false_r. intros H. destruct sub; [|done].
    by destruct b.
  - change (includes (String c a) sub = true →
            includes (String c (a +:+ b)) sub = true).
    cbn [includes]. intros [H|H]%orb_true_iff; apply orb_true_iff.
    + left. by apply (prefix_app_l sub (String c a) b).
    + right. by apply IH.
Qed.

(** A message classified as retryable stays so whatever is appended. *)
Lemma isRetryableMessage_app message rest :
  Llm.isRetryableMessage message = true →
  Llm.isRetryableMessage (message +:+ rest) = true.
Proof.
  unfold Llm.isRetryableMessage. rewrite toLowerCase_app.
  pose proof (includes_app_l (toLowerCase message) (toLowerCase rest)) as Hm.
  rewrite !orb_true_iff. intros H.
  repeat (destruct H as [H|H]); apply Hm in H; tauto.
Qed.

Local Ltac by_head head :=
  exists head; split; vm_compute; reflexivity.

(** An answer of the model service with status 429, 500, 502, 503 or 504
    is classified as retryable by the scorer and by the justifier's runner,
    whatever the body of the answer says. *)
Lemma api_error_retryable (status : Z) (errorText : string) :
  status ∈ [429; 500; 502; 503; 504] →
  Scorer.isRetryableError (Scorer.ApiError status errorText) = true ∧
  JustifierRunner.isRetryableError (JustifierService.ApiError status errorText) = true.
Proof.
  intros Hs.
  assert (∃ head, Llm.isRetryableMessage head = true ∧
                  "OpenAI API error: " +:+ pretty status +:+ " - " +:+ errorText
                  = head +:+ errorText) as (head & Hhead & Heq).
  { apply elem_of_cons in Hs as [->|Hs]; [by_head "OpenAI API error: 429 - "|].
    apply elem_of_cons in Hs as [->|Hs]; [by_head "OpenAI API error: 500 - "|].
    apply elem_of_cons in Hs as [->|Hs]; [by_head "OpenAI API error: 502 - "|].
    apply elem_of_cons in Hs as [->|Hs]; [by_head "OpenAI API error: 503 - "|].
    apply elem_of_cons in Hs as [->|Hs]; [by_head "OpenAI API error: 504 - "|].
    by apply elem_of_nil in Hs. }
  unfold Scorer.isRetryableError, JustifierRunner.isRetryableError.
  cbn [Scorer.message JustifierService.message]. rewrite Heq.
  split; by apply isRetryableMessage_app.
Qed.

End retryable_facts.

Section scorer_retry_facts.
Import JS Scorer.

Variable JSON_parse : string → outcome json.
Variable llm : nat → Llm.response.

(** *** What an attempt costs *)

Lemma attempt_spends_one now team roles w :
  Team.isComplete team = true →
  (length (Team.applicants team) ≤ length roles)%nat →
  ∃ r, attempt JSON_parse llm now team roles w
       = (r, Llm.mkWorld (S (Llm.requests w)) (Llm.slept w)) ∧
       ((∃ e, r = inl e) ∨ (∃ sm, r = inr (inr sm))).
Proof.
  intros Hc Hroles. unfold attempt. rewrite Hc. cbn [negb].
  assert ((length roles <? length (Team.applicants team))%nat = false) as ->
    by (apply Nat.ltb_ge; lia).
  repeat case_match; eauto.
Qed.

Lemma attempt_refuses now team roles w :
  Team.isComplete team = false
  ∨ (length roles < length (Team.applicants team))%nat →
  ∃ f, attempt JSON_parse llm now team roles w = (inr (inl f), w) ∧
       (f = TeamNotComplete
        ∨ f = NotEnoughRoles (length (Team.applicants team)) (length roles)).
Proof.
  intros Hno. unfold attempt.
  destruct (Team.isComplete team); cbn [negb]; [|eauto].
  destruct Hno as [?|Hlt]; [done|]. apply Nat.ltb_lt in Hlt. rewrite Hlt. eauto.
Qed.

Lemma backoff_S retryCount k :
  backoff retryCount (S k)
  = RETRY_DELAY * 2 ^ Z.of_nat retryCount :: backoff (S retryCount) k.
Proof.
  unfold backoff. cbn [seq fmap list_fmap]. rewrite Nat.add_0_r. f_equal.
  rewrite <- seq_shift, <- list_fmap_compose. apply list_fmap_ext.
  intros _ j _. cbn. do 3 f_equal. lia.
Qed.

Lemma withRetries_budget left now team roles retryCount w :
  Team.isComplete team = true →
  (length (Team.applicants team) ≤ length roles)%nat →
  ∃ (k : nat) r,
    (k ≤ left)%nat ∧
    withRetries JSON_parse llm left now team roles retryCount w
      = (r, Llm.mkWorld (Llm.requests w + S k) (Llm.slept w ++ backoff retryCount k)) ∧
    ((∃ sm, r = inr sm) ∨
     ∃ e, r = inl (FailedAfter (retryCount + k) e) ∧
          (k = left ∨ isRetryableError e = false)).
Proof.
  intros Hc Hroles. revert retryCount w.
  induction left as [|left IH]; intros retryCount w;
    destruct (attempt_spends_one now team roles w Hc Hroles)
      as (r & Ha & [[e ->]|[sm ->]]); cbn [withRetries]; rewrite Ha.
  - exists 0%nat, (inl (FailedAfter retryCount e)).
    rewrite !Nat.add_0_r, Nat.add_1_r, app_nil_r.
    split_and!; [lia|by destruct (isRetryableError e)|].
    right. exists e. split; [done|]. by left.
  - exists 0%nat, (inr sm). rewrite Nat.add_1_r, app_nil_r. split_and!; [lia|done|eauto].
  - destruct (isRetryableError e) eqn:He.
    + destruct (IH (S retryCount)
                  (Llm.mkWorld (S (Llm.requests w))
                     (Llm.slept w ++ [RETRY_DELAY * 2 ^ Z.of_nat retryCount])))
        as (k & r & Hk & Hrun & Hres).
      exists (S k), r. split_and!; [lia| |].
      * cbn [Llm.requests Llm.slept]. rewrite Hrun. cbn [Llm.requests Llm.slept].
        rewrite backoff_S, <- app_assoc. do 2 f_equal. lia.
      * destruct Hres as [?|(e' & -> & Hwhy)]; [by left|right].
        exists e'. split; [do 2 f_equal; lia|]. destruct Hwhy; [left; lia|by right].
    + exists 0%nat, (inl (FailedAfter retryCount e)).
      rewrite !Nat.add_0_r, Nat.add_1_r, app_nil_r.
      split_and!; [lia|done|]. right. exists e. split; [done|]. by right.
  - exists 0%nat, (inr sm). rewrite Nat.add_1_r, app_nil_r. split_and!; [lia|done|eauto].
Qed.

Lemma backoff_first k :
  (k ≤ 3)%nat → backoff 0 k = take k [1000; 2000; 4000].
Proof.
  intros Hk. destruct k as [|[|[|[|k]]]]; [reflexivity..|lia].
Qed.

(** X15.  [generateScoreMatrix] asks the model at most four times.  For an
    incomplete team, or with fewer roles than members, it fails without a
    request.  Otherwise it makes [k + 1] requests for some [k] up to 3 and
    sleeps 1000, 2000, 4000 ms before the first [k] retries; a failure
    reports exactly [k] retries, and it stops short of three retries only on
    an error that is not classified as retryable. *)
Theorem scorer_retry_budget now team roles w :
  let '(r, w') := generateScoreMatrix JSON_parse llm now team roles w in
  if Team.isComplete team && (length (Team.applicants team) <=? length roles)%nat
  then
    ∃ k : nat,
      (k ≤ 3)%nat ∧
      Llm.requests w' = (Llm.requests w + S k)%nat ∧
      Llm.slept w' = Llm.slept w ++ take k [1000; 2000; 4000] ∧
      ((∃ sm, r = inr sm) ∨
       ∃ e, r = inl (FailedAfter k e) ∧ (k = 3%nat ∨ isRetryableError e = false))
  else
    w' = w ∧
    (r = inl TeamNotComplete
     ∨ r = inl (NotEnoughRoles (length (Team.applicants team)) (length roles))).
Proof.
  unfold generateScoreMatrix, generateScoreMatrixWithRetry.
  destruct (Team.isComplete team && _) eqn:Hok.
  - apply andb_true_iff in Hok as [Hc Hroles%Nat.leb_le].
    destruct (withRetries_budget (MAX_RETRIES - 0) now team roles 0 w Hc Hroles)
      as (k & r & Hk & -> & Hres).
    change (MAX_RETRIES - 0)%nat with 3%nat in Hk, Hres.
    exists k. cbn [Llm.requests Llm.slept]. by rewrite backoff_first.
  - assert (Team.isComplete team = false
            ∨ (length roles < length (Team.applicants team))%nat) as Hno.
    { apply andb_false_iff in Hok as [?|?%Nat.leb_gt]; auto. }
    destruct (attempt_refuses now team roles w Hno) as (f & Ha & Hf).
    change (MAX_RETRIES - 0)%nat with 3%nat. cbn [withRetries]. rewrite Ha.
    split; [done|]. by destruct Hf as [->| ->]; [left|right].
Qed.


Lemma matchJsonArray_nonempty content jsonMatch :
  matchJsonArray content = Some jsonMatch → content ≠ "".
Proof. by intros H ->. Qed.

Lemma withRetries_recovers left now team roles retryCount w (k : nat)
    content jsonMatch parsed scores :
  Team.isComplete team = true →
  (length (Team.applicants team) ≤ length roles)%nat →
  (k ≤ left)%nat →
  (∀ j, (j < k)%nat →
        ∃ status errorText,
          llm (Llm.requests w + j)%nat = Llm.NotOk status errorText ∧
          status ∈ [429; 500; 502; 503; 504]) →
  llm (Llm.requests w + k)%nat = Llm.Ok (Some content) →
  matchJsonArray content = Some jsonMatch →
  JSON_parse jsonMatch = Returned parsed →
  validate (length (Team.applicants team)) (length roles) parsed = inr scores →
  withRetries JSON_parse llm left now team roles retryCount w
  = (inr (ScoreMatrix.mk (Team.id team) scores now),
     Llm.mkWorld (Llm.requests w + k + 1) (Llm.slept w ++ backoff retryCount k)).
Proof.
  intros Hc Hroles Hk Hbusy Hok Hmatch Hparse Hvalid.
  assert ((length roles <? length (Team.applicants team))%nat = false) as Hroles'
    by (apply Nat.ltb_ge; lia).
  revert left retryCount w Hk Hbusy Hok.
  induction k as [|k IH]; intros left retryCount w Hk Hbusy Hok.
  - rewrite Nat.add_0_r in Hok.
    assert (attempt JSON_parse llm now team roles w
            = (inr (inr (ScoreMatrix.mk (Team.id team) scores now)),
               Llm.mkWorld (S (Llm.requests w)) (Llm.slept w))) as Ha.
    { unfold attempt. rewrite Hc, Hroles', Hok. cbn [negb fmap option_fmap option_map truthy].
      destruct (String.eqb content "") eqn:Hempty.
      { apply String.eqb_eq in Hempty.
        by destruct (matchJsonArray_nonempty _ _ Hmatch). }
      cbn [negb default id]. unfold id. by rewrite Hmatch, Hparse, Hvalid. }
    destruct left; cbn [withRetries]; rewrite Ha;
      by rewrite Nat.add_0_r, Nat.add_1_r, app_nil_r.
  - destruct left as [|left]; [lia|].
    destruct (Hbusy 0%nat ltac:(lia)) as (status & errorText & Hllm & Hstatus).
    rewrite Nat.add_0_r in Hllm.
    assert (attempt JSON_parse llm now team roles w
            = (inl (ApiError status errorText),
               Llm.mkWorld (S (Llm.requests w)) (Llm.slept w))) as Ha.
    { unfold attempt. by rewrite Hc, Hroles', Hllm. }
    cbn [withRetries]. rewrite Ha.
    rewrite (proj1 (api_error_retryable status errorText Hstatus)).
    rewrite (IH left); cbn [Llm.requests Llm.slept].
    + rewrite backoff_S, <- app_assoc. do 2 f_equal. lia.
    + lia.
    + intros j Hj. destruct (Hbusy (S j) ltac:(lia)) as (st & txt & Hj' & Hst).
      exists st, txt. split; [|done]. rewrite <- Hj'. f_equal. lia.
    + rewrite <- Hok. f_equal. lia.
Qed.

(** X16.  The scorer rides out a busy model service: when the first [k]
    requests (for a [k] up to 3) are answered with status 429, 500, 502, 503
    or 504 and the next one with a text whose bracketed part parses to a
    valid matrix, [generateScoreMatrix] succeeds with that matrix after
    [k + 1] requests, having slept 1000, 2000, 4000 ms before the retries. *)
Theorem scorer_recovers_after_server_errors now team roles w (k : nat)
    content jsonMatch parsed scores :
  Team.isComplete team = true →
  (length (Team.applicants team) ≤ length roles)%nat →
  (k ≤ 3)%nat →
  (∀ j, (j < k)%nat →
        ∃ status errorText,
          llm (Llm.requests w + j)%nat = Llm.NotOk status errorText ∧
          status ∈ [429; 500; 502; 503; 504]) →
  llm (Llm.requests w + k)%nat = Llm.Ok (Some content) →
  matchJsonArray content = Some jsonMatch →
  JSON_parse jsonMatch = Returned parsed →
  validate (length (Team.applicants team)) (length roles) parsed = inr scores →
  generateScoreMatrix JSON_parse llm now team roles w
  = (inr (ScoreMatrix.mk (Team.id team) scores now),
     Llm.mkWorld (Llm.requests w + k + 1)
       (Llm.slept w ++ take k [1000; 2000; 4000])).
Proof.
  intros Hc Hroles Hk Hbusy Hok Hmatch Hparse Hvalid.
  unfold generateScoreMatrix, generateScoreMatrixWithRetry.
  rewrite (withRetries_recovers _ now team roles 0 w k content jsonMatch parsed scores);
    try done.
  by rewrite backoff_first.
Qed.

End scorer_retry_facts.


Section scorer_witnesses.
Import JS Scorer Examples.

Lemma scorer_recovers_after_server_errors_witness :
  let llm := λ n : nat,
    if (n <? 2)%nat then Llm.NotOk 503 "Service Unavailable"
    else Llm.Ok (Some "[[90,10,20],[10,90,30]]") in
  let parse := λ _ : string,
    Returned (matrixJson [[90; 10; 20]; [10; 90; 30]]) in
  generateScoreMatrix parse llm 7 team2 roles3 Llm.start
  = (inr (ScoreMatrix.mk "T" [[90; 10; 20]; [10; 90; 30]] 7),
     Llm.mkWorld 3 [1000; 2000]).
Proof.
  intros llm parse.
  refine (scorer_recovers_after_server_errors parse llm 7 team2 roles3 Llm.start 2
            "[[90,10,20],[10,90,30]]" "[[90,10,20],[10,90,30]]"
            (matrixJson [[90; 10; 20]; [10; 90; 30]]) [[90; 10; 20]; [10; 90; 30]]
            eq_refl _ _ _ eq_refl _ eq_refl _).
  - cbn. lia.
  - lia.
  - intros [|[|j]] Hj; [..|lia]; exists 503, "Service Unavailable";
      (split; [reflexivity|set_solver]).
  - vm_compute. reflexivity.
  - vm_compute. reflexivity.
Defined.

End scorer_witnesses.

(** ** The justifier beyond the claims *)

Section justifier_more_facts.
Import JS JustifierService.

(** *** [updateAssignmentJustification] *)





(** *** The type guard and the collection loop *)

Lemma collect_step assignment names fields rest m :
  collect assignment names (JObj fields :: rest) m
  = if negb (truthy (lookupLast "applicantId" fields))
       || negb (truthy (lookupLast "justification" fields))
    then inl InvalidFormat
    else match lookupLast "justification" fields with
         | Some (JStr text) =>
             if (500 <? String.length text)%nat then inl TooLong
             else collect assignment names rest
                    match actualApplicantId assignment names
                            (lookupLast "applicantId" fields) with
                    | Some key => <[key := trim text]> m
                    | None => m
                    end
         | _ => inl TooLong
         end.
Proof. done. Qed.

Lemma collect_accepts assignment names entries m :
  (∃ m', collect assignment names entries m = inr m') ↔ Forall collectable entries.
Proof.
  revert m. induction entries as [|entry entries IH]; intros m.
  { split; [constructor|]. intros _. by exists m. }
  rewrite Forall_cons. destruct entry as [| | | | |fields];
    try (split; [by intros [? ?]|by intros [(? & ? & ? & ? & _) _]]).
  rewrite collect_step. unfold collectable.
  destruct (lookupLast "applicantId" fields) as [aid|] eqn:Ha;
    [|split; [by intros [? ?]|by intros [(? & ? & ? & [= <-] & ? & _) _];
                                congruence]].
  destruct (truthy (Some aid)) eqn:Haid; cbn [negb orb];
    [|split; [by intros [? ?]|intros [(? & ? & ? & [= <-] & ? & ? & _) _];
                              congruence]].
  destruct (lookupLast "justification" fields) as [txt|] eqn:Ht;
    [|split; [by intros [? ?]|intros [(? & ? & ? & [= <-] & _ & _ & ? & _) _];
                              congruence]].
  destruct txt as [| | |text| |];
    try (split; [intros [? Hc]; by destruct (negb _)
                |intros [(? & ? & ? & [= <-] & _ & _ & ? & _) _]; congruence]).
  cbn [truthy]. destruct (String.eqb text "") eqn:Hempty; cbn [negb].
  { apply String.eqb_eq in Hempty as ->. split; [by intros [? ?]|].
    intros [(? & ? & ? & [= <-] & _ & _ & ? & ? & _) _]. congruence. }
  apply String.eqb_neq in Hempty.
  destruct (500 <? String.length text)%nat eqn:Hlen.
  { apply Nat.ltb_lt in Hlen. split; [by intros [? ?]|].
    intros [(? & ? & ? & [= <-] & _ & _ & ? & _ & ?) _].
    assert (x1 = text) as -> by congruence. lia. }
  apply Nat.ltb_ge in Hlen. rewrite IH. split.
  - intros Hrest. split; [|done]. by exists fields, aid, text.
  - by intros [_ Hrest].
Qed.

Lemma validateJustifications_accepts entries :
  validateJustifications (JArr entries) = true ↔ Forall wellTyped entries.
Proof.
  cbn [validateJustifications]. rewrite forallb_forall, Forall_forall.
  split; intros H entry Hin.
  - apply list_elem_of_In, H in Hin. destruct entry as [| | | | |fields]; try done.
    destruct (lookupLast "applicantId" fields) as [[| | |aid| |]|] eqn:Ha; try done.
    destruct (lookupLast "justification" fields) as [[| | |text| |]|] eqn:Ht;
      try done.
    apply Nat.leb_le in Hin. by exists fields, aid, text.
  - apply list_elem_of_In, H in Hin as (fields & aid & text & -> & Ha & Ht & Hlen).
    rewrite Ha, Ht. by apply Nat.leb_le.
Qed.

(** X18.  What the two checks of a justification response let through.  The
    collection loop of [generateJustifications] gets through a response
    exactly when every entry is an object with a truthy [applicantId] and a
    non-empty string of at most 500 characters as [justification];
    [validateJustifications] accepts an array exactly when every entry is an
    object whose [applicantId] is a string and whose [justification] is a
    string of at most 500 characters.  So the guard lets empty strings
    through that the loop rejects, and the loop lets ids through that are no
    strings. *)
Theorem justification_checks assignment names entries m :
  ((∃ m', collect assignment names entries m = inr m') ↔
   Forall collectable entries) ∧
  (validateJustifications (JArr entries) = true ↔ Forall wellTyped entries) ∧
  validateJustifications
    (JArr [JObj [("applicantId", JStr ""); ("justification", JStr "")]]) = true ∧
  (∃ m', collect assignment names
           [JObj [("applicantId", JNum 7); ("justification", JStr "fits")]] m
         = inr m').
Proof.
  split_and!; [apply collect_accepts|apply validateJustifications_accepts|done|].
  apply collect_accepts. constructor; [|constructor].
  exists [("applicantId", JNum 7); ("justification", JStr "fits")], (JNum 7), "fits".
  split_and!; [done..|cbn; lia].
Qed.


(** *** A single justification *)


End justifier_more_facts.

Section justifier_success_facts.
Import JS JustifierService.

Variable JSON_parse : string → outcome json.
Variable llm : nat → Llm.response.

Lemma length_trimStart s : (String.length (trimStart s) ≤ String.length s)%nat.
Proof.
  induction s as [|c s IH]; [done|]. cbn [trimStart].
  destruct (Ascii.is_space c); cbn [String.length]; lia.
Qed.

Lemma length_rev_app s acc :
  String.length (String.rev_app s acc) = (String.length s + String.length acc)%nat.
Proof.
  revert acc. induction s as [|c s IH]; intros acc; [done|].
  cbn [String.rev_app]. rewrite IH. cbn [String.length]. lia.
Qed.

Lemma length_trim s : (String.length (trim s) ≤ String.length s)%nat.
Proof.
  unfold trim, String.rev. rewrite length_rev_app. cbn [String.length].
  pose proof (length_trimStart (String.rev_app (trimStart s) "")) as H1.
  rewrite length_rev_app in H1. cbn [String.length] in H1.
  pose proof (length_trimStart s). lia.
Qed.

Lemma collect_values assignment names entries m m' :
  collect assignment names entries m = inr m' →
  map_Forall (λ _ text, (String.length text ≤ 500)%nat) m →
  map_Forall (λ _ text, (String.length text ≤ 500)%nat) m'.
Proof.
  revert m. induction entries as [|entry entries IH]; intros m H Hm.
  { by injection H as <-. }
  cbn [collect] in H.
  destruct (getProp entry "applicantId") as [aid|]; [|done].
  destruct (getProp entry "justification") as [text|]; [|done].
  destruct (negb (truthy aid) || negb (truthy text)); [done|].
  destruct text as [[| | |text| |]|]; try done.
  destruct (500 <? String.length text)%nat eqn:Hlen; [done|].
  apply Nat.ltb_ge in Hlen. apply (IH _ H).
  destruct (actualApplicantId assignment names aid) as [key|]; [|done].
  apply map_Forall_insert_2; [|done]. pose proof (length_trim text). lia.
Qed.

(** X20.  When [generateJustifications] succeeds, it has made one request,
    the assignment has as many entries as the team has members, and the
    assignment returned is the one given with [justificationsGenerated] set
    and a justification on every entry: the applicant, role and score of
    each entry, the team id, the total score and the date are unchanged, and
    each justification is not empty and at most 500 characters long. *)
Theorem justifications_on_success team roles assignment w updated w' :
  generateJustifications JSON_parse llm team roles assignment w
    = (inr (inr updated), w') →
  w' = Llm.mkWorld (S (Llm.requests w)) (Llm.slept w) ∧
  length (TeamAssignment.assignments assignment) = length (Team.applicants team) ∧
  TeamAssignment.teamId updated = TeamAssignment.teamId assignment ∧
  TeamAssignment.totalScore updated = TeamAssignment.totalScore assignment ∧
  TeamAssignment.generatedAt updated = TeamAssignment.generatedAt assignment ∧
  TeamAssignment.justificationsGenerated updated = true ∧
  Forall2 (λ a a',
             Assignment.applicantId a' = Assignment.applicantId a ∧
             Assignment.roleId a' = Assignment.roleId a ∧
             Assignment.score a' = Assignment.score a ∧
             ∃ text, Assignment.justification a' = Some text ∧ text ≠ "" ∧
                     (String.length text ≤ 500)%nat)
          (TeamAssignment.assignments assignment)
          (TeamAssignment.assignments updated).
Proof.
  unfold generateJustifications.
  destruct (attempt JSON_parse llm team roles assignment w) as [[e|u] w1] eqn:Ha;
    [done|].
  intros [= <- <-]. unfold attempt in Ha.
  destruct (negb (_ =? _)%nat) eqn:Hcount; [done|].
  apply negb_false_iff, Nat.eqb_eq in Hcount.
  destruct (negb (promptBuilds _ _ _)); [done|].
  destruct (llm (Llm.requests w)) as [| |content]; [done..|].
  destruct (negb (truthy (JStr <$> content))); [done|].
  destruct (matchJsonArray (default "" content)) as [jsonMatch|]; [|done].
  destruct (JSON_parse jsonMatch) as [parsed|]; [|done].
  destruct parsed as [| | | |entries|]; try done.
  destruct (negb (length entries =? _)%nat); [done|].
  destruct (collect _ _ _ _) as [e|m] eqn:Hcollect; [done|].
  destruct (updateAssignments _ _) as [e|out] eqn:Hupdate; [done|].
  injection Ha as <- <-. cbn.
  split_and!; try done.
  apply collect_values in Hcollect; [|apply map_Forall_empty].
  apply updateAssignments_inr in Hupdate.
  eapply Forall2_impl; [exact Hupdate|].
  intros a a' (text & Hm & Hne & ->). cbn. split_and!; try done.
  exists text. split_and!; try done. by apply (Hcollect _ _ Hm).
Qed.

End justifier_success_facts.

Section justifier_witnesses.
Import JS JustifierService Examples.

Lemma justifications_on_success_witness :
  Forall2 (λ a a',
             Assignment.applicantId a' = Assignment.applicantId a ∧
             Assignment.roleId a' = Assignment.roleId a ∧
             Assignment.score a' = Assignment.score a ∧
             ∃ text, Assignment.justification a' = Some text ∧ text ≠ "" ∧
                     (String.length text ≤ 500)%nat)
          (TeamAssignment.assignments assignment2)
          [Assignment.mk "a1" "r1" 90 (Some "Leads well.");
           Assignment.mk "a2" "r2" 90 (Some "Steady hands.")].
Proof.
  refine (proj2 (proj2 (proj2 (proj2 (proj2 (proj2
    (justifications_on_success
       (λ _, Returned justificationsJson) (λ _, Llm.Ok (Some justificationsText))
       team2 roles3 assignment2 Llm.start
       (TeamAssignment.mk "T"
          [Assignment.mk "a1" "r1" 90 (Some "Leads well.");
           Assignment.mk "a2" "r2" 90 (Some "Steady hands.")] 180 7 true)
       (Llm.mkWorld 1 []) _))))))).
  vm_compute. reflexivity.
Defined.

End justifier_witnesses.

(** ** The assigner beyond the claims: the checks on an assignment *)

Section assigner_more_facts.
Import Assigner.

Lemma findApplicant_Some team applicantId :
  is_Some (findApplicant team applicantId) ↔
  applicantId ∈ Applicant.id <$> Team.applicants team.
Proof.
  unfold findApplicant. rewrite fmap_is_Some. split.
  - intros [[i a] (Hi & Ha & _)%list_find_Some]. apply list_elem_of_fmap.
    exists a. split; [done|]. by eapply list_elem_of_lookup_2.
  - intros (a & -> & Ha)%list_elem_of_fmap.
    destruct (list_find (λ a0, Applicant.id a0 = Applicant.id a) (Team.applicants team))
      eqn:Hfind; [done|].
    apply list_find_None in Hfind.
    by destruct (proj1 (Forall_forall _ _) Hfind a Ha).
Qed.

Lemma findRole_Some roles roleId :
  is_Some (findRole roles roleId) ↔ roleId ∈ RoleDefinition.id <$> roles.
Proof.
  unfold findRole. rewrite fmap_is_Some. split.
  - intros [[i r] (Hi & Hr & _)%list_find_Some]. apply list_elem_of_fmap.
    exists r. split; [done|]. by eapply list_elem_of_lookup_2.
  - intros (r & -> & Hr)%list_elem_of_fmap.
    destruct (list_find (λ r0, RoleDefinition.id r0 = RoleDefinition.id r) roles)
      eqn:Hfind; [done|].
    apply list_find_None in Hfind.
    by destruct (proj1 (Forall_forall _ _) Hfind r Hr).
Qed.

Lemma bind_nil_iff {A B} (f : A → list B) (l : list A) :
  l ≫= f = [] ↔ Forall (λ x, f x = []) l.
Proof.
  induction l as [|x l IH]; [done|]. rewrite bind_cons, Forall_cons, <- IH.
  split; [by intros [? ?]%app_eq_nil|by intros [-> ->]].
Qed.

Lemma unique_iff_NoDup (l : list string) :
  negb (size (list_to_set l : gset string) =? length l)%nat = false ↔ NoDup l.
Proof.
  rewrite negb_false_iff, Nat.eqb_eq. split.
  - apply size_list_to_set_NoDup.
  - apply size_list_to_set.
Qed.

Lemma validateAssignment_valid team roles assignment :
  (validateAssignment team roles assignment).2 = [] ↔
  TeamAssignment.teamId assignment = Team.id team ∧
  length (TeamAssignment.assignments assignment) = length (Team.applicants team) ∧
  NoDup (Assignment.applicantId <$> TeamAssignment.assignments assignment) ∧
  NoDup (Assignment.roleId <$> TeamAssignment.assignments assignment) ∧
  Forall (λ a, Assignment.applicantId a ∈ Applicant.id <$> Team.applicants team
               ∧ Assignment.roleId a ∈ RoleDefinition.id <$> roles
               ∧ 0 ≤ Assignment.score a ≤ 100)
         (TeamAssignment.assignments assignment).
Proof.
  unfold validateAssignment. cbv zeta. cbn [snd].
  rewrite !app_nil, !bind_nil_iff, !Forall_and.
  assert (∀ (b : bool) (x : issue), (if b then [x] else []) = [] ↔ b = false) as Hif
    by (by intros [|] x).
  rewrite !Hif, !unique_iff_NoDup, negb_false_iff, String.eqb_eq,
    negb_false_iff, Nat.eqb_eq.
  assert (∀ l : list Assignment.t,
            Forall (λ x, (if findApplicant team (Assignment.applicantId x) is Some _
                          then [] else [UnknownApplicant (Assignment.applicantId x)])
                         = []) l
            ↔ Forall (λ x, Assignment.applicantId x
                           ∈ Applicant.id <$> Team.applicants team) l) as Ha.
  { intros l. apply Forall_iff. intros x. rewrite <- findApplicant_Some.
    destruct (findApplicant team _); split; try done; by intros [? ?]. }
  assert (∀ l : list Assignment.t,
            Forall (λ x, (if findRole roles (Assignment.roleId x) is Some _
                          then [] else [UnknownRole (Assignment.roleId x)]) = []) l
            ↔ Forall (λ x, Assignment.roleId x ∈ RoleDefinition.id <$> roles) l) as Hr.
  { intros l. apply Forall_iff. intros x. rewrite <- findRole_Some.
    destruct (findRole roles _); split; try done; by intros [? ?]. }
  assert (∀ l : list Assignment.t,
            Forall (λ x, (if (Assignment.score x <? 0) || (Assignment.score x >? 100)
                          then [ScoreOutOfRange (Assignment.score x)
                                  (Assignment.applicantId x) (Assignment.roleId x)]
                          else []) = []) l
            ↔ Forall (λ x, 0 ≤ Assignment.score x ≤ 100) l) as Hs.
  { intros l. apply Forall_iff. intros x. rewrite Hif, orb_false_iff. lia. }
  rewrite Ha, Hr, Hs, Forall_and. clear. tauto.
Qed.


Lemma validateAssignment_flag team roles assignment :
  (validateAssignment team roles assignment).1 = true ↔
  (validateAssignment team roles assignment).2 = [].
Proof.
  unfold validateAssignment. cbv zeta. cbn [fst snd].
  rewrite Nat.eqb_eq. apply length_zero_iff_nil.
Qed.

(** X21.  [validateAssignment] reports no error, and [valid], exactly when
    the assignment carries the id of the team and one entry per member, no
    applicant id and no role id occurs twice, every entry names a member of
    the team and a role of the list, and every score lies between 0 and
    100. *)
Theorem validateAssignment_spec team roles assignment :
  ((validateAssignment team roles assignment).1 = true ↔
   (validateAssignment team roles assignment).2 = []) ∧
  ((validateAssignment team roles assignment).2 = [] ↔
   TeamAssignment.teamId assignment = Team.id team ∧
   length (TeamAssignment.assignments assignment) = length (Team.applicants team) ∧
   NoDup (Assignment.applicantId <$> TeamAssignment.assignments assignment) ∧
   NoDup (Assignment.roleId <$> TeamAssignment.assignments assignment) ∧
   Forall (λ a, Assignment.applicantId a ∈ Applicant.id <$> Team.applicants team
                ∧ Assignment.roleId a ∈ RoleDefinition.id <$> roles
                ∧ 0 ≤ Assignment.score a ≤ 100)
          (TeamAssignment.assignments assignment)).
Proof.
  split; [apply validateAssignment_flag|apply validateAssignment_valid].
Qed.

(** *** What [assignRoles] returns passes the checks *)

Lemma cell_in_range scores i j score :
  Forall (Forall (λ s, 0 ≤ s ≤ 100)) scores →
  cell scores i j = Some score → 0 ≤ score ≤ 100.
Proof.
  intros Hall. unfold cell. destruct (_ || _); [done|].
  destruct (scores !! Z.to_nat i) as [row|] eqn:Hrow; [|done]. cbn. intros Hcell.
  eapply Forall_lookup_1 in Hall; [|exact Hrow].
  by eapply Forall_lookup_1 in Hall.
Qed.

Lemma entries_from_team team roles scores pairs entries :
  Forall (Forall (λ s, 0 ≤ s ≤ 100)) scores →
  Forall2 (entryOf team roles scores) pairs entries →
  Forall (λ a, Assignment.applicantId a ∈ Applicant.id <$> Team.applicants team
               ∧ Assignment.roleId a ∈ RoleDefinition.id <$> roles
               ∧ 0 ≤ Assignment.score a ≤ 100) entries.
Proof.
  intros Hscores Hentries.
  induction Hentries as [|p a pairs entries Hp _ IH]; constructor; [|done].
  destruct Hp as (_ & _ & applicant & role & score & Ha & Hr & Hc & ->). cbn.
  split_and!.
  - apply list_elem_of_fmap. exists applicant. split; [done|].
    by eapply list_elem_of_lookup_2.
  - apply list_elem_of_fmap. exists role. split; [done|].
    by eapply list_elem_of_lookup_2.
  - by eapply cell_in_range.
  - by eapply cell_in_range.
Qed.

Lemma assignRoles_passes_checks
    (munkres : list (list Z) → outcome (option (list (Z * Z))))
    (now : Z) (team : Team.t) (roles : list RoleDefinition.t)
    (sm : ScoreMatrix.t) (ta : TeamAssignment.t) :
  assignRoles munkres now team roles sm = inr ta →
  Forall (Forall (λ s, 0 ≤ s ≤ 100)) (ScoreMatrix.scores sm) →
  validateAssignment team roles ta = (true, []).
Proof.
  intros Hta Hscores.
  apply assignRoles_inr in Hta
    as (_ & _ & _ & _ & pairs & _ & Hlen & Hentries & _ & Hsa & Hsr & Hid & _).
  pose proof (Forall2_length _ _ _ Hentries) as Hlen'. rewrite Hlen in Hlen'.
  assert ((validateAssignment team roles ta).2 = []) as Herrors.
  { apply validateAssignment_valid. split_and!; [done|done| | |].
    - apply size_list_to_set_NoDup. by rewrite length_fmap, Hsa.
    - apply size_list_to_set_NoDup. by rewrite length_fmap, Hsr.
    - by eapply entries_from_team. }
  pose proof (proj2 (validateAssignment_flag team roles ta) Herrors) as Hflag.
  by destruct (validateAssignment team roles ta) as [valid errors]; cbn in *; subst.
Qed.

(** X22.  Whatever [munkres] answers, an assignment that [assignRoles]
    returns for a matrix of scores between 0 and 100 passes
    [validateAssignment] for the same team and roles without an error. *)
Theorem assignRoles_output_validates
    (munkres : list (list Z) → outcome (option (list (Z * Z))))
    (now : Z) (team : Team.t) (roles : list RoleDefinition.t)
    (sm : ScoreMatrix.t) (ta : TeamAssignment.t) :
  assignRoles munkres now team roles sm = inr ta →
  Forall (Forall (λ s, 0 ≤ s ≤ 100)) (ScoreMatrix.scores sm) →
  validateAssignment team roles ta = (true, []).
Proof. apply assignRoles_passes_checks. Qed.

(** *** The details of an assignment *)

Lemma collectDetails_inr team roles entries details :
  collectDetails team roles entries = inr details →
  Forall2 (λ a d,
             findApplicant team (Assignment.applicantId a) = Some (applicant d) ∧
             findRole roles (Assignment.roleId a) = Some (role d) ∧
             score d = Assignment.score a ∧
             justification d = Assignment.justification a)
          entries details.
Proof.
  revert details. induction entries as [|a entries IH]; intros details H;
    cbn [collectDetails] in H.
  - injection H as <-. constructor.
  - destruct (findApplicant team _) as [ap|] eqn:Ha; [|done].
    destruct (findRole roles _) as [r|] eqn:Hr; [|done].
    destruct (collectDetails team roles entries) as [e|rest]; [done|].
    injection H as <-. constructor; [done|by apply IH].
Qed.

Lemma collectDetails_total team roles entries :
  Forall (λ a, Assignment.applicantId a ∈ Applicant.id <$> Team.applicants team
               ∧ Assignment.roleId a ∈ RoleDefinition.id <$> roles) entries →
  ∃ details, collectDetails team roles entries = inr details.
Proof.
  induction 1 as [|a entries [Ha Hr] _ [details IH]]; [by exists []|].
  cbn [collectDetails].
  apply findApplicant_Some in Ha as [ap ->]. apply findRole_Some in Hr as [r ->].
  rewrite IH. eauto.
Qed.

Lemma found_by_id team roles a d :
  findApplicant team (Assignment.applicantId a) = Some (applicant d) →
  findRole roles (Assignment.roleId a) = Some (role d) →
  Applicant.id (applicant d) = Assignment.applicantId a ∧
  RoleDefinition.id (role d) = Assignment.roleId a ∧
  applicant d ∈ Team.applicants team ∧ role d ∈ roles.
Proof.
  unfold findApplicant, findRole.
  intros ([i ap] & (Hi & Hap & _)%list_find_Some & Heq)%fmap_Some
         ([j r] & (Hj & Hr & _)%list_find_Some & Heq')%fmap_Some.
  cbn in Heq, Heq'. subst ap r.
  split_and!; [done|done|by eapply list_elem_of_lookup_2..].
Qed.

Lemma assignRoles_has_details munkres now team roles sm ta :
  assignRoles munkres now team roles sm = inr ta →
  ∃ details, getAssignmentDetails team roles (Some ta) = inr details.
Proof.
  intros Hta. cbn [getAssignmentDetails].
  apply collectDetails_total.
  apply assignRoles_inr in Hta
    as (_ & _ & _ & _ & pairs & _ & _ & Hentries & _).
  clear -Hentries.
  induction Hentries as [|p a pairs entries Hp _ IH]; constructor; [|done].
  destruct Hp as (_ & _ & ap & r & sc & Ha & Hr & _ & ->). cbn. split.
  - apply list_elem_of_fmap. exists ap. split; [done|].
    by eapply list_elem_of_lookup_2.
  - apply list_elem_of_fmap. exists r. split; [done|].
    by eapply list_elem_of_lookup_2.
Qed.

(** X23.  [getAssignmentDetails] answers with one detail per entry of the
    assignment, in order: each names a member of the team and a role of the
    list with the ids of the entry, and carries the entry's score and
    justification.  It fails when there is no assignment, or at the first
    entry whose applicant or role is not found; it never fails on an
    assignment returned by [assignRoles] for the same team and roles. *)
Theorem getAssignmentDetails_spec team roles :
  getAssignmentDetails team roles None = inl NoAssignmentData ∧
  (∀ assignment details,
     getAssignmentDetails team roles (Some assignment) = inr details →
     Forall2 (λ a d,
                Applicant.id (applicant d) = Assignment.applicantId a ∧
                RoleDefinition.id (role d) = Assignment.roleId a ∧
                applicant d ∈ Team.applicants team ∧ role d ∈ roles ∧
                score d = Assignment.score a ∧
                justification d = Assignment.justification a)
             (TeamAssignment.assignments assignment) details) ∧
  (∀ assignment,
     (∃ details, getAssignmentDetails team roles (Some assignment) = inr details) ↔
     Forall (λ a, Assignment.applicantId a ∈ Applicant.id <$> Team.applicants team
                  ∧ Assignment.roleId a ∈ RoleDefinition.id <$> roles)
            (TeamAssignment.assignments assignment)) ∧
  (∀ munkres now sm ta,
     assignRoles munkres now team roles sm = inr ta →
     ∃ details, getAssignmentDetails team roles (Some ta) = inr details).
Proof.
  split_and!; [done| | |].
  - intros assignment details Hd. cbn [getAssignmentDetails] in Hd.
    apply collectDetails_inr in Hd. eapply Forall2_impl; [exact Hd|].
    intros a d (Ha & Hr & Hs & Hj).
    destruct (found_by_id team roles a d Ha Hr) as (? & ? & ? & ?). done.
  - intros assignment. cbn [getAssignmentDetails]. split.
    + intros [details Hd%collectDetails_inr].
      induction Hd as [|a d entries details (Ha & Hr & _) _ IH]; constructor; [|done].
      split; [apply findApplicant_Some|apply findRole_Some]; by eexists.
    + apply collectDetails_total.
  - intros munkres now sm ta. apply assignRoles_has_details.
Qed.

End assigner_more_facts.

Lemma assignRoles_output_validates_witness :
  Assigner.validateAssignment Examples.team2 Examples.roles3 Examples.assignment2
  = (true, []).
Proof.
  apply (assignRoles_output_validates
           (λ _, Returned (Some [(0, 0); (1, 1)])) 7 Examples.team2 Examples.roles3
           (ScoreMatrix.mk "T" [[90; 10; 20]; [10; 90; 30]] 0)).
  - vm_compute. reflexivity.
  - repeat constructor; lia.
Defined.

(** ** The processor beyond the claims: the trace of a run *)

Section processor_more_facts.
Import Store AssignmentProcessor.

Variable JSON_parse : string → outcome JS.json.
Variable llm : nat → Llm.response.
Variable munkres : list (list Z) → outcome (option (list (Z * Z))).

(** X24.  The status updates of a run of [processTeamAssignment] all
    concern one session and are, in order: none at all when the run fails
    before the scoring stage (no key, no team, team not complete, no
    session, import failure), in which case nothing is called and no request
    is made; scoring, pending when scoring fails; scoring, assigning, pending
    when the assignment or its saving fails; scoring, assigning, justifying
    on success.  The background justification is started once on success,
    for that session, and never otherwise; a success carries the id of the
    session and the assignment that was saved. *)
Theorem processTeamAssignment_status_trace a now teamId w :
  let '(calls, result, w') :=
    processTeamAssignment JSON_parse llm munkres a now teamId w in
  match result with
  | inr d =>
      statusUpdates calls
        = [(sessionId d, scoring); (sessionId d, assigning);
           (sessionId d, justifying)] ∧
      backgroundStarts calls = [sessionId d] ∧
      justificationsPending d = true ∧
      ∃ scoreMatrix,
        SaveAssignmentData (sessionId d) (assignment d) (Some scoreMatrix) ∈ calls
  | inl (ScoringFailed _) =>
      (∃ sid, statusUpdates calls = [(sid, scoring); (sid, pending)]) ∧
      backgroundStarts calls = []
  | inl (AssignmentFailed _) | inl SaveFailed =>
      (∃ sid, statusUpdates calls
              = [(sid, scoring); (sid, assigning); (sid, pending)]) ∧
      backgroundStarts calls = []
  | inl _ => calls = [] ∧ w' = w
  end.
Proof.
  unfold processTeamAssignment.
  repeat case_match; simplify_eq; cbn; try done.
  all: try (split; [by eexists|done]).
  all: split_and!; try done; eexists; by apply (list_elem_of_lookup_2 _ 4%nat).
Qed.

End processor_more_facts.

(** ** The health checker beyond the claims: rounds and manual recovery *)

Section health_checker_more_facts.
Import Store AssignmentHealthChecker.

#[local] Opaque AssignmentQueue.addTeam.

(** *** One recovery *)

Lemma recoverStuckTeam_outcome now session q :
  let '(calls, report, q') := recoverStuckTeam now session q in
  success report = recoverable (status session) ∧
  q' = (if requeued session
        then AssignmentQueue.addTeam now (team_id session) q else q) ∧
  queuedTeams calls = (if requeued session then [team_id session] else []) ∧
  statusUpdates calls
    = (if requeued session then [(id session, pending)]
       else if recoverable (status session) then [(id session, complete)]
       else []).
Proof.
  unfold recoverStuckTeam, recoverable, requeued.
  destruct (String.eqb (status session) "justifying") eqn:Hj.
  - destruct (hasAssignment (assignment session)); done.
  - destruct (String.eqb (status session) "scoring");
      destruct (String.eqb (status session) "assigning"); done.
Qed.


Lemma addTeam_keeps_present now tid tid' q :
  AssignmentQueue.present tid q →
  AssignmentQueue.present tid (AssignmentQueue.addTeam now tid' q).
Proof.
  intros Hq.
  destruct (decide (tid' ∈ AssignmentQueue.processingPool q)) as [Hp|Hp].
  { rewrite addTeam_present; auto. }
  destruct (decide (tid' ∈ AssignmentQueue.waitingTeams q)) as [Hw|Hw].
  { rewrite addTeam_present; auto. }
  rewrite addTeam_fresh by done. unfold AssignmentQueue.present in *.
  destruct (_ <? _)%nat; cbn.
  - destruct Hq as [?|?]; [left; set_solver|by right].
  - destruct Hq as [?|Hq]; [by left|right].
    unfold AssignmentQueue.waitingTeams in *. cbn. rewrite fmap_app. set_solver.
Qed.

(** *** A round of the health checker *)

Lemma recoverAll_report clock n sessions results q :
  let '(calls, final, q') := recoverAll clock n sessions results q in
  checked final = checked results ∧
  recovered final
    = (recovered results
       + length (filter (λ s, recoverable (status s) = true) sessions))%nat ∧
  (recovered final + failed final
   = recovered results + failed results + length sessions)%nat ∧
  Detail.teamId <$> details final
    = (Detail.teamId <$> details results) ++ (team_id <$> sessions) ∧
  Detail.status <$> details final
    = (Detail.status <$> details results) ++ (status <$> sessions) ∧
  queuedTeams calls = team_id <$> filter (λ s, requeued s = true) sessions ∧
  ((size (AssignmentQueue.processingPool q) ≤ AssignmentQueue.MAX_CONCURRENT)%nat →
   (size (AssignmentQueue.processingPool q') ≤ AssignmentQueue.MAX_CONCURRENT)%nat) ∧
  (∀ tid, AssignmentQueue.present tid q → AssignmentQueue.present tid q') ∧
  (∀ s, s ∈ sessions → requeued s = true → AssignmentQueue.present (team_id s) q').
Proof.
  revert n results q. induction sessions as [|session sessions IH]; intros n results q.
  { cbn [recoverAll]. rewrite !app_nil_r, !Nat.add_0_r. split_and!; try done.
    intros s Hs. by apply elem_of_nil in Hs. }
  cbn [recoverAll].
  pose proof (recoverStuckTeam_outcome (clock n) session q) as Hone.
  destruct (recoverStuckTeam (clock n) session q) as [[calls report] q1].
  destruct Hone as (Hsucc & Hq1 & Hqueued & _).
  match goal with
  | |- context [recoverAll clock (S n) sessions ?r q1] =>
      specialize (IH (S n) r q1);
      destruct (recoverAll clock (S n) sessions r q1) as [[calls' final] q2]
  end.
  destruct IH as (Hc & Hr & Hrf & Hdt & Hds & Hqt & Hbound & Hkeep & Hreq).
  assert (∀ tid, AssignmentQueue.present tid q → AssignmentQueue.present tid q1)
    as Hkeep1.
  { intros tid Htid. rewrite Hq1. destruct (requeued session); [|done].
    by apply addTeam_keeps_present. }
  rewrite !filter_cons.
  replace (queuedTeams (calls ++ calls'))
    with (queuedTeams calls ++ queuedTeams calls')
    by (symmetry; apply omap_app).
  rewrite Hqueued, Hqt.
  split_and!.
  - rewrite Hc. by destruct (success report).
  - rewrite Hr, <- Hsucc.
    destruct (success report); cbn;
      [rewrite decide_True by done|rewrite decide_False by done]; cbn; lia.
  - rewrite Hrf. destruct (success report); cbn; lia.
  - rewrite Hdt. destruct (success report); cbn;
      by rewrite fmap_app, <- app_assoc.
  - rewrite Hds. destruct (success report); cbn;
      by rewrite fmap_app, <- app_assoc.
  - destruct (requeued session);
      [rewrite decide_True by done|rewrite decide_False by done]; done.
  - intros Hq. apply Hbound. rewrite Hq1. destruct (requeued session); [|done].
    by apply addTeam_bound.
  - intros tid Htid. by apply Hkeep, Hkeep1.
  - intros s [->|Hs]%elem_of_cons Hs'; [|by apply Hreq].
    apply Hkeep. rewrite Hq1, Hs'. apply addTeam_after.
Qed.


(** X26.  A round of [checkStuckTeams] hands to the queue exactly the teams
    of the sessions found in status scoring or assigning, or justifying
    without an assignment, in order; each of them is in the pool or in the
    waiting list afterwards, no team that was there is dropped, and the pool
    stays within [MAX_CONCURRENT]. *)
Theorem checkStuckTeams_requeues clock sessions q :
  let '(calls, report, q') := checkStuckTeams clock (QueryData (Some sessions)) q in
  queuedTeams calls = team_id <$> filter (λ s, requeued s = true) sessions ∧
  (∀ s, s ∈ sessions → requeued s = true →
        AssignmentQueue.getTeamQueuePosition (team_id s) q'
        ≠ AssignmentQueue.NotFound) ∧
  (∀ tid, AssignmentQueue.present tid q → AssignmentQueue.present tid q') ∧
  ((size (AssignmentQueue.processingPool q) ≤ AssignmentQueue.MAX_CONCURRENT)%nat →
   (size (AssignmentQueue.processingPool q') ≤ AssignmentQueue.MAX_CONCURRENT)%nat).
Proof.
  unfold checkStuckTeams. destruct sessions as [|session sessions].
  { split_and!; try done. intros s Hs. by apply elem_of_nil in Hs. }
  pose proof (recoverAll_report clock 0 (session :: sessions)
                (mkHealthCheck (length (session :: sessions)) 0 0 []) q) as H.
  destruct (recoverAll _ _ _ _ _) as [[calls final] q'].
  destruct H as (_ & _ & _ & _ & _ & Hqt & Hbound & Hkeep & Hreq).
  split_and!; try done.
  intros s Hs Hs'. by apply position_of_present, Hreq.
Qed.


(** *** Manual recovery *)





End health_checker_more_facts.

(** ** The managers the pipeline leans on *)

Section session_manager_facts.
Import AssignmentSessionManager.

Lemma filter_first {A} (P : A → Prop) `{∀ x, Decision (P x)} (l : list A) x rest :
  filter P l = x :: rest →
  ∃ i, l !! i = Some x ∧ P x ∧ ∀ j y, l !! j = Some y → (j < i)%nat → ¬ P y.
Proof.
  induction l as [|a l IH]; [done|]. rewrite filter_cons.
  destruct (decide (P a)) as [Ha|Ha].
  - intros [= -> _]. exists 0%nat. split_and!; [done..|]. intros j y _ Hj. lia.
  - intros (i & Hi & Hx & Hbefore)%IH. exists (S i). split_and!; [done..|].
    intros [|j] y Hy Hj; [by injection Hy as <-|].
    apply (Hbefore j y Hy). lia.
Qed.

Lemma filter_none {A} (P : A → Prop) `{∀ x, Decision (P x)} (l : list A) :
  filter P l = [] → ∀ j y, l !! j = Some y → ¬ P y.
Proof.
  intros Hnil j y Hy Hp.
  assert (y ∈ filter P l) as Hin.
  { apply list_elem_of_filter. split; [done|]. by eapply list_elem_of_lookup_2. }
  rewrite Hnil in Hin. by apply elem_of_nil in Hin.
Qed.

Lemma rank_complete s : rank s = 0%nat ↔ s = "complete".
Proof. unfold rank. repeat case_decide; split; try done; lia. Qed.

Lemma rank_processing s :
  rank s = 1%nat ↔ s = "scoring" ∨ s = "assigning" ∨ s = "justifying".
Proof.
  unfold rank. repeat case_decide; split; try done; try lia.
  intros [->|[->| ->]]; done.
Qed.

Lemma rank_pending s : rank s = 2%nat ↔ s = "pending".
Proof.
  unfold rank. repeat case_decide; split; try done; try lia.
  - intros ->. done.
  - intros ->. naive_solver.
Qed.

Lemma rank_le_3 s : (rank s ≤ 3)%nat.
Proof. unfold rank. repeat case_decide; lia. Qed.

(** X28.  [getAssignmentForTeam] answers [null] exactly when the query
    fails or finds no row.  Otherwise it answers with one of the rows found:
    a complete one if there is any, else one in status scoring, assigning or
    justifying, else a pending one, else whatever comes first; among the rows
    of the preferred kind it is the first in the order of the query, the
    latest created. *)
Theorem getAssignmentForTeam_priority (data : list row) :
  getAssignmentForTeam QueryThrows = None ∧
  getAssignmentForTeam QueryError = None ∧
  getAssignmentForTeam (QueryData None) = None ∧
  (getAssignmentForTeam (QueryData (Some data)) = None ↔ data = []) ∧
  (∀ s, getAssignmentForTeam (QueryData (Some data)) = Some s →
     ∃ i latest,
       data !! i = Some latest ∧ s = toSession latest ∧
       ∀ j r, data !! j = Some r →
              (rank (status latest) ≤ rank (status r))%nat ∧
              (rank (status r) = rank (status latest) → (i ≤ j)%nat)).
Proof.
  split_and!; [done..| |].
  - destruct data as [|r data]; [done|]. split; [|done].
    cbn [getAssignmentForTeam]. by repeat case_match.
  - intros s. destruct data as [|r0 data0]; [done|].
    set (data := r0 :: data0). cbn [getAssignmentForTeam]. fold data.
    destruct (filter (λ r, status r = "complete") data) as [|l1 rest1] eqn:H1.
    2:{ intros [= <-]. apply filter_first in H1 as (i & Hi & Hl & Hbefore).
        exists i, l1. split_and!; [done..|]. intros j r Hr.
        rewrite Hl. change (rank "complete") with 0%nat. split; [lia|].
        intros Hc%rank_complete. destruct (decide (j < i)%nat); [|lia].
        by destruct (Hbefore j r Hr). }
    pose proof (filter_none _ _ H1) as Hno1.
    destruct (filter (λ r, status r = "scoring" ∨ status r = "assigning"
                           ∨ status r = "justifying") data)
      as [|l2 rest2] eqn:H2.
    2:{ intros [= <-]. apply filter_first in H2 as (i & Hi & Hl & Hbefore).
        exists i, l2. apply rank_processing in Hl as Hrank.
        split_and!; [done..|]. intros j r Hr. rewrite Hrank. split.
        - pose proof (Hno1 j r Hr) as Hc.
          destruct (rank (status r)) eqn:E; [|lia]. by apply rank_complete in E.
        - intros Hr'%rank_processing. destruct (decide (j < i)%nat); [|lia].
          by destruct (Hbefore j r Hr). }
    pose proof (filter_none _ _ H2) as Hno2.
    destruct (filter (λ r, status r = "pending") data) as [|l3 rest3] eqn:H3.
    2:{ intros [= <-]. apply filter_first in H3 as (i & Hi & Hl & Hbefore).
        exists i, l3. apply rank_pending in Hl as Hrank.
        split_and!; [done..|]. intros j r Hr. rewrite Hrank. split.
        - pose proof (Hno1 j r Hr) as Hc. pose proof (Hno2 j r Hr) as Hp.
          destruct (rank (status r)) as [|[|k]] eqn:E; [| |lia].
          + by apply rank_complete in E.
          + by apply rank_processing in E.
        - intros Hr'%rank_pending. destruct (decide (j < i)%nat); [|lia].
          by destruct (Hbefore j r Hr). }
    pose proof (filter_none _ _ H3) as Hno3.
    intros [= <-]. exists 0%nat, r0. split_and!; [done..|]. intros j r Hr.
    assert (∀ r', r' ∈ data → rank (status r') = 3%nat) as Hall.
    { intros r' (k & Hk)%list_elem_of_lookup_1.
      pose proof (Hno1 k r' Hk). pose proof (Hno2 k r' Hk). pose proof (Hno3 k r' Hk).
      pose proof (rank_le_3 (status r')).
      destruct (rank (status r')) as [|[|[|[|k']]]] eqn:E; [| | |done|lia].
      - by apply rank_complete in E.
      - by apply rank_processing in E.
      - by apply rank_pending in E. }
    rewrite (Hall r0), (Hall r); [split; lia|by eapply list_elem_of_lookup_2|left].
Qed.

End session_manager_facts.

Section team_manager_facts.
Import TeamManager.

#[local] Opaque AssignmentQueue.addTeam.

Lemma ensureQueued_calls a now teamId q :
  let '(calls, q') := ensureQueued a now teamId q in
  (AddTeam teamId ∈ calls ↔
   importsResolve a = true ∧
   (existingSession a = None ∧ createAssignmentSession a = true
    ∨ existingSession a = Some "pending")) ∧
  (CreateAssignmentSession teamId ∈ calls ↔
   importsResolve a = true ∧ existingSession a = None) ∧
  (AddTeam teamId ∈ calls → q' = AssignmentQueue.addTeam now teamId q) ∧
  (AddTeam teamId ∉ calls → q' = q) ∧
  (∀ c, c ∈ calls → c = AddTeam teamId ∨ c = CreateAssignmentSession teamId).
Proof.
  unfold ensureQueued. destruct (importsResolve a); cbn [negb].
  2:{ split_and!; try done; try (split; [by intros ?%elem_of_nil|by intros [? _]]).
      - by intros ?%elem_of_nil.
      - by intros c ?%elem_of_nil. }
  destruct (existingSession a) as [status|].
  - destruct (String.eqb status "pending") eqn:Hp.
    + apply String.eqb_eq in Hp as ->.
      split_and!; try done.
      * split; [auto|]. intros _. set_solver.
      * split; [|by intros [_ ?]]. intros [=]%list_elem_of_singleton.
      * intros Hno. destruct Hno. set_solver.
      * intros c ->%list_elem_of_singleton. by left.
    + apply String.eqb_neq in Hp.
      split_and!; try done.
      * split; [by intros ?%elem_of_nil|]. intros [_ [[? _]|[= ->]]]; done.
      * split; [by intros ?%elem_of_nil|]. by intros [_ ?].
      * by intros ?%elem_of_nil.
      * by intros c ?%elem_of_nil.
  - destruct (createAssignmentSession a).
    + split_and!; try done.
      * split; [auto|]. intros _. set_solver.
      * split; [done|]. intros _. set_solver.
      * intros Hno. destruct Hno. set_solver.
      * intros c [->|[->|?%elem_of_nil]%elem_of_cons]%elem_of_cons; auto. done.
    + split_and!; try done.
      * split; [|by intros [_ [[_ ?]|?]]]. intros [=]%list_elem_of_singleton.
      * split; [done|]. intros _. set_solver.
      * intros [=]%list_elem_of_singleton.
      * intros c ->%list_elem_of_singleton. by right.
Qed.

(** X29.  [updateTeamStats] hands a team to the queue exactly when the
    team has at least [max_members] applicants and either has no session yet
    and one is created for it, or has a session in status pending; a team
    below its size is never queued, and a session is created only for a
    complete team that has none.  The completion flag the team had before
    plays no part: the two branches for a complete team do the same.  The
    flag of the team is written first, with the new value, whenever both
    queries answer. *)
Theorem updateTeamStats_enqueues a now teamId q :
  let '(calls, q') := updateTeamStats a now teamId q in
  (AddTeam teamId ∈ calls ↔
   ∃ currentMembers max_members wasComplete,
     applicants a = inr (Some currentMembers) ∧
     teamData a = Some (max_members, wasComplete) ∧
     max_members ≤ Z.of_nat currentMembers ∧
     importsResolve a = true ∧
     (existingSession a = None ∧ createAssignmentSession a = true
      ∨ existingSession a = Some "pending")) ∧
  (CreateAssignmentSession teamId ∈ calls ↔
   ∃ currentMembers max_members wasComplete,
     applicants a = inr (Some currentMembers) ∧
     teamData a = Some (max_members, wasComplete) ∧
     max_members ≤ Z.of_nat currentMembers ∧
     importsResolve a = true ∧ existingSession a = None) ∧
  (AddTeam teamId ∈ calls → q' = AssignmentQueue.addTeam now teamId q) ∧
  (AddTeam teamId ∉ calls → q' = q) ∧
  (∀ currentMembers max_members wasComplete,
     applicants a = inr (Some currentMembers) →
     teamData a = Some (max_members, wasComplete) →
     head calls
     = Some (UpdateIsComplete teamId (Z.of_nat currentMembers >=? max_members))) ∧
  (∀ wasComplete,
     updateTeamStats
       (mkAnswers (applicants a) (prod_map id (λ _, wasComplete) <$> teamData a)
          (importsResolve a) (existingSession a) (createAssignmentSession a))
       now teamId q
     = (calls, q')).
Proof.
  unfold updateTeamStats.
  destruct (applicants a) as [e|[n|]] eqn:Happ.
  1,3: split_and!; try done;
    try (split; [by intros ?%elem_of_nil|by intros (? & ? & ? & ? & _)]);
    by intros ?%elem_of_nil.
  destruct (teamData a) as [[max_members was]|] eqn:Hteam.
  2:{ split_and!; try done;
        try (split; [by intros ?%elem_of_nil|by intros (? & ? & ? & _ & ? & _)]);
        by intros ?%elem_of_nil. }
  cbn [fmap option_fmap option_map prod_map fst snd id].
  assert ((let '(calls, q') :=
             if (Z.of_nat n >=? max_members) && negb was
             then ensureQueued a now teamId q
             else if Z.of_nat n >=? max_members then ensureQueued a now teamId q
                  else ([], q) in
           (UpdateIsComplete teamId (Z.of_nat n >=? max_members) :: calls, q'))
          = (let '(calls, q') :=
               if Z.of_nat n >=? max_members then ensureQueued a now teamId q
               else ([], q) in
             (UpdateIsComplete teamId (Z.of_nat n >=? max_members) :: calls, q')))
    as ->.
  { by destruct (Z.of_nat n >=? max_members), was. }
  pose proof (ensureQueued_calls a now teamId q) as Hq.
  destruct (Z.of_nat n >=? max_members) eqn:Hfull.
  - destruct (ensureQueued a now teamId q) as [calls q'] eqn:Hens.
    destruct Hq as (Hadd & Hcreate & Hthen & Helse & Hkinds).
    assert (max_members ≤ Z.of_nat n) as Hle by lia.
    split_and!.
    + rewrite elem_of_cons, Hadd. split.
      * intros [[=]|[? ?]]. by exists n, max_members, was.
      * intros (? & ? & ? & _ & _ & _ & ? & ?). by right.
    + rewrite elem_of_cons, Hcreate. split.
      * intros [[=]|[? ?]]. by exists n, max_members, was.
      * intros (? & ? & ? & _ & _ & _ & ? & ?). by right.
    + intros [[=]|?]%elem_of_cons. by apply Hthen.
    + intros Hno. apply Helse. intros ?. apply Hno. by right.
    + intros ? ? ? [= <-] [= <- <-]. cbn. by rewrite Hfull.
    + intros wasComplete. cbn [applicants teamData importsResolve].
      rewrite Hfull.
      assert (ensureQueued
                (mkAnswers (inr (Some n)) (Some (max_members, wasComplete))
                   (importsResolve a) (existingSession a)
                   (createAssignmentSession a)) now teamId q
              = ensureQueued a now teamId q) as -> by done.
      rewrite Hens. by destruct wasComplete.
  - assert (¬ max_members ≤ Z.of_nat n) as Hlt by lia.
    split_and!.
    + split; [by intros [[=]|?%elem_of_nil]%elem_of_cons|].
      intros (? & ? & ? & [= <-] & [= <- <-] & ? & _). done.
    + split; [by intros [[=]|?%elem_of_nil]%elem_of_cons|].
      intros (? & ? & ? & [= <-] & [= <- <-] & ? & _). done.
    + by intros [[=]|?%elem_of_nil]%elem_of_cons.
    + done.
    + intros ? ? ? [= <-] [= <- <-]. cbn. by rewrite Hfull.
    + intros wasComplete. cbn [applicants teamData]. rewrite Hfull.
      by destruct wasComplete.
Qed.

End team_manager_facts.

(** ** The pipeline end to end: what a success hands on *)

Section pipeline_result_facts.
Import Store AssignmentProcessor.

Variable JSON_parse : string → outcome JS.json.
Variable llm : nat → Llm.response.
Variable munkres : list (list Z) → outcome (option (list (Z * Z))).



End pipeline_result_facts.

Section pipeline_result_witnesses.
Import JS Store AssignmentProcessor Examples.


End pipeline_result_witnesses.
